(** * nbjs-eventful: the listener registry and the two emission strategies

    A shallow embedding of [eventful(object, options)] and of the closures it
    attaches to the host ([on], [once], [off], [has], [emit], [emitAsync]).

    - The closure variables of one [eventful] call are the fields of [state]:
      [map] (the [Map] from event to [Set] object), the [Set] objects
      themselves (a heap, since [emit] keeps iterating a [Set] it looked up
      while listeners change the registry), and the [active] cell of every
      subscription handle.
    - A JavaScript [Set] is modelled as ECMAScript specifies it: a list of
      entries in insertion order in which [delete] leaves a hole, so that an
      iterator is an index into that list.
    - Listeners are client code.  A client function is named by a number
      (its reference) and its body is a [prog]: a tree of calls into the
      emitter whose continuation receives each call's answer.  The arrow
      function created by [once] is the second kind of listener, [Adapter].
      Client code passes its own functions as listeners, and calls the
      handles it was given.
    - A listener that returns a promise is its synchronous part together
      with how the promise settles; what such a listener does after an
      [await] is client code run later.
    - The [trace] and [error] hooks are observers: a call of a hook appends
      to a log and does not call back into the emitter. *)

From stdpp Require Import gmap strings list fin_maps.

Set Default Proof Using "Type".

(** ** Values *)

(** Event names: [string | symbol]. *)
Inductive event :=
  | EString (s : string)
  | ESymbol (n : nat).

#[global] Instance event_eq_dec : EqDecision event.
Proof. solve_decision. Defined.

#[global] Instance event_countable : Countable event.
Proof.
  refine (inj_countable'
            (λ e, match e with EString s => inl s | ESymbol n => inr n end)
            (λ x, match x with inl s => EString s | inr n => ESymbol n end) _).
  by intros [].
Defined.

(** What a caller may pass where a listener is expected: a client function
    (by reference) or something that is not callable. *)
Inductive value :=
  | VFunction (id : nat)
  | VOther.

(** The function objects that can sit in a listener [Set]: a client function,
    or the arrow [(...args) => { off(); listener(...args); }] that [once]
    creates.  Such an arrow closes over the handle [off] returned by its own
    [on] call (cell [h] of the handle heap) and over [listener]. *)
Inductive fn :=
  | User (id : nat)
  | Adapter (h : nat) (listener : fn).

#[global] Instance fn_eq_dec : EqDecision fn.
Proof. solve_decision. Defined.

Inductive jserror :=
  | TypeError (msg : string)
  | Error (msg : string)
  | Thrown (v : nat).

(** How a call of a client function ends.  A returned value is either plain
    or a promise, which later fulfils ([Deferred None]) or rejects. *)
Inductive retval :=
  | Plain
  | Deferred (rejects : option jserror).

Inductive outcome :=
  | Returns (r : retval)
  | Throws (err : jserror).

(** One element of [calls] in [emitAsync]. *)
Inductive completion :=
  | Fulfils
  | RejectsInExecutor (err : jserror)
  | RejectsLater (err : jserror).

(** ** Client code *)

Inductive call :=
  | COn (e : event) (listener : value)
  | COnce (e : event) (listener : value)
  | COff (e : event) (listener : value)
  | CHas (e : event)
  | CEmit (e : event) (args : list nat)
  | CEmitAsync (e : event) (args : list nat)
  | CUnsubscribe (h : nat).

Inductive answer :=
  | AHandle (h : nat)
  | ABool (b : bool)
  | AUndefined
  | APromise (calls : list completion)
  | AThrew (err : jserror).

Inductive prog :=
  | Ret (o : outcome)
  | Do (c : call) (k : answer → prog).

(** ** The hooks' logs *)

Inductive hook :=
  | OwnHook (n : nat)
  | GlobalHook (n : nat).

Inductive payload :=
  | PSubscription (e : event) (listener : fn)
  | PEmission (listeners : list fn) (e : event) (args : list nat).

Record trace_call := TraceCall {
  tc_hook : hook;
  tc_object : nat;
  tc_action : string;
  tc_payload : payload }.

Record context := Context {
  ctx_object : nat;
  ctx_event : event;
  ctx_listener : fn }.

Record error_call := ErrorCall {
  ec_hook : hook;
  ec_err : jserror;
  ec_context : context }.

(** ** State of one emitter *)

Record handle := Handle {
  h_event : event;
  h_listener : fn;
  active : bool }.

Record state := State {
  map : gmap event nat;
  sets : list (list (option fn));
  handles : list handle;
  trace_log : list trace_call;
  error_log : list error_call;
  calls_log : list (fn * list nat) }.

(** [const emptySet = new Set()] is the first [Set] allocated. *)
Definition emptySet : nat := 0.

Definition initial : state :=
  {| map := ∅; sets := [[]]; handles := [];
     trace_log := []; error_log := []; calls_log := [] |}.

(** *** [Set] objects *)

(** The entries that are not holes, in insertion order: what [Array.from]
    and an iteration from the start see. *)
Definition elements (l : list (option fn)) : list fn := omap id l.

(** [set.size] *)
Definition size (l : list (option fn)) : nat := length (elements l).

(** [set.add(f)]: a new entry at the end, unless [f] is an element. *)
Definition set_add (f : fn) (l : list (option fn)) : list (option fn) :=
  if decide (f ∈ elements l) then l else l ++ [Some f].

(** [set.delete(f)]: the entry of [f] becomes a hole. *)
Definition set_delete (f : fn) (l : list (option fn)) : list (option fn) :=
  (λ x, if decide (x = Some f) then None else x) <$> l.

(** The [Set] object at address [a]. *)
Definition set_at (a : nat) (s : state) : list (option fn) :=
  default [] (sets s !! a).

Definition with_sets (s : state) (ss : list (list (option fn))) : state :=
  {| map := map s; sets := ss; handles := handles s;
     trace_log := trace_log s; error_log := error_log s;
     calls_log := calls_log s |}.

Definition with_map (s : state) (m : gmap event nat) : state :=
  {| map := m; sets := sets s; handles := handles s;
     trace_log := trace_log s; error_log := error_log s;
     calls_log := calls_log s |}.

Definition with_handles (s : state) (hs : list handle) : state :=
  {| map := map s; sets := sets s; handles := hs;
     trace_log := trace_log s; error_log := error_log s;
     calls_log := calls_log s |}.

(** *** [add], [remove], [getListeners], [has] *)

(** [let listeners = map.get(event);
     if (!listeners) { listeners = new Set(); map.set(event, listeners); }
     listeners.add(listener);] *)
Definition add (e : event) (listener : fn) (s : state) : state :=
  match map s !! e with
  | Some a => with_sets s (<[a := set_add listener (set_at a s)]> (sets s))
  | None =>
      let a := length (sets s) in
      with_map (with_sets s (sets s ++ [set_add listener []])) (<[e := a]> (map s))
  end.

(** [const listeners = map.get(event);
     if (!listeners) return false;
     const deleted = listeners.delete(listener);
     if (listeners.size === 0) map.delete(event);
     return deleted;] *)
Definition remove (e : event) (listener : fn) (s : state) : state * bool :=
  match map s !! e with
  | None => (s, false)
  | Some a =>
      let deleted := bool_decide (listener ∈ elements (set_at a s)) in
      let l := set_delete listener (set_at a s) in
      let s' := with_sets s (<[a := l]> (sets s)) in
      if size l =? 0 then (with_map s' (delete e (map s)), deleted)
      else (s', deleted)
  end.

(** [map.get(event) || emptySet] *)
Definition getListeners (e : event) (s : state) : nat :=
  default emptySet (map s !! e).

(** [map.get(event)?.size > 0 || false] *)
Definition has (e : event) (s : state) : bool :=
  match map s !! e with
  | Some a => 0 <? size (set_at a s)
  | None => false
  end.

(** The listeners of [e], in insertion order. *)
Definition listeners (e : event) (s : state) : list fn :=
  elements (set_at (getListeners e s) s).

(** ** The closures of one [eventful] call *)

(** A listener argument as [functionTypeGuard] sees it. *)
Inductive jsval :=
  | JFn (f : fn)
  | JOther.

(** [functionTypeGuard(value)] throws unless [typeof value === 'function'],
    and lets the function through. *)
Definition functionTypeGuard (v : jsval) : jserror + fn :=
  match v with
  | JFn f => inr f
  | JOther => inl (TypeError "Expect a function.")
  end.

(** A listener passed by client code. *)
Definition to_js (v : value) : jsval :=
  match v with VFunction id => JFn (User id) | VOther => JOther end.

(** The two properties of [eventful.options]. *)
Record hooks := Hooks { g_trace : nat; g_error : nat }.

(** The record that [f] was called with [args]. *)
Definition log_call (f : fn) (args : list nat) (s : state) : state :=
  {| map := map s; sets := sets s; handles := handles s;
     trace_log := trace_log s; error_log := error_log s;
     calls_log := calls_log s ++ [(f, args)] |}.

(** The arguments of one call [eventful(object, options)] and the values it
    captures: the host, the three options, [globalOptions] (the object
    [eventful.options] held at that time), [eventful.options] as [off] reads
    it, and the client's functions.  The body of client function [id] may
    depend on the calls made so far and on its arguments. *)
Record config := Config {
  object : nat;
  strict : bool;
  trace : option nat;
  error : option nat;
  globalOptions : hooks;
  eventful_options : hooks;
  body : nat → list (fn * list nat) → list nat → prog }.

(** [(own || fallback)(...)] *)
Definition or_hook (own : option nat) (fallback : nat) : hook :=
  match own with Some n => OwnHook n | None => GlobalHook fallback end.

(** The closure [on] returns, [h] being the cell that holds its [active]:
    [if (!active) return false; active = false; return remove(event, listener);] *)
Definition unsubscribe (h : nat) (s : state) : state * bool :=
  match handles s !! h with
  | None => (s, false)
  | Some c =>
      if active c then
        remove (h_event c) (h_listener c)
          (with_handles s (<[h := Handle (h_event c) (h_listener c) false]> (handles s)))
      else (s, false)
  end.

Section Emitter.

Variable cfg : config.

(** [(trace || globalOptions.trace)(object, action, payload)] *)
Definition call_trace (h : hook) (action : string) (p : payload) (s : state) : state :=
  {| map := map s; sets := sets s; handles := handles s;
     trace_log := trace_log s ++ [TraceCall h (object cfg) action p];
     error_log := error_log s; calls_log := calls_log s |}.

(** [(error || globalOptions.error)(err, context)] *)
Definition call_error (err : jserror) (c : context) (s : state) : state :=
  {| map := map s; sets := sets s; handles := handles s;
     trace_log := trace_log s;
     error_log := error_log s
       ++ [ErrorCall (or_hook (error cfg) (g_error (globalOptions cfg))) err c];
     calls_log := calls_log s |}.

(** [functionTypeGuard(listener)], the trace call, [add(event, listener)],
    and the handle with [active = true]. *)
Definition on (e : event) (listener : jsval) (s : state) : state * answer :=
  match functionTypeGuard listener with
  | inl err => (s, AThrew err)
  | inr f =>
      let s1 := call_trace (or_hook (trace cfg) (g_trace (globalOptions cfg))) "on"
                  (PSubscription e f) s in
      let s2 := add e f s1 in
      (with_handles s2 (handles s2 ++ [Handle e f true]), AHandle (length (handles s2)))
  end.

(** [functionTypeGuard(listener)], then [on] with the arrow.  The arrow
    refers to the handle that this very call of [on] returns: the next free
    cell. *)
Definition once (e : event) (listener : jsval) (s : state) : state * answer :=
  match functionTypeGuard listener with
  | inl err => (s, AThrew err)
  | inr f => on e (JFn (Adapter (length (handles s)) f)) s
  end.

(** [functionTypeGuard(listener)], the trace call through
    [eventful.options.trace], and [remove(event, listener)]. *)
Definition off (e : event) (listener : jsval) (s : state) : state * answer :=
  match functionTypeGuard listener with
  | inl err => (s, AThrew err)
  | inr f =>
      let s1 := call_trace (or_hook (trace cfg) (g_trace (eventful_options cfg))) "off"
                  (PSubscription e f) s in
      let '(s2, deleted) := remove e f s1 in
      (s2, ABool deleted)
  end.

Section Calls.

(** Running the body of a client function. *)
Variable rec : prog → state → option (state * outcome).

(** A call of client function [id]. *)
Definition apply_user (id : nat) (args : list nat) (s : state)
  : option (state * outcome) :=
  rec (body cfg id (calls_log s) args) (log_call (User id) args s).

(** [listener(...args)]; the arrow of [once] has a block body, so it
    returns [undefined] whatever its [listener] returns. *)
Fixpoint apply (f : fn) (args : list nat) (s : state)
  : option (state * outcome) :=
  match f with
  | User id => apply_user id args s
  | Adapter h listener =>
      let '(s1, _) := unsubscribe h (log_call f args s) in
      match apply listener args s1 with
      | Some (s2, Returns _) => Some (s2, Returns Plain)
      | r => r
      end
  end.

(** [for (const listener of listeners) { try ... catch ... }], resumed at
    entry [i] of the [Set] object at [a]. *)
Fixpoint emit_loop (fuel : nat) (a i : nat) (e : event) (args : list nat)
    (s : state) : option (state * answer) :=
  match fuel with
  | 0 => None
  | S fuel' =>
      match set_at a s !! i with
      | None => Some (s, AUndefined)
      | Some None => emit_loop fuel' a (S i) e args s
      | Some (Some listener) =>
          match apply listener args s with
          | None => None
          | Some (s', Returns _) => emit_loop fuel' a (S i) e args s'
          | Some (s', Throws err) =>
              let s'' := call_error err (Context (object cfg) e listener) s' in
              if strict cfg then Some (s'', AThrew err)
              else emit_loop fuel' a (S i) e args s''
          end
      end
  end.

(** [getListeners(event)], the trace call, [if (listeners.size === 0)
    return;], and the loop. *)
Definition emit (fuel : nat) (e : event) (args : list nat) (s : state)
  : option (state * answer) :=
  let a := getListeners e s in
  let s1 := call_trace (or_hook (trace cfg) (g_trace (globalOptions cfg))) "emit"
              (PEmission (elements (set_at a s)) e args) s in
  if size (set_at a s1) =? 0 then Some (s1, AUndefined)
  else emit_loop fuel a 0 e args s1.

(** The executor of one [new Promise(...)] in [emitAsync]. *)
Definition settle (e : event) (listener : fn) (o : outcome) (s : state)
  : state * completion :=
  match o with
  | Returns Plain => (s, Fulfils)
  | Returns (Deferred None) => (s, Fulfils)
  | Returns (Deferred (Some err)) => (s, RejectsLater err)
  | Throws err =>
      (call_error err (Context (object cfg) e listener) s, RejectsInExecutor err)
  end.

(** [Array.from(listeners).map(listener => new Promise(...))] *)
Fixpoint emitAsync_map (ls : list fn) (e : event) (args : list nat)
    (s : state) : option (state * list completion) :=
  match ls with
  | [] => Some (s, [])
  | listener :: ls' =>
      match apply listener args s with
      | None => None
      | Some (s', o) =>
          let '(s'', c) := settle e listener o s' in
          match emitAsync_map ls' e args s'' with
          | None => None
          | Some (s3, cs) => Some (s3, c :: cs)
          end
      end
  end.

(** As [emit] up to the size test; the answer is the promise that awaits
    [calls]. *)
Definition emitAsync (e : event) (args : list nat) (s : state)
  : option (state * answer) :=
  let a := getListeners e s in
  let s1 := call_trace (or_hook (trace cfg) (g_trace (globalOptions cfg))) "emitAsync"
              (PEmission (elements (set_at a s)) e args) s in
  if size (set_at a s1) =? 0 then Some (s1, APromise [])
  else
    match emitAsync_map (elements (set_at a s1)) e args s1 with
    | None => None
    | Some (s2, cs) => Some (s2, APromise cs)
    end.

(** One call made by client code. *)
Definition exec (fuel : nat) (c : call) (s : state) : option (state * answer) :=
  match c with
  | COn e v => Some (on e (to_js v) s)
  | COnce e v => Some (once e (to_js v) s)
  | COff e v => Some (off e (to_js v) s)
  | CHas e => Some (s, ABool (has e s))
  | CEmit e args => emit fuel e args s
  | CEmitAsync e args => emitAsync e args s
  | CUnsubscribe h =>
      let '(s', b) := unsubscribe h s in Some (s', ABool b)
  end.

End Calls.

(** Client code, with [n] bounding the nesting of calls and the length of
    every loop. *)
Fixpoint run (n : nat) (p : prog) (s : state) : option (state * outcome) :=
  match n with
  | 0 => None
  | S n' =>
      match p with
      | Ret o => Some (s, o)
      | Do c k =>
          match exec (run n') n' c s with
          | None => None
          | Some (s', a) => run n' (k a) s'
          end
      end
  end.

(** Whether the promise returned by [emitAsync] rejects:
    [Promise.all] when [strict], [Promise.allSettled] otherwise. *)
Definition rejected (c : completion) : bool :=
  match c with Fulfils => false | _ => true end.

Definition emitAsync_rejects (a : answer) : bool :=
  match a with
  | APromise cs => strict cfg && existsb rejected cs
  | _ => false
  end.

End Emitter.

(** ** [eventful(object, options)]: the host *)

Module Host.

Inductive capability := On | Once | Off | Emit | EmitAsync | Has.

Definition name (c : capability) : string :=
  match c with
  | On => "on" | Once => "once" | Off => "off"
  | Emit => "emit" | EmitAsync => "emitAsync" | Has => "has"
  end.

(** A property holds one of the closures of this [eventful] call, or
    something else. *)
Inductive content :=
  | Closure (c : capability)
  | Foreign (v : nat).

Record property := Property {
  p_value : content;
  enumerable : bool;
  configurable : bool;
  writable : bool }.

(** An object: its own properties, the names it inherits along its prototype
    chain, and whether properties can be added to it. *)
Record obj := Obj {
  own : gmap string property;
  inherited : gset string;
  extensible : bool }.

Inductive host :=
  | Undefined
  | Null
  | Primitive
  | Object (o : obj)
  | Function (o : obj).

Inductive result :=
  | Returned (h : host)
  | Raised (err : jserror) (left_as : host).

Definition isFunction (v : host) : bool :=
  match v with Function _ => true | _ => false end.

Definition isObject (v : host) : bool :=
  match v with Object _ => true | _ => false end.

(** [name in object] *)
Definition has_property (n : string) (o : obj) : bool :=
  bool_decide (is_Some (own o !! n)) || bool_decide (n ∈ inherited o).

Definition quote : string := String (Ascii.ascii_of_nat 34) EmptyString.

Definition already_exists (method : string) : jserror :=
  Error ("Method " +:+ quote +:+ method +:+ quote +:+ " already exists.").

(** The names the loop of [eventful] looks for. *)
Definition checked : list capability := [On; Once; Off; Emit; Has].

(** The keys of the object given to [Object.defineProperties]. *)
Definition attached : list capability := [On; Once; Off; Emit; EmitAsync; Has].

Fixpoint collision (cs : list capability) (o : obj) : option jserror :=
  match cs with
  | [] => None
  | c :: cs' =>
      if has_property (name c) o then Some (already_exists (name c))
      else collision cs' o
  end.

(** [{ value, enumerable: false, configurable: true, writable: true }] *)
Definition descriptor (c : capability) : property :=
  {| p_value := Closure c; enumerable := false; configurable := true;
     writable := true |}.

(** One step of [Object.defineProperties]: a new property needs an extensible
    object, and an own property that is not configurable cannot be made
    configurable. *)
Definition defineProperty (c : capability) (o : obj) : option obj :=
  let define :=
    {| own := <[name c := descriptor c]> (own o);
       inherited := inherited o; extensible := extensible o |} in
  match own o !! name c with
  | None => if extensible o then Some define else None
  | Some p => if configurable p then Some define else None
  end.

(** The properties are defined one after the other; the first failure throws
    and leaves the ones already defined. *)
Fixpoint defineProperties (cs : list capability) (o : obj) : obj * option jserror :=
  match cs with
  | [] => (o, None)
  | c :: cs' =>
      match defineProperty c o with
      | None => (o, Some (TypeError "Cannot define property"))
      | Some o' => defineProperties cs' o'
      end
  end.

Definition wrap (like : host) (o : obj) : host :=
  match like with Function _ => Function o | _ => Object o end.

Definition eventful (object : host) : result :=
  let object :=
    match object with
    | Undefined => Object {| own := ∅; inherited := ∅; extensible := true |}
    | _ => object
    end in
  if negb (isObject object) && negb (isFunction object) then
    Raised (TypeError "Expect an object or a function.") object
  else
    match object with
    | Object o | Function o =>
        match collision checked o with
        | Some err => Raised err object
        | None =>
            match defineProperties attached o with
            | (o', None) => Returned (wrap object o')
            | (o', Some err) => Raised err (wrap object o')
            end
        end
    | _ => Raised (TypeError "Expect an object or a function.") object
    end.

End Host.

(** * Invariants and vocabulary of the statements *)

(** ** The registry invariant *)

(** [emptySet] is empty; the [Set] of an event exists and has an element; no
    two events share a [Set]; no [Set] has an element twice. *)
Record reg_ok (s : state) : Prop := RegOk {
  ok_empty : sets s !! emptySet = Some [];
  ok_entry : ∀ e a, map s !! e = Some a →
               a < length (sets s) ∧ 0 < size (set_at a s);
  ok_inj : ∀ e1 e2 a, map s !! e1 = Some a → map s !! e2 = Some a → e1 = e2;
  ok_nodup : ∀ a, NoDup (elements (set_at a s)) }.

(** ** Adapters and the handles they close over *)

(** A client function, or the arrow that [once] made for one. *)
Definition flat (g : fn) : Prop :=
  match g with
  | User _ => True
  | Adapter _ (User _) => True
  | Adapter _ (Adapter _ _) => False
  end.

(** Every listener is [flat]; an arrow that is in a [Set] is in the [Set] of
    the event of its handle, and that handle is unused; a handle whose
    listener is an arrow is the handle of that arrow. *)
Record adapters_ok (s : state) : Prop := AdaptersOk {
  ad_flat : ∀ a g, g ∈ elements (set_at a s) → flat g;
  ad_live : ∀ a h f, Adapter h f ∈ elements (set_at a s) →
              ∃ e, handles s !! h = Some (Handle e (Adapter h f) true)
                   ∧ map s !! e = Some a;
  ad_handle : ∀ h c h' f, handles s !! h = Some c →
                h_listener c = Adapter h' f → h' = h }.

(** What holds of every state that client code can reach. *)
Definition inv (s : state) : Prop := reg_ok s ∧ adapters_ok s.

(** A listener that [on] may be given: a client function, or the arrow of
    a [once] call in progress. *)
Definition fresh (f : fn) (s : state) : Prop :=
  flat f ∧ ∀ h g, f = Adapter h g → h = length (handles s).

(** [rec], which runs client code, keeps [P]. *)
Definition preserves (P : state → Prop)
    (rec : prog → state → option (state * outcome)) : Prop :=
  ∀ p s s' o, P s → rec p s = Some (s', o) → P s'.

(** A client function whose body, given [args], returns or throws ([out])
    without calling the emitter. *)
Definition quiet (cfg : config) (args : list nat) (out : fn → outcome) (f : fn)
  : Prop :=
  ∃ id, f = User id ∧ ∀ hist, body cfg id hist args = Ret (out f).

(** The call of the error hook that [f] causes, if it throws. *)
Definition report (cfg : config) (e : event) (out : fn → outcome) (f : fn)
  : option error_call :=
  match out f with
  | Throws err =>
      Some (ErrorCall (or_hook (error cfg) (g_error (globalOptions cfg))) err
              (Context (object cfg) e f))
  | Returns _ => None
  end.

(** The state after [called] were called with [args] and [reported] were
    passed to the error hook. *)
Definition after (args : list nat) (s : state) (called : list fn)
    (reported : list error_call) : state :=
  {| map := map s; sets := sets s; handles := handles s;
     trace_log := trace_log s;
     error_log := error_log s ++ reported;
     calls_log := calls_log s ++ ((λ f, (f, args)) <$> called) |}.

(** The listeners called, the reports made and the answer of [emit], when
    the remaining listeners are [ls] and none of them calls the emitter. *)
Fixpoint deliver (cfg : config) (e : event) (out : fn → outcome) (ls : list fn)
  : list fn * list error_call * answer :=
  match ls with
  | [] => ([], [], AUndefined)
  | f :: ls' =>
      match out f with
      | Returns _ => let '(c, r, a) := deliver cfg e out ls' in (f :: c, r, a)
      | Throws err =>
          if strict cfg then
            ([f], from_option (λ x, [x]) [] (report cfg e out f), AThrew err)
          else let '(c, r, a) := deliver cfg e out ls' in
               (f :: c, from_option (λ x, [x]) [] (report cfg e out f) ++ r, a)
      end
  end.

(** What becomes of the promise made for a listener in [emitAsync]. *)
Definition completion_of (o : outcome) : completion :=
  match o with
  | Returns Plain => Fulfils
  | Returns (Deferred None) => Fulfils
  | Returns (Deferred (Some err)) => RejectsLater err
  | Throws err => RejectsInExecutor err
  end.

(** How often [f] was called. *)
Definition fired (f : fn) (log : list (fn * list nat)) : nat :=
  length (filter (λ c, c.1 = f) log).

(** The arrow [Adapter h f] is in no [Set], its handle exists, and it was
    called [k] times. *)
Record gone (h : nat) (f : fn) (k : nat) (s : state) : Prop := Gone {
  gone_flat : ∀ a g, g ∈ elements (set_at a s) → flat g;
  gone_absent : ∀ a, Adapter h f ∉ elements (set_at a s);
  gone_handle : h < length (handles s);
  gone_fired : fired (Adapter h f) (calls_log s) = k }.

(** The [Set] object at [a] holds [l] and is the [Set] of no event. *)
Definition dead (a : nat) (l : list (option fn)) (s : state) : Prop :=
  sets s !! a = Some l ∧ ∀ e, map s !! e ≠ Some a.

(** Client code that never calls [emitAsync]. *)
Inductive sync : prog → Prop :=
  | sync_ret o : sync (Ret o)
  | sync_do c k :
      (∀ e args, c ≠ CEmitAsync e args) → (∀ a, sync (k a)) → sync (Do c k).

(** [rec] keeps [P] when it runs client code that never calls [emitAsync]. *)
Definition preserves_sync (P : state → Prop)
    (rec : prog → state → option (state * outcome)) : Prop :=
  ∀ p s s' o, sync p → P s → rec p s = Some (s', o) → P s'.

(** The arrow [Adapter h f] was never called while its handle does not
    exist or while it is in a [Set], and was called at most once. *)
Record once_ok (h : nat) (f : fn) (s : state) : Prop := OnceOk {
  once_unborn : length (handles s) ≤ h → fired (Adapter h f) (calls_log s) = 0;
  once_pending : ∀ a, Adapter h f ∈ elements (set_at a s) →
                   fired (Adapter h f) (calls_log s) = 0;
  once_most : fired (Adapter h f) (calls_log s) ≤ 1 }.


(** ** Hooks, [once] registrations, [Set] entries and hosts *)

(** Every unused handle made by [once] has its arrow registered under its
    event. *)
Definition pending (s : state) : Prop :=
  ∀ h e f, handles s !! h = Some (Handle e (Adapter h f) true) →
    Adapter h f ∈ listeners e s.

(** A call of the trace hook as the closures make it: the host first, then
    the tag with the payload that goes with it, through the hook that the
    closure picks. *)
Definition trace_ok (cfg : config) (tc : trace_call) : Prop :=
  tc_object tc = object cfg
  ∧ match tc_payload tc with
    | PSubscription _ _ =>
        (tc_action tc = "on"
         ∧ tc_hook tc = or_hook (trace cfg) (g_trace (globalOptions cfg)))
        ∨ (tc_action tc = "off"
           ∧ tc_hook tc = or_hook (trace cfg) (g_trace (eventful_options cfg)))
    | PEmission _ _ _ =>
        (tc_action tc = "emit" ∨ tc_action tc = "emitAsync")
        ∧ tc_hook tc = or_hook (trace cfg) (g_trace (globalOptions cfg))
    end.

(** A call of the error hook as the closures make it. *)
Definition error_ok (cfg : config) (ec : error_call) : Prop :=
  ec_hook ec = or_hook (error cfg) (g_error (globalOptions cfg))
  ∧ ctx_object (ec_context ec) = object cfg.

(** Every call of a hook so far was made as the closures make it. *)
Definition hooked (cfg : config) (s : state) : Prop :=
  Forall (trace_ok cfg) (trace_log s) ∧ Forall (error_ok cfg) (error_log s).

(** The client function behind a listener: [f] for the arrow that
    [once(e, f)] made, the listener itself otherwise. *)
Definition inner (g : fn) : fn :=
  match g with Adapter _ f => f | User _ => g end.

Definition is_once (g : fn) : bool :=
  match g with Adapter _ _ => true | User _ => false end.

(** The functions that a call of listener [g] calls, when the client
    function behind it does not call the emitter. *)
Definition calls_of (g : fn) : list fn :=
  match g with Adapter _ f => [g; f] | User _ => [g] end.

(** The client function behind [g] returns or throws ([out]) without
    calling the emitter. *)
Definition calm (cfg : config) (args : list nat) (out : fn → outcome) (g : fn)
  : Prop :=
  quiet cfg args out (inner g).

(** The call of the error hook that listener [g] causes, if the client
    function behind it throws. *)
Definition report_of (cfg : config) (e : event) (out : fn → outcome) (g : fn)
  : option error_call :=
  match out (inner g) with
  | Throws err =>
      Some (ErrorCall (or_hook (error cfg) (g_error (globalOptions cfg))) err
              (Context (object cfg) e g))
  | Returns _ => None
  end.

(** The state after the loop of [emit] has called listener [g], when the
    client function behind [g] does not call the emitter: the call is logged;
    an arrow of [once] calls its handle and then its client function; the
    error hook is called if the client function throws. *)
Definition calm_call (cfg : config) (e : event) (args : list nat)
    (out : fn → outcome) (g : fn) (s : state) : state :=
  let s1 :=
    match g with
    | User _ => log_call g args s
    | Adapter h f => log_call f args (unsubscribe h (log_call g args s)).1
    end in
  match out (inner g) with
  | Returns _ => s1
  | Throws err => call_error cfg err (Context (object cfg) e g) s1
  end.

(** The same for the listeners [ls], one after the other. *)
Definition calm_calls (cfg : config) (e : event) (args : list nat)
    (out : fn → outcome) (ls : list fn) (s : state) : state :=
  foldl (λ s g, calm_call cfg e args out g s) s ls.

(** The entries of a [Set] object after [delete] of each of [gs]. *)
Definition holes (gs : list fn) (l : list (option fn)) : list (option fn) :=
  (λ x, match x with
        | Some g => if decide (g ∈ gs) then None else Some g
        | None => None
        end) <$> l.

(** The [Set] object at [a] is the one [map] has for [e], or it is empty
    and [map] has none for [e]. *)
Definition linked (e : event) (a : nat) (s : state) : Prop :=
  map s !! e = Some a ∨ (map s !! e = None ∧ elements (set_at a s) = []).

(** [() => { o.off(e, f); o.on(e, f); }], the body of a client function
    [f = User id] that subscribes itself anew. *)
Definition resubscribe (e : event) (id : nat) : prog :=
  Do (COff e (VFunction id)) (λ _,
  Do (COn e (VFunction id)) (λ _, Ret (Returns Plain))).

(** While [emit] iterates the [Set] object at [a], at entry [i]: the [Set]
    is the one of [e]; client function [id], which subscribes itself anew,
    is at entry [j], not yet reached; client function [idg] is a listener as
    well; every other listener is one of [others]. *)
Record resub_inv (e : event) (a id idg : nat) (others : list fn)
    (i j : nat) (s : state) : Prop := ResubInv {
  ri_inv : inv s;
  ri_map : map s !! e = Some a;
  ri_le : i ≤ j;
  ri_at : set_at a s !! j = Some (Some (User id));
  ri_other : User idg ∈ elements (set_at a s);
  ri_sub : ∀ g, g ∈ elements (set_at a s) → g = User id ∨ g ∈ others }.

(** [() => { o.on(e, g); }], the body of a client function that subscribes
    client function [idg]. *)
Definition subscribes (e : event) (idg : nat) : prog :=
  Do (COn e (VFunction idg)) (λ _, Ret (Returns Plain)).

(** [() => { o.off(e, g); }] *)
Definition unsubscribes (e : event) (idg : nat) : prog :=
  Do (COff e (VFunction idg)) (λ _, Ret (Returns Plain)).

(** What becomes of the promise that [emitAsync] makes for listener [g],
    when the client function behind [g] does not call the emitter.  The
    arrow of [once] has a block body: it returns [undefined] whatever its
    client function returns, so a promise returned by that function is
    dropped. *)
Definition completion_via (out : fn → outcome) (g : fn) : completion :=
  match g with
  | User _ => completion_of (out g)
  | Adapter _ f =>
      match out f with
      | Returns _ => Fulfils
      | Throws err => RejectsInExecutor err
      end
  end.

(** [() => { o.emit(e2, ...args2); }], the body of a client function that
    emits another event.  It does not catch what [emit] throws. *)
Definition forwards (e2 : event) (args2 : list nat) : prog :=
  Do (CEmit e2 args2)
     (λ r, Ret (match r with
                | AThrew err => Throws err
                | _ => Returns Plain
                end)).

#[global] Instance capability_eq_dec : EqDecision Host.capability.
Proof. solve_decision. Defined.

(** [Object.defineProperties] can define [c] on [o]: an own property of that
    name is configurable, or there is none and [o] is extensible. *)
Definition can_define (c : Host.capability) (o : Host.obj) : Prop :=
  match Host.own o !! Host.name c with
  | Some p => Host.configurable p = true
  | None => Host.extensible o = true
  end.

(** The hosts that [eventful] accepts: none of the five names it looks for
    is present, properties can be added, and an own [emitAsync], which it
    does not look for, can be redefined. *)
Definition attachable (o : Host.obj) : Prop :=
  (∀ c, c ∈ Host.checked → Host.has_property (Host.name c) o = false)
  ∧ Host.extensible o = true
  ∧ ∀ p, Host.own o !! "emitAsync" = Some p → Host.configurable p = true.

(** [Object.create(null)] *)
Definition bare : Host.obj :=
  {| Host.own := ∅; Host.inherited := ∅; Host.extensible := true |}.


(** * Scenarios *)

Module Scenario.

Definition test : event := EString "test".
Definition gh : hooks := Hooks 0 0.

(** Three listeners, the second of which throws. *)
Definition body3 (id : nat) (_ : list (fn * list nat)) (_ : list nat) : prog :=
  match id with
  | 2 => Ret (Throws (Thrown 7))
  | _ => Ret (Returns Plain)
  end.

(** Client function 1 emits [test] again; client function 2 returns. *)
Definition body_nested (id : nat) (_ : list (fn * list nat)) (_ : list nat) : prog :=
  match id with
  | 1 => Do (CEmit test []) (λ _, Ret (Returns Plain))
  | _ => Ret (Returns Plain)
  end.

Definition prog_nested : prog :=
  Do (COnce test (VFunction 1)) (λ _,
  Do (COnce test (VFunction 2)) (λ _,
  Do (CEmitAsync test []) (λ _, Ret (Returns Plain)))).

Definition prog_nested_sync : prog :=
  Do (COnce test (VFunction 1)) (λ _,
  Do (COnce test (VFunction 2)) (λ _,
  Do (CEmit test []) (λ _, Ret (Returns Plain)))).

End Scenario.

Module Scenario4.
Import Scenario.

Definition cfg : config :=
  {| object := 0; strict := false; trace := None; error := None;
     globalOptions := gh; eventful_options := gh; body := body3 |}.

(** Subscribe two listeners, remove both: the entry is gone again. *)
Definition p : prog :=
  Do (COn test (VFunction 1)) (λ a,
  Do (COnce test (VFunction 3)) (λ _,
  Do (CEmit test []) (λ _,
  Do (COff test (VFunction 1)) (λ _, Ret (Returns Plain))))).

End Scenario4.

Module Scenario3.
Import Scenario.

Definition strict_cfg : config :=
  {| object := 0; strict := true; trace := None; error := None;
     globalOptions := gh; eventful_options := gh; body := body3 |}.

Definition out3 (f : fn) : outcome :=
  match f with
  | User 2 => Throws (Thrown 7)
  | _ => Returns Plain
  end.

(** L1, L2 (throws), L3 registered on ["test"] in that order. *)
Definition s3 : state :=
  (on Scenario4.cfg test (JFn (User 3))
     (on Scenario4.cfg test (JFn (User 2))
        (on Scenario4.cfg test (JFn (User 1)) initial).1).1).1.

End Scenario3.

Module Scenario5.
Import Scenario.

(** After the handle was used, the client subscribes function 1 again. *)
Definition again : prog :=
  Do (COn test (VFunction 1)) (λ _, Ret (Returns Plain)).

Definition s0 : state :=
  (on Scenario4.cfg test (JFn (User 2))
     (on Scenario4.cfg test (JFn (User 1)) initial).1).1.

Definition s2 : state :=
  (on Scenario4.cfg test (JFn (User 1)) (unsubscribe 0 s0).1).1.

End Scenario5.

Module Scenario10.
Import Scenario.

(** [once("test", L2)], where L2 throws. *)
Definition s0 : state := (once Scenario3.strict_cfg test (JFn (User 2)) initial).1.

End Scenario10.

Module Scenario2.

(** [{ emitAsync: () => {} }] *)
Definition host : Host.obj :=
  {| Host.own := {[ "emitAsync" := Host.Property (Host.Foreign 0) true true true ]};
     Host.inherited := ∅;
     Host.extensible := true |}.

(** [Object.defineProperty({}, 'emitAsync', { value: 0 })]: an own
    [emitAsync] that is not configurable. *)
Definition sealed : Host.obj :=
  {| Host.own := {[ "emitAsync" := Host.Property (Host.Foreign 0) false false false ]};
     Host.inherited := ∅;
     Host.extensible := true |}.

End Scenario2.

Module Scenario1.
Import Scenario.

(** Function 1 is [async () => { throw ... }]; function 2 throws. *)
Definition body1 (id : nat) (_ : list (fn * list nat)) (_ : list nat) : prog :=
  match id with
  | 1 => Ret (Returns (Deferred (Some (Thrown 9))))
  | 2 => Ret (Throws (Thrown 7))
  | _ => Ret (Returns Plain)
  end.

Definition cfg : config :=
  {| object := 0; strict := false; trace := None; error := None;
     globalOptions := gh; eventful_options := gh; body := body1 |}.

Definition s_async : state := (on cfg test (JFn (User 1)) initial).1.
Definition s_sync : state := (on cfg test (JFn (User 2)) initial).1.

End Scenario1.

Module Scenario7.
Import Scenario.

Definition cfg : config :=
  {| object := 0; strict := false; trace := None; error := None;
     globalOptions := gh; eventful_options := gh; body := body_nested |}.

End Scenario7.

Module Scenario11.
Import Scenario.

(** Client function 2 throws, 5 subscribes itself anew, 6 subscribes
    function 8, 7 unsubscribes function 8; the others return. *)
Definition body11 (id : nat) (_ : list (fn * list nat)) (_ : list nat) : prog :=
  match id with
  | 2 => Ret (Throws (Thrown 7))
  | 5 => resubscribe test 5
  | 6 => subscribes test 8
  | 7 => unsubscribes test 8
  | _ => Ret (Returns Plain)
  end.

(** An emitter with hooks of its own. *)
Definition cfg : config :=
  {| object := 0; strict := false; trace := Some 4; error := Some 5;
     globalOptions := gh; eventful_options := gh; body := body11 |}.

(** [on(L1); once(L3); on(L2)] *)
Definition mixed : state :=
  (on cfg test (JFn (User 2))
     (once cfg test (JFn (User 3))
        (on cfg test (JFn (User 1)) initial).1).1).1.

(** [on(L1); on(L5)] *)
Definition looping : state :=
  (on cfg test (JFn (User 5)) (on cfg test (JFn (User 1)) initial).1).1.

(** [on(L5)] *)
Definition alone : state := (on cfg test (JFn (User 5)) initial).1.

(** [on(L1); on(L6); on(L3)] *)
Definition adding : state :=
  (on cfg test (JFn (User 3))
     (on cfg test (JFn (User 6))
        (on cfg test (JFn (User 1)) initial).1).1).1.

(** [on(L1); on(L7); on(L8); on(L3)] *)
Definition removing : state :=
  (on cfg test (JFn (User 3))
     (on cfg test (JFn (User 8))
        (on cfg test (JFn (User 7))
           (on cfg test (JFn (User 1)) initial).1).1).1).1.

(** [h0 = on(L1); h1 = on(L1); h1()] *)
Definition two_handles : state :=
  (unsubscribe 1
     (on cfg test (JFn (User 1)) (on cfg test (JFn (User 1)) initial).1).1).1.

End Scenario11.

Module Scenario12.
Import Scenario.

Definition other : event := EString "other".

(** Client function 2 throws, 4 returns a promise that rejects, 9 emits
    [other]; the others return. *)
Definition body12 (id : nat) (_ : list (fn * list nat)) (_ : list nat) : prog :=
  match id with
  | 2 => Ret (Throws (Thrown 7))
  | 4 => Ret (Returns (Deferred (Some (Thrown 9))))
  | 9 => forwards other [7]
  | _ => Ret (Returns Plain)
  end.

Definition out12 (f : fn) : outcome :=
  match f with
  | User 2 => Throws (Thrown 7)
  | User 4 => Returns (Deferred (Some (Thrown 9)))
  | _ => Returns Plain
  end.

Definition loose : config :=
  {| object := 0; strict := false; trace := None; error := None;
     globalOptions := gh; eventful_options := gh; body := body12 |}.

Definition cfg : config :=
  {| object := 0; strict := true; trace := None; error := None;
     globalOptions := gh; eventful_options := gh; body := body12 |}.

(** [on(L1); once(L4)] *)
Definition waiting : state :=
  (once cfg test (JFn (User 4)) (on cfg test (JFn (User 1)) initial).1).1.

(** [on(test, L1); on(test, L9); on(test, L3); on(other, L2); on(other, L3)] *)
Definition chained : state :=
  (on cfg other (JFn (User 3))
     (on cfg other (JFn (User 2))
        (on cfg test (JFn (User 3))
           (on cfg test (JFn (User 9))
              (on cfg test (JFn (User 1)) initial).1).1).1).1).1.

(** [on(L1); once(L2); on(L3)], where L2 throws *)
Definition guarded : state :=
  (on cfg test (JFn (User 3))
     (once cfg test (JFn (User 2))
        (on cfg test (JFn (User 1)) initial).1).1).1.

End Scenario12.

(** * Lemmas and theorems *)

Example add_twice :
  listeners (EString "a") (add (EString "a") (User 1) (add (EString "a") (User 1) initial))
  = [User 1].
Proof. vm_compute. reflexivity. Qed.

Lemma quiet3 cfg f :
  body cfg = Scenario.body3 → f ∈ listeners Scenario.test Scenario3.s3 →
  quiet cfg [42] Scenario3.out3 f.
Proof.
  intros Hb Hf. vm_compute in Hf.
  apply list_elem_of_In in Hf. simpl in Hf.
  destruct Hf as [<-|[<-|[<-|[]]]]; eexists; (split; [reflexivity|]);
    intros hist; by rewrite Hb.
Qed.

(** ** [Set] objects: entries, holes and live elements *)

Lemma elem_of_elements (f : fn) (l : list (option fn)) :
  f ∈ elements l ↔ Some f ∈ l.
Proof.
  unfold elements. rewrite list_elem_of_omap. split.
  - intros (x & Hx & Hid). simpl in Hid. by subst.
  - intros H. by exists (Some f).
Qed.

Lemma elements_cons_Some (f : fn) (l : list (option fn)) :
  elements (Some f :: l) = f :: elements l.
Proof. done. Qed.

Lemma elements_cons_None (l : list (option fn)) :
  elements (None :: l) = elements l.
Proof. done. Qed.

Lemma elements_app (l1 l2 : list (option fn)) :
  elements (l1 ++ l2) = elements l1 ++ elements l2.
Proof. unfold elements. apply omap_app. Qed.

Lemma elements_set_add (f : fn) (l : list (option fn)) :
  elements (set_add f l)
  = if decide (f ∈ elements l) then elements l else elements l ++ [f].
Proof.
  unfold set_add. case_decide; [done|]. by rewrite elements_app.
Qed.

Lemma elements_set_delete (f : fn) (l : list (option fn)) :
  elements (set_delete f l) = filter (λ g, g ≠ f) (elements l).
Proof.
  unfold set_delete, elements. induction l as [|[g|] l IH]; simpl; [done| |done].
  case_decide as Hg.
  - simplify_eq. simpl. rewrite filter_cons_False by naive_solver. done.
  - simpl. rewrite filter_cons_True by congruence. by f_equal.
Qed.

Lemma elem_of_set_delete (f g : fn) (l : list (option fn)) :
  g ∈ elements (set_delete f l) ↔ g ∈ elements l ∧ g ≠ f.
Proof. rewrite elements_set_delete, list_elem_of_filter. tauto. Qed.

Lemma length_set_delete (f : fn) (l : list (option fn)) :
  length (set_delete f l) = length l.
Proof. unfold set_delete. apply length_fmap. Qed.

Lemma size_pos_elem (l : list (option fn)) :
  0 < size l ↔ ∃ f, f ∈ elements l.
Proof.
  unfold size. destruct (elements l) as [|f fs]; simpl; split.
  - lia.
  - intros [f Hf]. by apply elem_of_nil in Hf.
  - intros _. exists f. left.
  - lia.
Qed.

Lemma size_zero_elements (l : list (option fn)) :
  size l = 0 ↔ elements l = [].
Proof. unfold size. split; [apply nil_length_inv | by intros ->]. Qed.

Lemma lookup_elements (l : list (option fn)) (i : nat) (f : fn) :
  l !! i = Some (Some f) → f ∈ elements l.
Proof.
  intros H. apply elem_of_elements. apply list_elem_of_lookup. eauto.
Qed.

(** ** The heap of [Set] objects *)

Lemma set_at_with_map (a : nat) (s : state) (m : gmap event nat) :
  set_at a (with_map s m) = set_at a s.
Proof. done. Qed.

Lemma set_at_with_handles (a : nat) (s : state) (hs : list handle) :
  set_at a (with_handles s hs) = set_at a s.
Proof. done. Qed.

Lemma set_at_insert (a b : nat) (l : list (option fn)) (s : state) :
  a < length (sets s) →
  set_at b (with_sets s (<[a := l]> (sets s)))
  = if decide (b = a) then l else set_at b s.
Proof.
  intros Ha. unfold set_at. simpl. case_decide as Hb.
  - subst. by rewrite list_lookup_insert_eq.
  - by rewrite list_lookup_insert_ne.
Qed.

Lemma set_at_insert_ge (a b : nat) (l : list (option fn)) (s : state) :
  length (sets s) ≤ a →
  set_at b (with_sets s (<[a := l]> (sets s))) = set_at b s.
Proof. intros Ha. unfold set_at. simpl. by rewrite list_insert_ge. Qed.

Lemma set_at_alloc (b : nat) (l : list (option fn)) (s : state) :
  set_at b (with_sets s (sets s ++ [l]))
  = if decide (b = length (sets s)) then l else set_at b s.
Proof.
  unfold set_at. simpl. case_decide as Hb.
  - subst. by rewrite list_lookup_middle.
  - destruct (decide (b < length (sets s))).
    + by rewrite lookup_app_l.
    + rewrite !lookup_ge_None_2; [done| lia |rewrite length_app; simpl; lia].
Qed.

Lemma set_at_ge (a : nat) (s : state) :
  length (sets s) ≤ a → set_at a s = [].
Proof. intros H. unfold set_at. by rewrite lookup_ge_None_2. Qed.

Lemma reg_ok_initial : reg_ok initial.
Proof.
  split.
  - done.
  - intros e a H. cbn in H. by rewrite lookup_empty in H.
  - intros e1 e2 a H. cbn in H. by rewrite lookup_empty in H.
  - intros [|[|a]]; cbn; constructor.
Qed.

Lemma reg_ok_entry_nonzero (s : state) (e : event) (a : nat) :
  reg_ok s → map s !! e = Some a → a ≠ emptySet.
Proof.
  intros Hok He ->. destruct (ok_entry s Hok e _ He) as [_ Hsz].
  unfold set_at in Hsz. rewrite (ok_empty s Hok) in Hsz. cbn in Hsz. lia.
Qed.

Lemma NoDup_elements_set_add (f : fn) (l : list (option fn)) :
  NoDup (elements l) → NoDup (elements (set_add f l)).
Proof.
  intros H. rewrite elements_set_add. case_decide; [done|].
  apply NoDup_app. split_and!; [done| |apply NoDup_singleton].
  intros x Hx Hx'. apply list_elem_of_singleton in Hx'. by subst.
Qed.

Lemma size_set_add (f : fn) (l : list (option fn)) :
  0 < size (set_add f l).
Proof.
  apply size_pos_elem. exists f. rewrite elements_set_add.
  case_decide; [done|]. apply elem_of_app. right. left.
Qed.

Lemma reg_ok_add (e : event) (f : fn) (s : state) :
  reg_ok s → reg_ok (add e f s).
Proof.
  intros Hok. unfold add. destruct (map s !! e) as [a|] eqn:He.
  - destruct (ok_entry s Hok e a He) as [Ha Hsz].
    pose proof (reg_ok_entry_nonzero s e a Hok He) as Hnz.
    split.
    + simpl. rewrite list_lookup_insert_ne by done. apply (ok_empty s Hok).
    + intros e' a' He'. simpl in He'.
      destruct (ok_entry s Hok e' a' He') as [Ha' Hsz'].
      split; [simpl; by rewrite length_insert|].
      rewrite set_at_insert by done. case_decide; [apply size_set_add|done].
    + simpl. apply (ok_inj s Hok).
    + intros b. rewrite set_at_insert by done. case_decide.
      * apply NoDup_elements_set_add, (ok_nodup s Hok).
      * apply (ok_nodup s Hok).
  - assert (0 < length (sets s)) as Hlen.
    { eapply lookup_lt_Some, (ok_empty s Hok). }
    split.
    + simpl. rewrite lookup_app_l by done. apply (ok_empty s Hok).
    + intros e' a' He'. simpl in He'. rewrite set_at_with_map, set_at_alloc.
      simpl. rewrite length_app. simpl.
      destruct (decide (e = e')) as [->|Hne].
      * rewrite lookup_insert_eq in He'. simplify_eq.
        rewrite decide_True by done. split; [lia|apply size_set_add].
      * rewrite lookup_insert_ne in He' by done.
        destruct (ok_entry s Hok e' a' He') as [Ha' Hsz'].
        rewrite decide_False by lia. split; [lia|done].
    + intros e1 e2 a H1 H2. simpl in H1, H2.
      destruct (decide (e = e1)) as [E1|Hne1], (decide (e = e2)) as [E2|Hne2];
        [congruence| | |]; subst.
      * rewrite lookup_insert_eq in H1. rewrite lookup_insert_ne in H2 by done.
        simplify_eq. destruct (ok_entry s Hok e2 _ H2). lia.
      * rewrite lookup_insert_eq in H2. rewrite lookup_insert_ne in H1 by done.
        simplify_eq. destruct (ok_entry s Hok e1 _ H1). lia.
      * rewrite lookup_insert_ne in H1, H2 by done. eapply (ok_inj s Hok); eauto.
    + intros b. rewrite set_at_with_map, set_at_alloc. case_decide.
      * apply NoDup_elements_set_add. constructor.
      * apply (ok_nodup s Hok).
Qed.

Lemma NoDup_elements_set_delete (f : fn) (l : list (option fn)) :
  NoDup (elements l) → NoDup (elements (set_delete f l)).
Proof. intros H. rewrite elements_set_delete. by apply NoDup_filter. Qed.

Lemma reg_ok_remove (e : event) (f : fn) (s : state) :
  reg_ok s → reg_ok (remove e f s).1.
Proof.
  intros Hok. unfold remove. destruct (map s !! e) as [a|] eqn:He; [|done].
  destruct (ok_entry s Hok e a He) as [Ha Hsz].
  pose proof (reg_ok_entry_nonzero s e a Hok He) as Hnz.
  assert (∀ b, NoDup (elements (set_at b
            (with_sets s (<[a:=set_delete f (set_at a s)]> (sets s)))))) as Hnd.
  { intros b. rewrite set_at_insert by done. case_decide.
    - apply NoDup_elements_set_delete, (ok_nodup s Hok).
    - apply (ok_nodup s Hok). }
  destruct (size (set_delete f (set_at a s)) =? 0) eqn:Hz; simpl.
  - split.
    + simpl. rewrite list_lookup_insert_ne by done. apply (ok_empty s Hok).
    + intros e' a' He'. simpl in He'.
      apply lookup_delete_Some in He' as [Hne He'].
      destruct (ok_entry s Hok e' a' He') as [Ha' Hsz'].
      split; [simpl; by rewrite length_insert|].
      rewrite set_at_with_map, set_at_insert by done.
      rewrite decide_False; [done|].
      intros ->. apply Hne. eapply (ok_inj s Hok); eauto.
    + intros e1 e2 b H1 H2. simpl in H1, H2.
      apply lookup_delete_Some in H1 as [_ H1].
      apply lookup_delete_Some in H2 as [_ H2].
      eapply (ok_inj s Hok); eauto.
    + intros b. rewrite set_at_with_map. apply Hnd.
  - apply Nat.eqb_neq in Hz. split.
    + simpl. rewrite list_lookup_insert_ne by done. apply (ok_empty s Hok).
    + intros e' a' He'. simpl in He'.
      destruct (ok_entry s Hok e' a' He') as [Ha' Hsz'].
      split; [simpl; by rewrite length_insert|].
      rewrite set_at_insert by done. case_decide; [lia|done].
    + simpl. apply (ok_inj s Hok).
    + apply Hnd.
Qed.

(** ** Preservation of a state property by every closure and by client code *)

Section Preservation.

Context (cfg : config).

Local Abbreviation on := (on cfg).
Local Abbreviation once := (once cfg).
Local Abbreviation off := (off cfg).
Local Abbreviation apply := (apply cfg).
Local Abbreviation emit_loop := (emit_loop cfg).
Local Abbreviation emit := (emit cfg).
Local Abbreviation emitAsync_map := (emitAsync_map cfg).
Local Abbreviation emitAsync := (emitAsync cfg).
Local Abbreviation exec := (exec cfg).
Local Abbreviation run := (run cfg).

(** [P] is the property of states, [Q] what it says of the functions that
    are called as listeners. *)
Variable P : state → Prop.
Variable Q : fn → Prop.

Hypothesis Q_inner : ∀ h g, Q (Adapter h g) → Q g.
Hypothesis P_live : ∀ s a g, P s → g ∈ elements (set_at a s) → Q g.
Hypothesis P_trace : ∀ s h act p, P s → P (call_trace cfg h act p s).
Hypothesis P_error :
  ∀ s err c, P s → P (call_error cfg err c s).
Hypothesis P_log : ∀ s g args, P s → Q g → P (log_call g args s).
Hypothesis P_on : ∀ s e id, P s → P (on e (JFn (User id)) s).1.
Hypothesis P_once : ∀ s e id, P s → P (once e (JFn (User id)) s).1.
Hypothesis P_off : ∀ s e id, P s → P (off e (JFn (User id)) s).1.
Hypothesis P_unsubscribe : ∀ s h, P s → P (unsubscribe h s).1.

Lemma apply_preserves rec f args s s' o :
  preserves P rec → P s → Q f → apply rec f args s = Some (s', o) → P s'.
Proof using Q_inner P_log P_unsubscribe.
  intros Hrec. revert s s' o.
  induction f as [id|h g IH]; intros s s' o HP HQ Happ; simpl in Happ.
  - unfold apply_user in Happ. eapply Hrec; [|done]. by apply P_log.
  - destruct (unsubscribe h (log_call (Adapter h g) args s)) as [s1 b] eqn:Hu.
    assert (P s1) as HP1.
    { change s1 with (s1, b).1. rewrite <-Hu.
      apply P_unsubscribe. by apply P_log. }
    destruct (apply rec g args s1) as [[s2 [r|err]]|] eqn:Hg; simplify_eq.
    + eapply IH; eauto.
    + eapply IH; eauto.
Qed.

Lemma emit_loop_preserves rec fuel a i e args s s' r :
  preserves P rec → P s → emit_loop rec fuel a i e args s = Some (s', r) → P s'.
Proof using Q_inner P_live P_error P_log P_unsubscribe.
  intros Hrec. revert i s s' r.
  induction fuel as [|fuel IH]; intros i s s' r HP Hloop; simpl in Hloop;
    [done|].
  destruct (set_at a s !! i) as [[g|]|] eqn:Hi; simplify_eq; [|by eauto|done].
  assert (Q g) as HQ by eauto using lookup_elements.
  destruct (apply rec g args s) as [[s1 [v|err]]|] eqn:Hg; [| |done].
  - eapply IH; [|done]. eapply apply_preserves; eauto.
  - assert (P s1) as HP1 by (eapply apply_preserves; eauto).
    destruct strict; simplify_eq; eauto.
Qed.

Lemma emit_preserves rec fuel e args s s' r :
  preserves P rec → P s → emit rec fuel e args s = Some (s', r) → P s'.
Proof using Q_inner P_live P_trace P_error P_log P_unsubscribe.
  intros Hrec HP. unfold emit.
  destruct (size _ =? 0).
  - intros [= <- <-]. by apply P_trace.
  - apply emit_loop_preserves; [done|]. by apply P_trace.
Qed.

Lemma settle_preserves e g o s :
  P s → P (settle cfg e g o s).1.
Proof using P_error.
  intros HP. destruct o as [[|[err|]]|err]; simpl; auto.
Qed.

Lemma emitAsync_map_preserves rec ls e args s s' cs :
  preserves P rec → Forall Q ls → P s →
  emitAsync_map rec ls e args s = Some (s', cs) → P s'.
Proof using Q_inner P_error P_log P_unsubscribe.
  intros Hrec HQ. revert s s' cs.
  induction HQ as [|g ls Hg Hls IH]; intros s s' cs HP Hmap; simpl in Hmap.
  - by simplify_eq.
  - destruct (apply rec g args s) as [[s1 o]|] eqn:Happ; [|done].
    pose proof (settle_preserves e g o s1) as Hs.
    destruct (settle cfg e g o s1) as [s2 c].
    destruct (emitAsync_map rec ls e args s2) as [[s3 cs']|] eqn:Hrest;
      simplify_eq.
    eapply IH; [|done]. apply Hs. eapply apply_preserves; eauto.
Qed.

Lemma emitAsync_preserves rec e args s s' r :
  preserves P rec → P s → emitAsync rec e args s = Some (s', r) → P s'.
Proof using Q_inner P_live P_trace P_error P_log P_unsubscribe.
  intros Hrec HP. unfold emitAsync.
  set (s1 := call_trace _ _ _ _ s). assert (P s1) as HP1 by by apply P_trace.
  destruct (size _ =? 0); [by intros [= <- <-]|].
  destruct (emitAsync_map _ _ _ _ _) as [[s2 cs]|] eqn:Hmap; [|done].
  intros [= <- <-]. eapply emitAsync_map_preserves; [done| |done|done].
  apply Forall_forall. intros g Hg. eauto.
Qed.

Lemma exec_preserves rec fuel c s s' r :
  preserves P rec → P s → exec rec fuel c s = Some (s', r) → P s'.
Proof using All.
  intros Hrec HP. destruct c as [e v|e v|e v|e|e args|e args|h]; simpl.
  - intros [= Hon]. destruct v; [|by injection Hon as <- _].
    replace s' with (on e (JFn (User id)) s).1 by exact (f_equal fst Hon).
    by apply P_on.
  - intros [= Hon]. destruct v; [|by injection Hon as <- _].
    replace s' with (once e (JFn (User id)) s).1 by exact (f_equal fst Hon).
    by apply P_once.
  - intros [= Hoff]. destruct v; [|by injection Hoff as <- _].
    replace s' with (off e (JFn (User id)) s).1 by exact (f_equal fst Hoff).
    by apply P_off.
  - by intros [= <- <-].
  - by apply emit_preserves.
  - by apply emitAsync_preserves.
  - destruct (unsubscribe h s) as [s1 b] eqn:Hu. intros [= <- <-].
    replace s1 with (unsubscribe h s).1 by by rewrite Hu.
    by apply P_unsubscribe.
Qed.

Theorem run_preserves n : preserves P (run n).
Proof using All.
  induction n as [|n IH]; intros p s s' o HP Hrun; simpl in Hrun; [done|].
  destruct p as [o'|c k]; [by simplify_eq|].
  destruct (exec (run n) n c s) as [[s1 a]|] eqn:Hexec; [|done].
  eapply IH; [|done]. eapply exec_preserves; eauto.
Qed.

End Preservation.

(** ** What [add] and [remove] do to the listeners of each event *)

Lemma listeners_entry (e : event) (a : nat) (s : state) :
  map s !! e = Some a → listeners e s = elements (set_at a s).
Proof. intros He. unfold listeners, getListeners. by rewrite He. Qed.

Lemma listeners_no_entry (e : event) (s : state) :
  reg_ok s → map s !! e = None → listeners e s = [].
Proof.
  intros Hok He. unfold listeners, getListeners, set_at.
  rewrite He. simpl. by rewrite (ok_empty s Hok).
Qed.

Lemma has_listeners (e : event) (s : state) :
  reg_ok s → has e s = true ↔ listeners e s ≠ [].
Proof.
  intros Hok. unfold has. destruct (map s !! e) as [a|] eqn:He.
  - rewrite (listeners_entry e a s He), Nat.ltb_lt.
    rewrite <-size_zero_elements. lia.
  - rewrite (listeners_no_entry e s Hok He). naive_solver.
Qed.

Lemma with_sets_id (s : state) : with_sets s (sets s) = s.
Proof. by destruct s. Qed.

Lemma add_listeners (e : event) (f : fn) (s : state) :
  reg_ok s →
  listeners e (add e f s)
  = if decide (f ∈ listeners e s) then listeners e s else listeners e s ++ [f].
Proof.
  intros Hok. unfold add. destruct (map s !! e) as [a|] eqn:He.
  - destruct (ok_entry s Hok e a He) as [Ha _].
    rewrite (listeners_entry e a s He).
    rewrite (listeners_entry e a _) by done.
    rewrite set_at_insert, decide_True by done. apply elements_set_add.
  - rewrite (listeners_no_entry e s Hok He).
    rewrite (listeners_entry e (length (sets s)) _)
      by (simpl; apply lookup_insert_eq).
    rewrite set_at_with_map, set_at_alloc, decide_True by done.
    by rewrite decide_False by apply not_elem_of_nil.
Qed.

Lemma add_listeners_ne (e e' : event) (f : fn) (s : state) :
  reg_ok s → e' ≠ e → listeners e' (add e f s) = listeners e' s.
Proof.
  intros Hok Hne. unfold add. destruct (map s !! e) as [a|] eqn:He.
  - destruct (ok_entry s Hok e a He) as [Ha _].
    unfold listeners at 1, getListeners. simpl.
    rewrite set_at_insert by done. rewrite decide_False; [done|].
    destruct (map s !! e') as [a'|] eqn:He'; simpl.
    + intros ->. apply Hne. eapply (ok_inj s Hok); eauto.
    + intros Hz. symmetry in Hz. by eapply reg_ok_entry_nonzero in Hz.
  - unfold listeners at 1, getListeners. simpl.
    rewrite lookup_insert_ne by done.
    rewrite set_at_with_map, set_at_alloc. rewrite decide_False; [done|].
    destruct (map s !! e') as [a'|] eqn:He'; simpl.
    + destruct (ok_entry s Hok e' a' He'). lia.
    + pose proof (lookup_lt_Some _ _ _ (ok_empty s Hok)). unfold emptySet in *. lia.
Qed.

Lemma add_idem (e : event) (f : fn) (s : state) :
  reg_ok s → f ∈ listeners e s → add e f s = s.
Proof.
  intros Hok Hf. unfold add. destruct (map s !! e) as [a|] eqn:He.
  - rewrite (listeners_entry e a s He) in Hf.
    unfold set_add. rewrite decide_True by done.
    destruct (ok_entry s Hok e a He) as [Ha _].
    rewrite list_insert_id; [apply with_sets_id|].
    unfold set_at. destruct (sets s !! a) eqn:Hs; [done|].
    apply lookup_ge_None in Hs. lia.
  - rewrite (listeners_no_entry e s Hok He) in Hf. by apply elem_of_nil in Hf.
Qed.

Lemma remove_result (e : event) (f : fn) (s : state) :
  reg_ok s → (remove e f s).2 = bool_decide (f ∈ listeners e s).
Proof.
  intros Hok. unfold remove. destruct (map s !! e) as [a|] eqn:He.
  - rewrite (listeners_entry e a s He). by destruct (size _ =? 0).
  - by rewrite (listeners_no_entry e s Hok He).
Qed.

Lemma remove_listeners (e : event) (f : fn) (s : state) :
  reg_ok s →
  listeners e (remove e f s).1 = filter (λ g, g ≠ f) (listeners e s).
Proof.
  intros Hok. unfold remove. destruct (map s !! e) as [a|] eqn:He.
  - destruct (ok_entry s Hok e a He) as [Ha _].
    rewrite (listeners_entry e a s He), <-elements_set_delete.
    destruct (size (set_delete f (set_at a s)) =? 0) eqn:Hz; simpl.
    + apply Nat.eqb_eq, size_zero_elements in Hz. rewrite Hz.
      unfold listeners, getListeners. simpl. rewrite lookup_delete_eq. simpl.
      rewrite set_at_with_map, set_at_insert by done.
      rewrite decide_False
        by (intros Hz'; symmetry in Hz'; by eapply reg_ok_entry_nonzero in Hz').
      unfold set_at. by rewrite (ok_empty s Hok).
    + rewrite (listeners_entry e a _) by done.
      by rewrite set_at_insert, decide_True.
  - simpl. by rewrite (listeners_no_entry e s Hok He).
Qed.

Lemma remove_listeners_ne (e e' : event) (f : fn) (s : state) :
  reg_ok s → e' ≠ e → listeners e' (remove e f s).1 = listeners e' s.
Proof.
  intros Hok Hne. unfold remove. destruct (map s !! e) as [a|] eqn:He; [|done].
  destruct (ok_entry s Hok e a He) as [Ha _].
  assert (getListeners e' s ≠ a) as Hother.
  { unfold getListeners. destruct (map s !! e') as [a'|] eqn:He'; simpl.
    - intros ->. apply Hne. eapply (ok_inj s Hok); eauto.
    - intros Hz. symmetry in Hz. by eapply reg_ok_entry_nonzero in Hz. }
  destruct (size (set_delete f (set_at a s)) =? 0); simpl.
  - unfold listeners, getListeners. simpl. rewrite lookup_delete_ne by done.
    rewrite set_at_with_map, set_at_insert by done. by rewrite decide_False.
  - unfold listeners at 1. unfold getListeners at 1. simpl.
    fold (getListeners e' s).
    rewrite set_at_insert by done. by rewrite decide_False.
Qed.

(** ** What [add] and [remove] do to each [Set] object *)

Lemma handles_add (e : event) (f : fn) (s : state) :
  handles (add e f s) = handles s.
Proof. unfold add. by destruct (map s !! e). Qed.

Lemma handles_remove (e : event) (f : fn) (s : state) :
  handles (remove e f s).1 = handles s.
Proof.
  unfold remove. destruct (map s !! e); [|done].
  by destruct (size _ =? 0).
Qed.

Lemma logs_add (e : event) (f : fn) (s : state) :
  trace_log (add e f s) = trace_log s ∧ error_log (add e f s) = error_log s
  ∧ calls_log (add e f s) = calls_log s.
Proof. unfold add. by destruct (map s !! e). Qed.

Lemma logs_remove (e : event) (f : fn) (s : state) :
  trace_log (remove e f s).1 = trace_log s
  ∧ error_log (remove e f s).1 = error_log s
  ∧ calls_log (remove e f s).1 = calls_log s.
Proof.
  unfold remove. destruct (map s !! e); [|done].
  by destruct (size _ =? 0).
Qed.

Lemma elem_of_add (e : event) (f g : fn) (b : nat) (s : state) :
  g ∈ elements (set_at b (add e f s)) →
  g ∈ elements (set_at b s) ∨ (g = f ∧ map (add e f s) !! e = Some b).
Proof.
  unfold add. destruct (map s !! e) as [a|] eqn:He.
  - destruct (decide (a < length (sets s))) as [Ha|Ha].
    + rewrite set_at_insert by done. case_decide as Hb; [|by left].
      subst b. rewrite elements_set_add. case_decide; [by left|].
      intros [Hg|Hg%list_elem_of_singleton]%elem_of_app; [by left|by right].
    + rewrite set_at_insert_ge by lia. by left.
  - rewrite set_at_with_map, set_at_alloc. case_decide as Hb; [|by left].
    subst b. simpl. intros Hg. right. split.
    + unfold set_add in Hg. simpl in Hg. by apply list_elem_of_singleton in Hg.
    + apply lookup_insert_eq.
Qed.

Lemma elem_of_add_old (e : event) (f g : fn) (b : nat) (s : state) :
  g ∈ elements (set_at b s) → g ∈ elements (set_at b (add e f s)).
Proof.
  intros Hg.
  assert (b < length (sets s)) as Hb.
  { destruct (decide (b < length (sets s))); [done|].
    rewrite set_at_ge in Hg by lia. by apply elem_of_nil in Hg. }
  unfold add. destruct (map s !! e) as [a|] eqn:He.
  - destruct (decide (a < length (sets s))) as [Ha|Ha].
    + rewrite set_at_insert by done. case_decide; [|done]. subst.
      rewrite elements_set_add. case_decide; [done|].
      apply elem_of_app. by left.
    + by rewrite set_at_insert_ge by lia.
  - rewrite set_at_with_map, set_at_alloc. by rewrite decide_False by lia.
Qed.

Lemma map_add (e e' : event) (f : fn) (b : nat) (s : state) :
  map s !! e' = Some b → map (add e f s) !! e' = Some b.
Proof.
  intros He'. unfold add. destruct (map s !! e) as [a|] eqn:He; [done|].
  simpl. rewrite lookup_insert_ne; [done|]. congruence.
Qed.

Lemma elem_of_remove (e : event) (f g : fn) (b : nat) (s : state) :
  g ∈ elements (set_at b (remove e f s).1) →
  g ∈ elements (set_at b s) ∧ (map s !! e = Some b → g ≠ f).
Proof.
  unfold remove. destruct (map s !! e) as [a|] eqn:He; [|done].
  assert (g ∈ elements (set_at b
            (with_sets s (<[a:=set_delete f (set_at a s)]> (sets s)))) →
          g ∈ elements (set_at b s) ∧ (Some a = Some b → g ≠ f)) as Hgen.
  { destruct (decide (a < length (sets s))) as [Ha|Ha].
    - rewrite set_at_insert by done. case_decide as Hb.
      + subst b. rewrite elem_of_set_delete. by intros [? ?].
      + intros Hg. split; [done|]. by intros [= ->].
    - rewrite set_at_insert_ge by lia. intros Hg. split; [done|].
      intros [= ->]. rewrite set_at_ge in Hg by lia. by apply elem_of_nil in Hg. }
  by destruct (size _ =? 0).
Qed.

Lemma map_remove (e e' : event) (f : fn) (b : nat) (s : state) :
  map (remove e f s).1 !! e' = Some b → map s !! e' = Some b.
Proof.
  unfold remove. destruct (map s !! e) as [a|] eqn:He; [|done].
  destruct (size _ =? 0); simpl; [|done].
  by intros [_ ?]%lookup_delete_Some.
Qed.

Lemma map_remove_live (e e' : event) (f g : fn) (b : nat) (s : state) :
  map s !! e' = Some b →
  g ∈ elements (set_at b (remove e f s).1) →
  map (remove e f s).1 !! e' = Some b.
Proof.
  intros He'. unfold remove. destruct (map s !! e) as [a|] eqn:He; [|done].
  destruct (size (set_delete f (set_at a s)) =? 0) eqn:Hz; simpl; [|done].
  rewrite set_at_with_map. intros Hg.
  destruct (decide (e = e')) as [->|Hne]; [|by rewrite lookup_delete_ne].
  simplify_eq. apply Nat.eqb_eq, size_zero_elements in Hz.
  destruct (decide (b < length (sets s))) as [Hb|Hb].
  - rewrite set_at_insert, decide_True in Hg by done.
    rewrite Hz in Hg. by apply elem_of_nil in Hg.
  - rewrite set_at_insert_ge, set_at_ge in Hg by lia. by apply elem_of_nil in Hg.
Qed.

Lemma inv_initial : inv initial.
Proof.
  split; [apply reg_ok_initial|]. split.
  - intros [|[|a]] g Hg; cbn in Hg; by apply elem_of_nil in Hg.
  - intros [|[|a]] h f Hg; cbn in Hg; by apply elem_of_nil in Hg.
  - intros h c h' f Hc. cbn in Hc. by rewrite lookup_nil in Hc.
Qed.

Lemma reg_ok_ext (s s' : state) :
  map s' = map s → sets s' = sets s → reg_ok s → reg_ok s'.
Proof.
  intros Hm Hs [H1 H2 H3 H4].
  split; unfold set_at in *; rewrite ?Hm, ?Hs; done.
Qed.

Lemma adapters_ok_ext (s s' : state) :
  map s' = map s → sets s' = sets s → handles s' = handles s →
  adapters_ok s → adapters_ok s'.
Proof.
  intros Hm Hs Hh [H1 H2 H3].
  split; unfold set_at in *; rewrite ?Hm, ?Hs, ?Hh; done.
Qed.

Lemma inv_ext (s s' : state) :
  map s' = map s → sets s' = sets s → handles s' = handles s →
  inv s → inv s'.
Proof.
  intros Hm Hs Hh [H1 H2]. split;
    eauto using reg_ok_ext, adapters_ok_ext.
Qed.

Section Invariant.

Context (cfg : config).

Lemma reg_ok_on e f s : reg_ok s → reg_ok (on cfg e (JFn f) s).1.
Proof.
  intros Hok. simpl.
  eapply reg_ok_ext; [..|apply (reg_ok_add e f), (reg_ok_ext s)]; done.
Qed.

Lemma reg_ok_once e f s : reg_ok s → reg_ok (once cfg e (JFn f) s).1.
Proof. apply reg_ok_on. Qed.

Lemma reg_ok_off e f s : reg_ok s → reg_ok (off cfg e (JFn f) s).1.
Proof.
  intros Hok. unfold off. simpl.
  pose proof (reg_ok_remove e f
    (call_trace cfg (or_hook (trace cfg) (g_trace (eventful_options cfg))) "off"
       (PSubscription e f) s)) as H.
  destruct (remove e f _) as [s2 b]. simpl in *.
  apply H. by apply (reg_ok_ext s).
Qed.

Lemma reg_ok_unsubscribe h s : reg_ok s → reg_ok (unsubscribe h s).1.
Proof.
  intros Hok. unfold unsubscribe.
  destruct (handles s !! h) as [c|]; [|done].
  destruct (active c); [|done].
  apply reg_ok_remove. by apply (reg_ok_ext s).
Qed.

Lemma run_reg_ok n p s s' o :
  reg_ok s → run cfg n p s = Some (s', o) → reg_ok s'.
Proof.
  apply (run_preserves cfg reg_ok (λ _, True)); try done.
  - intros. by apply (reg_ok_ext s0).
  - intros. by apply (reg_ok_ext s0).
  - intros. by apply (reg_ok_ext s0).
  - intros. by apply reg_ok_on.
  - intros. by apply reg_ok_once.
  - intros. by apply reg_ok_off.
  - intros. by apply reg_ok_unsubscribe.
Qed.

Lemma flat_inner h g : flat (Adapter h g) → flat g.
Proof. by destruct g. Qed.

Lemma adapters_ok_on e f s :
  adapters_ok s → fresh f s → adapters_ok (on cfg e (JFn f) s).1.
Proof.
  intros [Hflat Hlive Hhandle] [Hf Hfresh]. simpl.
  set (s1 := call_trace cfg _ _ _ s).
  split; simpl; rewrite ?handles_add; simpl.
  - intros a g. rewrite set_at_with_handles.
    intros [Hg|[-> _]]%elem_of_add; [by eapply Hflat|done].
  - intros a h g. rewrite set_at_with_handles.
    intros [Hg|[Heq He]]%elem_of_add.
    + destruct (Hlive a h g Hg) as (e' & Hh & He').
      exists e'. split.
      * rewrite lookup_app_l by by eapply lookup_lt_Some. done.
      * by apply map_add.
    + exists e. split; [|done].
      rewrite <-Heq, (Hfresh h g) by done. by rewrite list_lookup_middle.
  - intros h c h' g Hc Hl.
    apply lookup_app_Some in Hc as [Hc|[Hlen Hc]]; [by eapply Hhandle|].
    destruct (h - length (handles s)) as [|k] eqn:Hk; simpl in Hc; [|done].
    simplify_eq. simpl in Hl. rewrite (Hfresh h' g) by done. lia.
Qed.

Lemma inv_on e id s : inv s → inv (on cfg e (JFn (User id)) s).1.
Proof.
  intros [H1 H2]. split; [by apply reg_ok_on|].
  apply adapters_ok_on; [done|]. split; [done|]. by intros h g.
Qed.

Lemma inv_once e id s : inv s → inv (once cfg e (JFn (User id)) s).1.
Proof.
  intros [H1 H2]. split; [by apply reg_ok_once|].
  apply adapters_ok_on; [done|]. split; [done|]. by intros h g [= <- _].
Qed.

Lemma inv_off e id s : inv s → inv (off cfg e (JFn (User id)) s).1.
Proof.
  intros [H1 [Hflat Hlive Hhandle]]. split; [by apply reg_ok_off|].
  unfold off. simpl.
  set (s1 := call_trace cfg _ _ _ s).
  pose proof (handles_remove e (User id) s1) as Hh.
  pose proof (λ g b, elem_of_remove e (User id) g b s1) as Hel.
  pose proof (λ e' g b, map_remove_live e e' (User id) g b s1) as Hm.
  destruct (remove e (User id) s1) as [s2 d]. simpl in *.
  split; rewrite ?Hh; simpl.
  - intros a g [Hg _]%Hel. by eapply Hflat.
  - intros a h g Hg. destruct (Hel _ _ Hg) as [Hg' _].
    destruct (Hlive a h g Hg') as (e' & Hc & He'). eauto.
  - done.
Qed.

Lemma inv_unsubscribe h s : inv s → inv (unsubscribe h s).1.
Proof.
  intros [H1 [Hflat Hlive Hhandle]]. split; [by apply reg_ok_unsubscribe|].
  unfold unsubscribe. destruct (handles s !! h) as [c|] eqn:Hc; [|done].
  destruct (active c) eqn:Hact; [|done].
  set (s1 := with_handles s _).
  pose proof (handles_remove (h_event c) (h_listener c) s1) as Hh.
  pose proof (λ g b, elem_of_remove (h_event c) (h_listener c) g b s1) as Hel.
  pose proof (λ e' g b, map_remove_live (h_event c) e' (h_listener c) g b s1) as Hm.
  destruct (remove (h_event c) (h_listener c) s1) as [s2 d]. simpl in *.
  split; rewrite ?Hh; simpl.
  - intros a g [Hg _]%Hel. by eapply Hflat.
  - intros a h' g Hg. destruct (Hel _ _ Hg) as [Hg' Hne].
    destruct (Hlive a h' g Hg') as (e' & Hc' & He').
    destruct (decide (h' = h)) as [->|Hhh].
    + rewrite Hc in Hc'. simplify_eq. simpl in Hne. by destruct Hne.
    + exists e'. split; [by rewrite list_lookup_insert_ne|eauto].
  - intros h0 c0 h' g Hc0 Hl.
    destruct (decide (h0 = h)) as [->|Hhh].
    + rewrite list_lookup_insert_eq in Hc0 by by eapply lookup_lt_Some.
      simplify_eq. simpl in Hl. by eapply Hhandle.
    + rewrite list_lookup_insert_ne in Hc0 by done. by eapply Hhandle.
Qed.

Lemma run_inv n p s s' o : inv s → run cfg n p s = Some (s', o) → inv s'.
Proof.
  apply (run_preserves cfg inv flat).
  - apply flat_inner.
  - intros s0 a g [_ H] Hg. by eapply ad_flat.
  - intros. by apply (inv_ext s0).
  - intros. by apply (inv_ext s0).
  - intros. by apply (inv_ext s0).
  - intros. by apply inv_on.
  - intros. by apply inv_once.
  - intros. by apply inv_off.
  - intros. by apply inv_unsubscribe.
Qed.

End Invariant.

(** ** The registry invariant in every reachable state *)

(** C4.  After any client code run on a fresh emitter (any sequence of [on],
    [once], [off], handle, [emit] and [emitAsync] calls, with listeners that
    may themselves make such calls), the registry has an entry for an event
    exactly when the event has a listener, and the [Set] of an entry is
    never empty. *)
Theorem registry_entry_iff_listener (cfg : config) (n : nat) (p : prog)
    (s : state) (o : outcome) :
  run cfg n p initial = Some (s, o) →
  ∀ e, (is_Some (map s !! e) ↔ ∃ f, f ∈ listeners e s)
       ∧ (is_Some (map s !! e) ↔ has e s = true)
       ∧ (∀ a, map s !! e = Some a → 0 < size (set_at a s)).
Proof.
  intros Hrun e.
  assert (reg_ok s) as Hok by (eapply run_reg_ok; [apply reg_ok_initial|done]).
  assert (is_Some (map s !! e) ↔ ∃ f, f ∈ listeners e s) as Hiff.
  { split.
    - intros [a Ha]. rewrite (listeners_entry e a s Ha).
      apply size_pos_elem. by apply (ok_entry s Hok e a).
    - intros [f Hf]. destruct (map s !! e) eqn:He; [done|].
      rewrite (listeners_no_entry e s Hok He) in Hf. by apply elem_of_nil in Hf. }
  split_and!; [done| |].
  - rewrite Hiff, (has_listeners e s Hok). split.
    + intros [f Hf] Hnil. rewrite Hnil in Hf. by apply elem_of_nil in Hf.
    + destruct (listeners e s) as [|f l]; [done|]. intros _. exists f. left.
  - intros a Ha. by apply (ok_entry s Hok e a).
Qed.

Lemma registry_entry_iff_listener_witness :
  ∃ s o, run Scenario4.cfg 10 Scenario4.p initial = Some (s, o)
    ∧ map s !! Scenario.test = None
    ∧ ∀ e, (is_Some (map s !! e) ↔ ∃ f, f ∈ listeners e s)
         ∧ (is_Some (map s !! e) ↔ has e s = true)
         ∧ (∀ a, map s !! e = Some a → 0 < size (set_at a s)).
Proof.
  eexists _, _. split; [vm_compute; reflexivity|]. split; [reflexivity|].
  apply (registry_entry_iff_listener Scenario4.cfg 10 Scenario4.p _ (Returns Plain)).
  vm_compute. reflexivity.
Defined.

(** ** Emitting an event that has no listener *)

Lemma set_at_call_trace cfg h action p a s :
  set_at a (call_trace cfg h action p s) = set_at a s.
Proof. done. Qed.

Lemma set_at_call_error cfg err c a s :
  set_at a (call_error cfg err c s) = set_at a s.
Proof. done. Qed.

Lemma set_at_log_call f args a s :
  set_at a (log_call f args s) = set_at a s.
Proof. done. Qed.

(** C8.  If [e] has no listener then [has(e)] is false, and [emit(e)] and
    [emitAsync(e)] return at once: the registry, the handles, the error log
    and the log of listener calls are as before, and the trace hook has been
    called exactly once more, with the tag of the emission and the payload
    [{listeners, event, args}]. *)
Theorem emit_without_listeners (cfg : config)
    (rec : prog → state → option (state * outcome)) (fuel : nat)
    (e : event) (args : list nat) (s : state) :
  listeners e s = [] →
  let hook := or_hook (trace cfg) (g_trace (globalOptions cfg)) in
  let traced action :=
    {| map := map s; sets := sets s; handles := handles s;
       trace_log := trace_log s
         ++ [TraceCall hook (object cfg) action (PEmission [] e args)];
       error_log := error_log s; calls_log := calls_log s |} in
  has e s = false
  ∧ emit cfg rec fuel e args s = Some (traced "emit", AUndefined)
  ∧ emitAsync cfg rec e args s = Some (traced "emitAsync", APromise []).
Proof.
  intros Hnil hook traced. unfold listeners in Hnil. split_and!.
  - unfold has. unfold getListeners in Hnil.
    destruct (map s !! e) as [a|]; [|done]. simpl in Hnil.
    apply Nat.ltb_ge. unfold size. rewrite Hnil. simpl. lia.
  - unfold emit, size. rewrite set_at_call_trace, Hnil. done.
  - unfold emitAsync, size. rewrite set_at_call_trace, Hnil. done.
Qed.

Lemma emit_without_listeners_witness :
  let s := (unsubscribe 0 (on Scenario4.cfg Scenario.test (JFn (User 1)) initial).1).1 in
  listeners Scenario.test s = []
  ∧ has Scenario.test s = false
  ∧ emit Scenario4.cfg (run Scenario4.cfg 1) 1 Scenario.test [5] s
    = Some ({| map := map s; sets := sets s; handles := handles s;
               trace_log := trace_log s
                 ++ [TraceCall (GlobalHook 0) 0 "emit" (PEmission [] Scenario.test [5])];
               error_log := error_log s; calls_log := calls_log s |}, AUndefined)
  ∧ emitAsync Scenario4.cfg (run Scenario4.cfg 1) Scenario.test [5] s
    = Some ({| map := map s; sets := sets s; handles := handles s;
               trace_log := trace_log s
                 ++ [TraceCall (GlobalHook 0) 0 "emitAsync" (PEmission [] Scenario.test [5])];
               error_log := error_log s; calls_log := calls_log s |}, APromise []).
Proof.
  split; [reflexivity|].
  apply (emit_without_listeners Scenario4.cfg (run Scenario4.cfg 1) 1
           Scenario.test [5]).
  reflexivity.
Defined.

(** ** Subscription handles *)

Section Handles.

Context (cfg : config).

Lemma on_handle e f s s' h :
  on cfg e (JFn f) s = (s', AHandle h) →
  h = length (handles s) ∧ handles s' !! h = Some (Handle e f true).
Proof.
  unfold on. simpl. rewrite handles_add. simpl. intros [= <- <-].
  split; [done|]. simpl. by rewrite list_lookup_middle.
Qed.

Lemma on_listeners e f s :
  reg_ok s →
  listeners e (on cfg e (JFn f) s).1
  = if decide (f ∈ listeners e s) then listeners e s else listeners e s ++ [f].
Proof.
  intros Hok. unfold on. simpl.
  change (listeners e (with_handles ?s' _)) with (listeners e s').
  rewrite add_listeners by by apply (reg_ok_ext s). done.
Qed.

Lemma on_listeners_ne e e' f s :
  reg_ok s → e' ≠ e → listeners e' (on cfg e (JFn f) s).1 = listeners e' s.
Proof.
  intros Hok Hne. unfold on. simpl.
  change (listeners e' (with_handles ?s' _)) with (listeners e' s').
  rewrite add_listeners_ne by (done || by apply (reg_ok_ext s)). done.
Qed.

(** A used handle stays used, whatever runs afterwards. *)
Lemma inactive_stays h e f n p s s' o :
  handles s !! h = Some (Handle e f false) →
  run cfg n p s = Some (s', o) →
  handles s' !! h = Some (Handle e f false).
Proof.
  apply (run_preserves cfg
           (λ s, handles s !! h = Some (Handle e f false)) (λ _, True));
    try done.
  - intros s0 e0 id H. simpl. rewrite handles_add. simpl.
    rewrite lookup_app_l by by eapply lookup_lt_Some. done.
  - intros s0 e0 id H. simpl. rewrite handles_add. simpl.
    rewrite lookup_app_l by by eapply lookup_lt_Some. done.
  - intros s0 e0 id H. unfold off. simpl.
    pose proof (handles_remove e0 (User id)
      (call_trace cfg (or_hook (trace cfg) (g_trace (eventful_options cfg)))
         "off" (PSubscription e0 (User id)) s0)) as Hh.
    destruct (remove e0 (User id) _) as [s2 d]. simpl in *. by rewrite Hh.
  - intros s0 h0 H. unfold unsubscribe.
    destruct (handles s0 !! h0) as [c|] eqn:Hc; [|done].
    destruct (active c) eqn:Hact; [|done].
    rewrite handles_remove. simpl.
    destruct (decide (h0 = h)) as [->|Hne].
    + rewrite Hc in H. by simplify_eq.
    + by rewrite list_lookup_insert_ne.
Qed.

Lemma unsubscribe_inactive h e f s :
  handles s !! h = Some (Handle e f false) → unsubscribe h s = (s, false).
Proof. intros H. unfold unsubscribe. by rewrite H. Qed.

Lemma unsubscribe_active h e f s :
  handles s !! h = Some (Handle e f true) →
  unsubscribe h s
  = remove e f (with_handles s (<[h := Handle e f false]> (handles s))).
Proof. intros H. unfold unsubscribe. by rewrite H. Qed.

(** C5.  Let [h] be a handle returned by [on(e, f)] and not yet called,
    at a time when [f] is registered under [e].  Its first call returns
    [true] and removes [f] from the listeners of [e], leaving the other
    listeners of [e], in their order, and every other event as they were.
    Whatever client code runs afterwards, also code that subscribes [f]
    under [e] again, every later call of the handle returns [false] and
    leaves the whole state unchanged. *)
Theorem handle_single_use (h : nat) (e : event) (f : fn) (s : state) :
  reg_ok s →
  handles s !! h = Some (Handle e f true) →
  f ∈ listeners e s →
  ∃ s1, unsubscribe h s = (s1, true)
    ∧ listeners e s1 = filter (λ g, g ≠ f) (listeners e s)
    ∧ (∀ e', e' ≠ e → listeners e' s1 = listeners e' s)
    ∧ ∀ n p s2 o, run cfg n p s1 = Some (s2, o) →
        unsubscribe h s2 = (s2, false).
Proof.
  intros Hok Hh Hf.
  set (s0 := with_handles s (<[h := Handle e f false]> (handles s))).
  assert (reg_ok s0) as Hok0 by by apply (reg_ok_ext s).
  exists (remove e f s0).1. split_and!.
  - rewrite (unsubscribe_active h e f s Hh). fold s0.
    pose proof (remove_result e f s0 Hok0) as Hr.
    destruct (remove e f s0) as [s1 d]. simpl in *. subst d.
    by rewrite bool_decide_eq_true_2.
  - by rewrite remove_listeners.
  - intros e' Hne. by rewrite remove_listeners_ne.
  - intros n p s2 o Hrun. apply (unsubscribe_inactive h e f).
    eapply inactive_stays; [|done].
    rewrite handles_remove. simpl.
    rewrite list_lookup_insert_eq by by eapply lookup_lt_Some. done.
Qed.

End Handles.

Lemma handle_single_use_witness :
  on Scenario4.cfg Scenario.test (JFn (User 1)) initial
  = ((on Scenario4.cfg Scenario.test (JFn (User 1)) initial).1, AHandle 0)
  ∧ ∃ s1,
      unsubscribe 0 Scenario5.s0 = (s1, true)
      ∧ listeners Scenario.test s1 = [User 2]
      ∧ run Scenario4.cfg 2 Scenario5.again s1
        = Some (Scenario5.s2, Returns Plain)
      ∧ listeners Scenario.test Scenario5.s2 = [User 2; User 1]
      ∧ unsubscribe 0 Scenario5.s2 = (Scenario5.s2, false).
Proof.
  split; [reflexivity|].
  destruct (handle_single_use Scenario4.cfg 0 Scenario.test (User 1) Scenario5.s0)
    as (s1 & Hu & Hl & _ & Hlater).
  - apply reg_ok_on, reg_ok_on, reg_ok_initial.
  - reflexivity.
  - vm_compute. left.
  - assert (s1 = (unsubscribe 0 Scenario5.s0).1) as -> by by rewrite Hu.
    eexists. split; [exact Hu|]. split; [reflexivity|].
    split; [reflexivity|]. split; [reflexivity|].
    apply (Hlater 2 Scenario5.again Scenario5.s2 (Returns Plain)). reflexivity.
Defined.

(** ** [off] after [once] *)

Lemma adapter_neq (h : nat) (f : fn) : Adapter h f ≠ f.
Proof. induction f as [id|h' g IH]; [done|]. intros [= -> Hg]. by apply IH. Qed.

Lemma set_delete_absent (f : fn) (l : list (option fn)) :
  f ∉ elements l → set_delete f l = l.
Proof.
  intros Hf. unfold set_delete. induction l as [|x l IH]; [done|].
  simpl. case_decide as Hx.
  - subst x. destruct Hf. apply elem_of_elements. left.
  - f_equal. apply IH. intros Hin. apply Hf.
    rewrite elem_of_elements in *. by right.
Qed.

Lemma remove_absent (e : event) (f : fn) (s : state) :
  reg_ok s → f ∉ listeners e s → remove e f s = (s, false).
Proof.
  intros Hok Hf. unfold remove. destruct (map s !! e) as [a|] eqn:He; [|done].
  rewrite (listeners_entry e a s He) in Hf.
  destruct (ok_entry s Hok e a He) as [Ha Hsz].
  rewrite set_delete_absent by done.
  rewrite bool_decide_eq_false_2 by done.
  rewrite list_insert_id.
  - rewrite with_sets_id. destruct (size (set_at a s) =? 0) eqn:Hz; [|done].
    apply Nat.eqb_eq in Hz. lia.
  - unfold set_at. destruct (sets s !! a) eqn:Hs; [done|].
    apply lookup_ge_None in Hs. lia.
Qed.

Section Once.

Context (cfg : config).

Lemma off_spec e f s :
  reg_ok s →
  ∃ s2, off cfg e (JFn f) s = (s2, ABool (bool_decide (f ∈ listeners e s)))
    ∧ listeners e s2 = filter (λ g, g ≠ f) (listeners e s)
    ∧ handles s2 = handles s
    ∧ (f ∉ listeners e s → map s2 = map s ∧ sets s2 = sets s).
Proof.
  intros Hok. unfold off. simpl.
  set (s1 := call_trace cfg _ _ _ s).
  assert (reg_ok s1) as Hok1 by by apply (reg_ok_ext s).
  pose proof (remove_result e f s1 Hok1) as Hr.
  pose proof (remove_listeners e f s1 Hok1) as Hl.
  pose proof (handles_remove e f s1) as Hh.
  pose proof (remove_absent e f s1 Hok1) as Ha.
  destruct (remove e f s1) as [s2 d]. simpl in *. subst d.
  exists s2. split_and!; try done.
  intros Hf. specialize (Ha Hf). by simplify_eq.
Qed.

(** C9.  [once(e, f)] registers the arrow [Adapter h f], where [h] is the
    handle it returns.  A following [off(e, f)] does not remove that
    registration; when [f] itself is not registered under [e] it returns
    [false] and leaves the registry as it was.  The handle removes the
    registration. *)
Theorem off_after_once (e : event) (f : fn) (s : state) :
  reg_ok s →
  let h := length (handles s) in
  ∃ s1 s2 s3 b,
    once cfg e (JFn f) s = (s1, AHandle h)
    ∧ Adapter h f ∈ listeners e s1
    ∧ off cfg e (JFn f) s1 = (s2, ABool b)
    ∧ Adapter h f ∈ listeners e s2
    ∧ (f ∉ listeners e s → b = false ∧ map s2 = map s1 ∧ sets s2 = sets s1)
    ∧ unsubscribe h s2 = (s3, true)
    ∧ Adapter h f ∉ listeners e s3.
Proof.
  intros Hok h.
  destruct (on cfg e (JFn (Adapter h f)) s) as [s1 a] eqn:Hon.
  assert (a = AHandle h) as ->.
  { unfold on in Hon. simpl in Hon. rewrite handles_add in Hon.
    by injection Hon as _ <-. }
  assert (reg_ok s1) as Hok1.
  { replace s1 with (on cfg e (JFn (Adapter h f)) s).1 by by rewrite Hon.
    by apply reg_ok_on. }
  assert (Adapter h f ∈ listeners e s1) as HA1.
  { replace s1 with (on cfg e (JFn (Adapter h f)) s).1 by by rewrite Hon.
    rewrite on_listeners by done. case_decide; [done|].
    apply elem_of_app. right. left. }
  destruct (on_handle cfg e _ s s1 h Hon) as [_ Hh1].
  destruct (off_spec e f s1 Hok1) as (s2 & Hoff & Hl2 & Hh2 & Hsame).
  assert (reg_ok s2) as Hok2.
  { replace s2 with (off cfg e (JFn f) s1).1 by by rewrite Hoff.
    by apply reg_ok_off. }
  assert (Adapter h f ∈ listeners e s2) as HA2.
  { rewrite Hl2. apply list_elem_of_filter. split; [apply adapter_neq|done]. }
  set (s2' := with_handles s2 (<[h := Handle e (Adapter h f) false]> (handles s2))).
  assert (reg_ok s2') as Hok2' by by apply (reg_ok_ext s2).
  exists s1, s2, (remove e (Adapter h f) s2').1, (bool_decide (f ∈ listeners e s1)).
  split_and!; try done.
  - intros Hf.
    assert (f ∉ listeners e s1) as Hf1.
    { replace s1 with (on cfg e (JFn (Adapter h f)) s).1 by by rewrite Hon.
      rewrite on_listeners by done.
      destruct (decide (Adapter h f ∈ listeners e s)); [exact Hf|].
      intros [?|Heq%list_elem_of_singleton]%elem_of_app; [done|].
      symmetry in Heq. by eapply adapter_neq. }
    split; [by apply bool_decide_eq_false_2|by apply Hsame].
  - rewrite (unsubscribe_active h e (Adapter h f)) by by rewrite Hh2.
    fold s2'. pose proof (remove_result e (Adapter h f) s2' Hok2') as Hr.
    destruct (remove e (Adapter h f) s2') as [s3 d]. simpl in *. subst d.
    by rewrite bool_decide_eq_true_2.
  - rewrite remove_listeners by done.
    rewrite list_elem_of_filter. by intros [? _].
Qed.

End Once.

Lemma off_after_once_witness :
  reg_ok initial
  ∧ (User 2 ∉ listeners Scenario.test initial)
  ∧ ∃ s1 s2 s3 b,
      once Scenario4.cfg Scenario.test (JFn (User 2)) initial = (s1, AHandle 0)
      ∧ Adapter 0 (User 2) ∈ listeners Scenario.test s1
      ∧ off Scenario4.cfg Scenario.test (JFn (User 2)) s1 = (s2, ABool b)
      ∧ Adapter 0 (User 2) ∈ listeners Scenario.test s2
      ∧ (User 2 ∉ listeners Scenario.test initial →
         b = false ∧ map s2 = map s1 ∧ sets s2 = sets s1)
      ∧ unsubscribe 0 s2 = (s3, true)
      ∧ Adapter 0 (User 2) ∉ listeners Scenario.test s3.
Proof.
  split; [apply reg_ok_initial|]. split; [vm_compute; apply not_elem_of_nil|].
  apply (off_after_once Scenario4.cfg Scenario.test (User 2) initial).
  apply reg_ok_initial.
Defined.

(** ** Synchronous emission to listeners that do not call the emitter *)

Section Delivery.

Context (cfg : config) (e : event) (args : list nat).

(** What each listener does with [args]. *)
Variable out : fn → outcome.

Lemma after_nil s : after args s [] [] = s.
Proof. unfold after. destruct s. simpl. by rewrite !app_nil_r. Qed.

Lemma after_log_call s f called reported :
  after args (log_call f args s) called reported = after args s (f :: called) reported.
Proof. unfold after. simpl. by rewrite <-app_assoc. Qed.

Lemma after_call_error s err c reported :
  after args (call_error cfg err c s) [] reported
  = after args s [] (ErrorCall (or_hook (error cfg) (g_error (globalOptions cfg))) err c
                  :: reported).
Proof. unfold after. simpl. by rewrite <-app_assoc. Qed.

Lemma after_after s c1 r1 c2 r2 :
  after args (after args s c1 r1) c2 r2 = after args s (c1 ++ c2) (r1 ++ r2).
Proof. unfold after. simpl. by rewrite fmap_app, !app_assoc. Qed.

Lemma apply_quiet n f s :
  quiet cfg args out f → apply cfg (run cfg (S n)) f args s = Some (log_call f args s, out f).
Proof. intros (id & -> & Hbody). simpl. unfold apply_user. by rewrite Hbody. Qed.

Lemma emit_loop_S rec fuel a i s :
  emit_loop cfg rec (S fuel) a i e args s
  = match set_at a s !! i with
    | None => Some (s, AUndefined)
    | Some None => emit_loop cfg rec fuel a (S i) e args s
    | Some (Some listener) =>
        match apply cfg rec listener args s with
        | None => None
        | Some (s', Returns _) => emit_loop cfg rec fuel a (S i) e args s'
        | Some (s', Throws err) =>
            let s'' := call_error cfg err (Context (object cfg) e listener) s' in
            if strict cfg then Some (s'', AThrew err)
            else emit_loop cfg rec fuel a (S i) e args s''
        end
    end.
Proof. done. Qed.

Lemma emit_loop_quiet n fuel a i s :
  (∀ f, f ∈ elements (set_at a s) → quiet cfg args out f) →
  length (set_at a s) - i < fuel →
  emit_loop cfg (run cfg (S n)) fuel a i e args s
  = let '(c, r, ans) := deliver cfg e out (elements (drop i (set_at a s))) in
    Some (after args s c r, ans).
Proof.
  revert i s. induction fuel as [|fuel IH]; intros i s Hq Hfuel; [lia|].
  rewrite emit_loop_S. destruct (set_at a s !! i) as [[f|]|] eqn:Hi.
  - rewrite (drop_S _ _ _ Hi), elements_cons_Some. cbn [deliver].
    assert (quiet cfg args out f) as Hf by eauto using lookup_elements.
    rewrite (apply_quiet n f s Hf).
    pose proof (lookup_lt_Some _ _ _ Hi) as Hlt.
    unfold report. destruct (out f) as [v|err] eqn:Hout.
    + rewrite IH by (rewrite ?set_at_log_call; first [done|lia]).
      rewrite set_at_log_call.
      destruct (deliver cfg e out _) as [[c r] ans]. by rewrite after_log_call.
    + destruct (strict cfg).
      * reflexivity.
      * rewrite IH
          by (rewrite ?set_at_call_error, ?set_at_log_call; first [done|lia]).
        rewrite set_at_call_error, set_at_log_call.
        destruct (deliver cfg e out _) as [[c r] ans]. simpl.
        f_equal. f_equal. unfold after. simpl. by rewrite <-!app_assoc.
  - rewrite (drop_S _ _ _ Hi), elements_cons_None.
    pose proof (lookup_lt_Some _ _ _ Hi) as Hlt.
    apply IH; [done|lia].
  - rewrite drop_ge by by apply lookup_ge_None. simpl. by rewrite after_nil.
Qed.

Lemma deliver_all ls :
  (strict cfg = false ∨ ∀ f, f ∈ ls → report cfg e out f = None) →
  deliver cfg e out ls = (ls, omap (report cfg e out) ls, AUndefined).
Proof.
  intros H. induction ls as [|f ls IH]; [done|]. simpl.
  rewrite IH by
    (destruct H as [?|H]; [by left|right; intros; apply H; by right]).
  unfold report in *. destruct (out f) as [v|err] eqn:Hout; [done|].
  destruct H as [->|H]; [done|].
  specialize (H f ltac:(left)). by rewrite Hout in H.
Qed.

Lemma omap_report_none ls :
  (∀ f, f ∈ ls → report cfg e out f = None) → omap (report cfg e out) ls = [].
Proof.
  induction ls as [|g l IH]; intros H; [done|]. simpl.
  rewrite (H g) by left. apply IH. intros f Hf. apply H. by right.
Qed.

Lemma deliver_abort l1 f l2 err :
  strict cfg = true →
  (∀ g, g ∈ l1 → report cfg e out g = None) →
  out f = Throws err →
  deliver cfg e out (l1 ++ f :: l2)
  = (l1 ++ [f],
     [ErrorCall (or_hook (error cfg) (g_error (globalOptions cfg))) err
        (Context (object cfg) e f)],
     AThrew err).
Proof.
  intros Hs Hl1 Hf. induction l1 as [|g l1 IH]; simpl.
  - unfold report. by rewrite Hf, Hs.
  - rewrite IH by (intros; apply Hl1; by right).
    specialize (Hl1 g ltac:(left)). unfold report in Hl1.
    by destruct (out g).
Qed.

Lemma emit_quiet n fuel s :
  listeners e s ≠ [] →
  (∀ f, f ∈ listeners e s → quiet cfg args out f) →
  length (set_at (getListeners e s) s) < fuel →
  emit cfg (run cfg (S n)) fuel e args s
  = let '(c, r, ans) := deliver cfg e out (listeners e s) in
    Some (after args (call_trace cfg (or_hook (trace cfg) (g_trace (globalOptions cfg)))
                   "emit" (PEmission (listeners e s) e args) s) c r, ans).
Proof.
  intros Hne Hq Hfuel. unfold emit. rewrite set_at_call_trace.
  destruct (size _ =? 0) eqn:Hz.
  - apply Nat.eqb_eq, size_zero_elements in Hz. done.
  - rewrite emit_loop_quiet; rewrite ?set_at_call_trace, ?drop_0; [done..|lia].
Qed.

End Delivery.

(** ** Subscribing the same listener twice *)

Section Twice.

Context (cfg : config).

Lemma off_listeners_ne e e' f s :
  reg_ok s → e' ≠ e → listeners e' (off cfg e (JFn f) s).1 = listeners e' s.
Proof.
  intros Hok Hne. unfold off. simpl.
  set (s1 := call_trace cfg _ _ _ s).
  assert (reg_ok s1) as Hok1 by by apply (reg_ok_ext s).
  pose proof (remove_listeners_ne e e' f s1 Hok1 Hne) as Hl.
  destruct (remove e f s1) as [s2 d]. simpl in *. by rewrite Hl.
Qed.

Lemma off_listeners e f s :
  reg_ok s →
  listeners e (off cfg e (JFn f) s).1 = filter (λ g, g ≠ f) (listeners e s).
Proof.
  intros Hok. destruct (off_spec cfg e f s Hok) as (s2 & Hoff & Hl & _).
  by rewrite Hoff.
Qed.

Lemma on_answer e f s :
  (on cfg e (JFn f) s).2 = AHandle (length (handles s)).
Proof. unfold on. simpl. by rewrite handles_add. Qed.

Lemma on_same_registry e f s :
  reg_ok s → f ∈ listeners e s →
  map (on cfg e (JFn f) s).1 = map s ∧ sets (on cfg e (JFn f) s).1 = sets s.
Proof.
  intros Hok Hf. unfold on. simpl.
  set (s1 := call_trace cfg _ _ _ s).
  assert (reg_ok s1) as Hok1 by by apply (reg_ok_ext s).
  rewrite (add_idem e f s1 Hok1 Hf). done.
Qed.

Lemma on_elem e f s : reg_ok s → f ∈ listeners e (on cfg e (JFn f) s).1.
Proof.
  intros Hok. rewrite on_listeners by done. case_decide; [done|].
  apply elem_of_app. right. left.
Qed.

Lemma listeners_NoDup e s : reg_ok s → NoDup (listeners e s).
Proof. intros Hok. apply (ok_nodup s Hok). Qed.

Lemma filter_eq_NoDup (f : fn) (l : list fn) :
  NoDup l → f ∈ l → length (filter (λ g, g = f) l) = 1.
Proof.
  induction 1 as [|g l Hg Hl IH]; intros Hf; [by apply elem_of_nil in Hf|].
  destruct (decide (g = f)) as [->|Hne].
  - rewrite filter_cons_True by done. simpl. f_equal.
    apply length_zero_iff_nil.
    destruct (filter (λ g, g = f) l) as [|x l'] eqn:Hfl; [done|].
    assert (x ∈ filter (λ g, g = f) l) as Hx by (rewrite Hfl; left).
    apply list_elem_of_filter in Hx as [-> Hx]. done.
  - rewrite filter_cons_False by done. apply IH.
    apply elem_of_cons in Hf as [->|Hf]; done.
Qed.

Variables (e : event) (args : list nat) (out : fn → outcome).

Lemma deliver_called_sub ls g :
  g ∈ (deliver cfg e out ls).1.1 → g ∈ ls.
Proof.
  induction ls as [|x ls IH]; simpl; [done|].
  destruct (out x) as [v|err]; [|destruct (strict cfg)]; simpl.
  - destruct (deliver cfg e out ls) as [[c rp] a]. simpl in *.
    intros [->|Hg]%elem_of_cons; [left|right; auto].
  - intros ->%list_elem_of_singleton. left.
  - destruct (deliver cfg e out ls) as [[c rp] a]. simpl in *.
    intros [->|Hg]%elem_of_cons; [left|right; auto].
Qed.

Lemma deliver_called_once ls f :
  NoDup ls → f ∈ ls →
  (strict cfg = true →
   ∀ l1 l2 g err, ls = l1 ++ f :: l2 → g ∈ l1 → out g ≠ Throws err) →
  length (filter (λ g, g = f) (deliver cfg e out ls).1.1) = 1.
Proof.
  induction 1 as [|x ls Hx Hnd IH]; intros Hf Hbefore;
    [by apply elem_of_nil in Hf|].
  destruct (decide (x = f)) as [->|Hne].
  - assert (filter (λ g, g = f) (deliver cfg e out ls).1.1 = []) as Hrest.
    { destruct (filter _ _) as [|y l'] eqn:Hfl; [done|].
      assert (y ∈ filter (λ g, g = f) (deliver cfg e out ls).1.1) as Hy
        by (rewrite Hfl; left).
      apply list_elem_of_filter in Hy as [-> Hy].
      by apply deliver_called_sub in Hy. }
    simpl. destruct (out f) as [v|err]; [|destruct (strict cfg)].
    + destruct (deliver cfg e out ls) as [[c rp] a]. simpl in *.
      rewrite filter_cons_True by done. simpl. by rewrite Hrest.
    + simpl. by rewrite filter_cons_True.
    + destruct (deliver cfg e out ls) as [[c rp] a]. simpl in *.
      rewrite filter_cons_True by done. simpl. by rewrite Hrest.
  - apply elem_of_cons in Hf as [->|Hf]; [done|].
    assert (strict cfg = true →
            ∀ l1 l2 g err, ls = l1 ++ f :: l2 → g ∈ l1 → out g ≠ Throws err)
      as Hbefore'.
    { intros Hs l1 l2 g err -> Hg.
      apply (Hbefore Hs (x :: l1) l2); [done|by right]. }
    specialize (IH Hf Hbefore').
    simpl. destruct (out x) as [v|err] eqn:Hout; [|destruct (strict cfg) eqn:Hs].
    + destruct (deliver cfg e out ls) as [[c rp] a]. simpl in *.
      by rewrite filter_cons_False.
    + apply list_elem_of_split in Hf as (l1 & l2 & ->).
      destruct (Hbefore eq_refl (x :: l1) l2 x err); [done|left|done].
    + destruct (deliver cfg e out ls) as [[c rp] a]. simpl in *.
      by rewrite filter_cons_False.
Qed.

End Twice.

(** C6.  Calling [on(e, f)] a second time, with no removal in between,
    changes neither [map] nor any [Set]: [f] is a listener of [e] exactly
    once.  A following [emit(e)] calls [f] exactly once, when every listener
    of [e] returns or throws without calling the emitter and, under [strict],
    no listener registered before [f] throws.  The same [f] under another
    event, and another function [g] under the same event, are entries of
    their own: adding or removing them leaves the entry of [f] under [e]. *)
Theorem on_twice (cfg : config) (e : event) (f : fn) (s : state) :
  reg_ok s →
  ∃ s1 s2 h1 h2,
    on cfg e (JFn f) s = (s1, AHandle h1)
    ∧ on cfg e (JFn f) s1 = (s2, AHandle h2)
    ∧ map s2 = map s1 ∧ sets s2 = sets s1
    ∧ length (filter (λ g, g = f) (listeners e s2)) = 1
    ∧ (∀ args out n fuel,
         (∀ g, g ∈ listeners e s2 → quiet cfg args out g) →
         (strict cfg = true →
          ∀ l1 l2 g err, listeners e s2 = l1 ++ f :: l2 → g ∈ l1 →
            out g ≠ Throws err) →
         length (set_at (getListeners e s2) s2) < fuel →
         ∃ s3 r called,
           emit cfg (run cfg (S n)) fuel e args s2 = Some (s3, r)
           ∧ calls_log s3 = calls_log s2 ++ ((λ g, (g, args)) <$> called)
           ∧ length (filter (λ g, g = f) called) = 1)
    ∧ (∀ e', e' ≠ e →
         let s3 := (on cfg e' (JFn f) s2).1 in
         let s4 := (off cfg e' (JFn f) s3).1 in
         f ∈ listeners e' s3 ∧ listeners e s3 = listeners e s2
         ∧ (f ∉ listeners e' s4) ∧ listeners e s4 = listeners e s2)
    ∧ (∀ g, g ≠ f →
         let s3 := (on cfg e (JFn g) s2).1 in
         let s4 := (off cfg e (JFn g) s3).1 in
         f ∈ listeners e s3 ∧ g ∈ listeners e s3
         ∧ f ∈ listeners e s4 ∧ (g ∉ listeners e s4)).
Proof.
  intros Hok.
  pose proof (reg_ok_on cfg e f s Hok) as Hok1.
  pose proof (on_elem cfg e f s Hok) as Hf1.
  pose proof (reg_ok_on cfg e f _ Hok1) as Hok2.
  pose proof (on_same_registry cfg e f _ Hok1 Hf1) as [Hm Hs].
  pose proof (on_elem cfg e f _ Hok1) as Hf2.
  exists (on cfg e (JFn f) s).1, (on cfg e (JFn f) (on cfg e (JFn f) s).1).1,
    (length (handles s)), (length (handles (on cfg e (JFn f) s).1)).
  set (s1 := (on cfg e (JFn f) s).1) in *.
  set (s2 := (on cfg e (JFn f) s1).1) in *.
  split_and!; try done.
  - rewrite <-(on_answer cfg e f s). unfold s1.
    by destruct (on cfg e (JFn f) s).
  - rewrite <-(on_answer cfg e f s1). unfold s2.
    by destruct (on cfg e (JFn f) s1).
  - apply filter_eq_NoDup; [by apply listeners_NoDup|done].
  - intros args out n fuel Hq Hbefore Hfuel.
    assert (listeners e s2 ≠ []) as Hne.
    { intros Hnil. rewrite Hnil in Hf2. by apply elem_of_nil in Hf2. }
    pose proof (emit_quiet cfg e args out n fuel s2 Hne Hq Hfuel) as Hemit.
    pose proof (deliver_called_once cfg e out (listeners e s2) f
                  (listeners_NoDup e s2 Hok2) Hf2 Hbefore) as Hone.
    destruct (deliver cfg e out (listeners e s2)) as [[c rp] a].
    eexists _, _, c. split; [exact Hemit|]. split; [done|exact Hone].
  - intros e' Hne s3 s4.
    assert (reg_ok s3) as Hok3 by by apply reg_ok_on.
    split_and!.
    + by apply on_elem.
    + by apply on_listeners_ne.
    + unfold s4. rewrite off_listeners by done.
      rewrite list_elem_of_filter. by intros [? _].
    + unfold s4. rewrite off_listeners_ne by done. by apply on_listeners_ne.
  - intros g Hne s3 s4.
    assert (reg_ok s3) as Hok3 by by apply reg_ok_on.
    assert (f ∈ listeners e s3) as Hf3.
    { unfold s3. rewrite on_listeners by done. case_decide; [done|].
      apply elem_of_app. by left. }
    split_and!; [done|by apply on_elem| |].
    + unfold s4. rewrite off_listeners by done.
      apply list_elem_of_filter. split; [congruence|done].
    + unfold s4. rewrite off_listeners by done.
      rewrite list_elem_of_filter. by intros [? _].
Qed.

Lemma on_twice_witness :
  ∃ s1 s2,
    on Scenario4.cfg Scenario.test (JFn (User 1)) initial = (s1, AHandle 0)
    ∧ on Scenario4.cfg Scenario.test (JFn (User 1)) s1 = (s2, AHandle 1)
    ∧ map s2 = map s1 ∧ sets s2 = sets s1
    ∧ listeners Scenario.test s2 = [User 1]
    ∧ ∃ s3 r,
        emit Scenario4.cfg (run Scenario4.cfg 1) 2 Scenario.test [42] s2
        = Some (s3, r)
        ∧ calls_log s3 = [(User 1, [42])].
Proof.
  destruct (on_twice Scenario4.cfg Scenario.test (User 1) initial reg_ok_initial)
    as (s1 & s2 & h1 & h2 & H1 & H2 & Hm & Hs & _).
  exists s1, s2.
  assert (s1 = (on Scenario4.cfg Scenario.test (JFn (User 1)) initial).1) as Hs1
    by by rewrite H1.
  assert (s2 = (on Scenario4.cfg Scenario.test (JFn (User 1)) s1).1) as Hs2
    by by rewrite H2.
  split; [rewrite H1; f_equal; f_equal; by injection H1 as _ <-|].
  split; [rewrite H2; f_equal; f_equal; subst s1; by injection H2 as _ <-|].
  split; [done|]. split; [done|]. subst s2 s1.
  split; [reflexivity|].
  eexists _, _. split; [vm_compute; reflexivity|reflexivity].
Defined.

(** ** A registration of [once] that was removed never fires again *)

Lemma fired_app f log1 log2 : fired f (log1 ++ log2) = fired f log1 + fired f log2.
Proof. unfold fired. by rewrite filter_app, length_app. Qed.

Lemma fired_log_call_ne f g args s :
  g ≠ f → fired f (calls_log (log_call g args s)) = fired f (calls_log s).
Proof.
  intros Hne. simpl. rewrite fired_app. unfold fired at 2.
  rewrite filter_cons_False by done. simpl. lia.
Qed.

Lemma fired_log_call_eq f args s :
  fired f (calls_log (log_call f args s)) = S (fired f (calls_log s)).
Proof.
  simpl. rewrite fired_app. unfold fired at 2.
  rewrite filter_cons_True by done. simpl. lia.
Qed.

Section Gone.

Context (cfg : config) (h : nat) (f : fn) (k : nat).

Lemma gone_ext s s' :
  sets s' = sets s → handles s' = handles s → calls_log s' = calls_log s →
  gone h f k s → gone h f k s'.
Proof.
  intros Hs Hh Hc [H1 H2 H3 H4].
  split; unfold set_at in *; rewrite ?Hs, ?Hh, ?Hc; done.
Qed.

Lemma gone_on e g s :
  flat g → g ≠ Adapter h f → gone h f k s → gone h f k (on cfg e (JFn g) s).1.
Proof.
  intros Hflat Hne [H1 H2 H3 H4]. unfold on. simpl.
  set (s1 := call_trace cfg _ _ _ s).
  destruct (logs_add e g s1) as (_ & _ & Hc).
  split; simpl; rewrite ?set_at_with_handles, ?handles_add, ?Hc; simpl.
  - intros a g' [Hg|[-> _]]%elem_of_add; [by eapply H1|done].
  - intros a [Hg|[Heq _]]%elem_of_add; [by eapply H2|done].
  - rewrite length_app. simpl. lia.
  - done.
Qed.

Lemma gone_remove e g s :
  gone h f k s → gone h f k (remove e g s).1.
Proof.
  intros [H1 H2 H3 H4].
  destruct (logs_remove e g s) as (_ & _ & Hc).
  split; rewrite ?handles_remove, ?Hc; try done.
  - intros a g' [Hg _]%elem_of_remove. by eapply H1.
  - intros a [Hg _]%elem_of_remove. by eapply H2.
Qed.

Lemma gone_unsubscribe h' s :
  gone h f k s → gone h f k (unsubscribe h' s).1.
Proof.
  intros Hg. unfold unsubscribe.
  destruct (handles s !! h') as [c|] eqn:Hc; [|done].
  destruct (active c); [|done].
  apply gone_remove. destruct Hg as [H1 H2 H3 H4].
  split; simpl; try done. by rewrite length_insert.
Qed.

Lemma run_gone n p s s' o :
  gone h f k s → run cfg n p s = Some (s', o) → gone h f k s'.
Proof.
  apply (run_preserves cfg (gone h f k) (λ g, flat g ∧ g ≠ Adapter h f)).
  - intros h' g [Hflat _]. split; [by eapply flat_inner|].
    destruct g; [done|by destruct Hflat].
  - intros s0 a g [H1 H2 _ _] Hg. split; [by eapply H1|].
    intros ->. by eapply H2.
  - intros. by apply (gone_ext s0).
  - intros. by apply (gone_ext s0).
  - intros s0 g args [H1 H2 H3 H4] [_ Hne]. split; try done.
    by rewrite fired_log_call_ne.
  - intros. by apply gone_on.
  - intros s0 e id Hg. apply gone_on; [done| |done].
    intros [= Heq _]. destruct Hg as [_ _ H3 _]. lia.
  - intros s0 e id Hg. unfold off. simpl.
    set (s1 := call_trace cfg _ _ _ s0).
    pose proof (gone_remove e (User id) s1) as Hr.
    destruct (remove e (User id) s1) as [s2 d]. simpl in *.
    apply Hr. by apply (gone_ext s0).
  - intros. by apply gone_unsubscribe.
Qed.

End Gone.

(** ** A [Set] that left the registry stays as it is *)

Lemma dead_ext a l s s' :
  map s' = map s → sets s' = sets s → dead a l s → dead a l s'.
Proof. intros Hm Hs [H1 H2]. split; rewrite ?Hm, ?Hs; done. Qed.

Lemma dead_add a l e g s : dead a l s → dead a l (add e g s).
Proof.
  intros [H1 H2]. pose proof (lookup_lt_Some _ _ _ H1) as Hlt.
  unfold add. destruct (map s !! e) as [a0|] eqn:He.
  - split; simpl; [|done].
    rewrite list_lookup_insert_ne; [done|]. intros ->. by eapply H2.
  - split; simpl.
    + by rewrite lookup_app_l.
    + intros e'. destruct (decide (e = e')) as [->|Hne].
      * rewrite lookup_insert_eq. intros [= Heq]. lia.
      * rewrite lookup_insert_ne by done. apply H2.
Qed.

Lemma dead_remove a l e g s : dead a l s → dead a l (remove e g s).1.
Proof.
  intros [H1 H2]. split.
  - unfold remove. destruct (map s !! e) as [a0|] eqn:He; [|done].
    assert (a0 ≠ a) as Hne by (intros ->; by eapply H2).
    destruct (size _ =? 0); simpl; by rewrite list_lookup_insert_ne.
  - intros e' He'. apply map_remove in He'. by eapply H2.
Qed.

Lemma run_dead cfg a l n p s s' o :
  dead a l s → run cfg n p s = Some (s', o) → dead a l s'.
Proof.
  apply (run_preserves cfg (dead a l) (λ _, True)); try done.
  - intros s0 e id H. unfold on. simpl.
    apply (dead_ext a l (add e (User id)
      (call_trace cfg (or_hook (trace cfg) (g_trace (globalOptions cfg))) "on"
         (PSubscription e (User id)) s0))); [done..|].
    apply dead_add. by apply (dead_ext a l s0).
  - intros s0 e id H. unfold once, on. simpl.
    apply (dead_ext a l (add e (Adapter (length (handles s0)) (User id))
      (call_trace cfg (or_hook (trace cfg) (g_trace (globalOptions cfg))) "on"
         (PSubscription e (Adapter (length (handles s0)) (User id))) s0)));
      [done..|].
    apply dead_add. by apply (dead_ext a l s0).
  - intros s0 e id H. unfold off. simpl.
    set (s1 := call_trace cfg _ _ _ s0).
    pose proof (dead_remove a l e (User id) s1) as Hr.
    destruct (remove e (User id) s1) as [s2 d]. simpl in *.
    apply Hr. by apply (dead_ext a l s0).
  - intros s0 h H. unfold unsubscribe.
    destruct (handles s0 !! h) as [c|]; [|done].
    destruct (active c); [|done].
    apply dead_remove. by apply (dead_ext a l s0).
Qed.

Lemma elements_drop_nil (l : list (option fn)) (i : nat) :
  elements l = [] → elements (drop i l) = [].
Proof.
  intros H. rewrite <-(take_drop i l), elements_app in H.
  by apply app_eq_nil in H as [_ ?].
Qed.

(** ** The handle of a pending [once] registration *)

Lemma unsubscribe_pending (h : nat) (f : fn) (e : event) (a : nat) (s : state) :
  inv s → map s !! e = Some a → elements (set_at a s) = [Adapter h f] →
  let s1 := (unsubscribe h s).1 in
  dead a (set_delete (Adapter h f) (set_at a s)) s1
  ∧ (∀ b, Adapter h f ∉ elements (set_at b s1))
  ∧ handles s !! h = Some (Handle e (Adapter h f) true)
  ∧ h < length (handles s1)
  ∧ calls_log s1 = calls_log s
  ∧ map s1 !! e = None.
Proof.
  intros [Hok Had] He Hel s1.
  assert (Adapter h f ∈ elements (set_at a s)) as HA by (rewrite Hel; left).
  destruct (ad_live s Had a h f HA) as (e' & Hh & He').
  assert (e' = e) as -> by by eapply (ok_inj s Hok).
  destruct (ok_entry s Hok e a He) as [Ha _].
  assert (elements (set_delete (Adapter h f) (set_at a s)) = []) as Hnil.
  { rewrite elements_set_delete, Hel. by rewrite filter_cons_False by naive_solver. }
  assert (s1 = with_map
            (with_sets
               (with_handles s (<[h := Handle e (Adapter h f) false]> (handles s)))
               (<[a := set_delete (Adapter h f) (set_at a s)]> (sets s)))
            (delete e (map s))) as Hs1.
  { unfold s1. rewrite (unsubscribe_active h e (Adapter h f) s Hh).
    unfold remove. simpl. rewrite He.
    change (set_at a (with_handles s _)) with (set_at a s).
    unfold size. by rewrite Hnil. }
  split_and!; [| |done| |by rewrite Hs1|].
  3:{ rewrite Hs1. simpl. rewrite length_insert. by eapply lookup_lt_Some. }
  3:{ rewrite Hs1. simpl. apply lookup_delete_eq. }
  - rewrite Hs1. split; simpl.
    + by rewrite list_lookup_insert_eq.
    + intros e'. destruct (decide (e = e')) as [->|Hne].
      * by rewrite lookup_delete_eq.
      * rewrite lookup_delete_ne by done. intros He''.
        apply Hne. by eapply (ok_inj s Hok).
  - intros b Hb. rewrite Hs1, set_at_with_map in Hb.
    change (with_sets (with_handles s ?hs) ?ss) with (with_handles (with_sets s ss) hs) in Hb.
    rewrite set_at_with_handles, set_at_insert in Hb by done.
    case_decide as Hab; [by rewrite Hnil in Hb; apply elem_of_nil in Hb|].
    destruct (ad_live s Had b h f Hb) as (e2 & Hh2 & He2).
    rewrite Hh in Hh2. simplify_eq.
Qed.

(** ** The arrow of [once] *)

Lemma apply_adapter cfg rec h g args s :
  apply cfg rec (Adapter h g) args s
  = let '(s1, _) := unsubscribe h (log_call (Adapter h g) args s) in
    match apply cfg rec g args s1 with
    | Some (s2, Returns _) => Some (s2, Returns Plain)
    | r => r
    end.
Proof. done. Qed.

(** ** Name collisions on the host *)

Lemma collision_first (before : list Host.capability) (c : Host.capability)
    (later : list Host.capability) (o : Host.obj) :
  (∀ c', c' ∈ before → Host.has_property (Host.name c') o = false) →
  Host.has_property (Host.name c) o = true →
  Host.collision (before ++ c :: later) o
  = Some (Host.already_exists (Host.name c)).
Proof.
  intros Hbefore Hc. induction before as [|x before IH]; simpl.
  - by rewrite Hc.
  - rewrite (Hbefore x) by left. apply IH. intros c' Hc'. apply Hbefore. by right.
Qed.

(** X3.  The names [on], [once], [off], [emit], [has] are looked for in this
    order, own or inherited.  A host that has [c], and none of the names
    before [c] in that order, is rejected with the [Error] that names [c],
    and is left as it was: the first name present is the one reported,
    whatever later names the host has as well. *)
Theorem eventful_collision (before : list Host.capability)
    (c : Host.capability) (later : list Host.capability) (o : Host.obj) :
  [Host.On; Host.Once; Host.Off; Host.Emit; Host.Has] = before ++ c :: later →
  (∀ c', c' ∈ before → Host.has_property (Host.name c') o = false) →
  Host.has_property (Host.name c) o = true →
  Host.eventful (Host.Object o)
  = Host.Raised (Host.already_exists (Host.name c)) (Host.Object o)
  ∧ Host.eventful (Host.Function o)
    = Host.Raised (Host.already_exists (Host.name c)) (Host.Function o).
Proof.
  intros Horder Hbefore Hc.
  pose proof (collision_first before c later o Hbefore Hc) as Hcol.
  rewrite <-Horder in Hcol.
  change (Host.collision Host.checked o
          = Some (Host.already_exists (Host.name c))) in Hcol.
  unfold Host.eventful. cbn [Host.isObject Host.isFunction negb andb].
  by rewrite Hcol.
Qed.

(** A host whose own [emitAsync] is not configurable passes the name check
    as well; [Object.defineProperties] then throws at [emitAsync], after
    [on], [once], [off] and [emit] were attached. *)
Lemma eventful_partial_attach :
  ∃ o', Host.eventful (Host.Object Scenario2.sealed)
        = Host.Raised (TypeError "Cannot define property") (Host.Object o')
    ∧ Host.own o' !! "on" = Some (Host.descriptor Host.On)
    ∧ Host.own o' !! "emit" = Some (Host.descriptor Host.Emit)
    ∧ Host.own o' !! "emitAsync"
      = Some (Host.Property (Host.Foreign 0) false false false)
    ∧ Host.own o' !! "has" = None.
Proof. eexists. split; [reflexivity|]. repeat split. Qed.

(** C2, at a host that already has [emitAsync]: [eventful] does not throw,
    and the host's [emitAsync] is replaced by the emitter's. *)
Theorem eventful_overwrites_emitAsync :
  Host.has_property "emitAsync" Scenario2.host = true
  ∧ Host.own Scenario2.host !! "emitAsync"
    = Some (Host.Property (Host.Foreign 0) true true true)
  ∧ ∃ o', Host.eventful (Host.Object Scenario2.host) = Host.Returned (Host.Object o')
      ∧ Host.own o' !! "emitAsync" = Some (Host.descriptor Host.EmitAsync).
Proof.
  split; [reflexivity|]. split; [reflexivity|].
  eexists. split; [reflexivity|]. reflexivity.
Qed.

(** ** [emitAsync] with listeners that do not call the emitter *)

Section AsyncDelivery.

Context (cfg : config) (e : event) (args : list nat) (out : fn → outcome).

Lemma settle_quiet f s :
  settle cfg e f (out f) s
  = (after args s [] (from_option (λ x, [x]) [] (report cfg e out f)),
     completion_of (out f)).
Proof.
  unfold report. destruct (out f) as [[|[err|]]|err]; simpl;
    rewrite ?after_nil; try done.
  unfold after, call_error. simpl. by rewrite app_nil_r.
Qed.

Lemma emitAsync_map_quiet n ls s :
  (∀ f, f ∈ ls → quiet cfg args out f) →
  emitAsync_map cfg (run cfg (S n)) ls e args s
  = Some (after args s ls (omap (report cfg e out) ls),
          (λ f, completion_of (out f)) <$> ls).
Proof.
  revert s. induction ls as [|f ls IH]; intros s Hq.
  - simpl. by rewrite after_nil.
  - cbn [emitAsync_map].
    rewrite (apply_quiet cfg args out n f s) by (apply Hq; left).
    rewrite settle_quiet. rewrite IH by (intros; apply Hq; by right).
    f_equal. f_equal. rewrite after_after, after_log_call. f_equal.
    simpl. by destruct (report cfg e out f).
Qed.

(** X1.  When no listener of [e] calls the emitter, [emitAsync] calls them
    all, in insertion order and with [args]; the error hook is called for
    the listeners that throw while they are called, with the error and
    [{object, event, listener}], and for no other: a listener whose promise
    rejects later is not reported. *)
Theorem emitAsync_quiet n s :
  (∀ f, f ∈ listeners e s → quiet cfg args out f) →
  emitAsync cfg (run cfg (S n)) e args s
  = Some (after args
            (call_trace cfg (or_hook (trace cfg) (g_trace (globalOptions cfg)))
               "emitAsync" (PEmission (listeners e s) e args) s)
            (listeners e s) (omap (report cfg e out) (listeners e s)),
          APromise ((λ f, completion_of (out f)) <$> listeners e s)).
Proof.
  intros Hq. unfold emitAsync. rewrite set_at_call_trace.
  fold (listeners e s).
  destruct (size _ =? 0) eqn:Hz.
  - apply Nat.eqb_eq, size_zero_elements in Hz. fold (listeners e s) in Hz.
    rewrite Hz. simpl. by rewrite after_nil.
  - by rewrite emitAsync_map_quiet.
Qed.

End AsyncDelivery.

(** C1, at a listener that returns a promise which rejects: [emitAsync]
    does not call the error hook, while it does for a listener that throws. *)
Theorem emitAsync_rejection_unreported :
  (∃ s', emitAsync Scenario1.cfg (run Scenario1.cfg 1) Scenario.test []
           Scenario1.s_async
         = Some (s', APromise [RejectsLater (Thrown 9)])
     ∧ calls_log s' = [(User 1, [])]
     ∧ error_log s' = []
     ∧ emitAsync_rejects Scenario1.cfg (APromise [RejectsLater (Thrown 9)]) = false)
  ∧ (∃ s', emitAsync Scenario1.cfg (run Scenario1.cfg 1) Scenario.test []
             Scenario1.s_sync
           = Some (s', APromise [RejectsInExecutor (Thrown 7)])
     ∧ error_log s'
       = [ErrorCall (GlobalHook 0) (Thrown 7) (Context 0 Scenario.test (User 2))]).
Proof.
  split; eexists; (split; [vm_compute; reflexivity|]);
    [split; [|split]|]; reflexivity.
Qed.

(** C7, at two [once] listeners of ["test"] the first of which emits
    ["test"] again: one [emitAsync("test")] calls the second one twice. *)
Theorem once_fires_twice :
  ∃ s o,
    run Scenario7.cfg 10 Scenario.prog_nested initial = Some (s, o)
    ∧ fired (Adapter 1 (User 2)) (calls_log s) = 2
    ∧ fired (User 2) (calls_log s) = 2.
Proof.
  eexists _, _. split; [vm_compute; reflexivity|]. split; reflexivity.
Qed.

(** ** Cancelling a [once] registration before it fires *)

Lemma calls_log_on cfg e f s : calls_log (on cfg e (JFn f) s).1 = calls_log s.
Proof.
  unfold on. simpl.
  by destruct (logs_add e f
    (call_trace cfg (or_hook (trace cfg) (g_trace (globalOptions cfg))) "on"
       (PSubscription e f) s)) as (_ & _ & ->).
Qed.

Lemma calls_log_unsubscribe h s : calls_log (unsubscribe h s).1 = calls_log s.
Proof.
  unfold unsubscribe. destruct (handles s !! h) as [c|]; [|done].
  destruct (active c); [|done].
  by destruct (logs_remove (h_event c) (h_listener c)
    (with_handles s (<[h:=Handle (h_event c) (h_listener c) false]> (handles s))))
    as (_ & _ & ->).
Qed.

Lemma unsubscribe_adapter_absent (h : nat) (f : fn) (e : event) (s : state) :
  inv s → handles s !! h = Some (Handle e (Adapter h f) true) →
  ∀ b, Adapter h f ∉ elements (set_at b (unsubscribe h s).1).
Proof.
  intros [Hok Had] Hh b Hb.
  rewrite (unsubscribe_active h e (Adapter h f) s Hh) in Hb.
  apply elem_of_remove in Hb as [Hb Hne].
  rewrite set_at_with_handles in Hb.
  destruct (ad_live s Had b h f Hb) as (e' & Hh' & He').
  rewrite Hh in Hh'. simplify_eq. by apply Hne.
Qed.


(** ** Registrations of [once] under synchronous emission *)

Lemma elem_of_unsubscribe (h : nat) (g : fn) (b : nat) (s : state) :
  g ∈ elements (set_at b (unsubscribe h s).1) → g ∈ elements (set_at b s).
Proof.
  unfold unsubscribe. destruct (handles s !! h) as [c|]; [|done].
  destruct (active c); [|done]. by intros [? _]%elem_of_remove.
Qed.

Lemma length_handles_unsubscribe (h : nat) (s : state) :
  length (handles (unsubscribe h s).1) = length (handles s).
Proof.
  unfold unsubscribe. destruct (handles s !! h) as [c|]; [|done].
  destruct (active c); [|done]. rewrite handles_remove. simpl.
  by rewrite length_insert.
Qed.

Section Sync.

Context (cfg : config).

Hypothesis body_sync : ∀ id hist args, sync (body cfg id hist args).

Variable P : state → Prop.

Hypothesis P_flat : ∀ s a g, P s → g ∈ elements (set_at a s) → flat g.
Hypothesis P_trace : ∀ s h act p, P s → P (call_trace cfg h act p s).
Hypothesis P_error : ∀ s err c, P s → P (call_error cfg err c s).
Hypothesis P_user : ∀ s id args, P s → P (log_call (User id) args s).
Hypothesis P_adapter :
  ∀ s a h g args, P s → Adapter h g ∈ elements (set_at a s) →
    P (unsubscribe h (log_call (Adapter h g) args s)).1.
Hypothesis P_on : ∀ s e id, P s → P (on cfg e (JFn (User id)) s).1.
Hypothesis P_once : ∀ s e id, P s → P (once cfg e (JFn (User id)) s).1.
Hypothesis P_off : ∀ s e id, P s → P (off cfg e (JFn (User id)) s).1.
Hypothesis P_unsubscribe : ∀ s h, P s → P (unsubscribe h s).1.

Lemma apply_sync rec a g args s s' o :
  preserves_sync P rec → P s → g ∈ elements (set_at a s) →
  apply cfg rec g args s = Some (s', o) → P s'.
Proof using body_sync P_flat P_user P_adapter.
  intros Hrec HP Hg Happ. pose proof (P_flat s a g HP Hg) as Hflat.
  destruct g as [id|h [id|h' g']]; [| |done].
  - unfold apply, apply_user in Happ.
    eapply Hrec; [apply body_sync| |exact Happ]. by apply P_user.
  - rewrite apply_adapter in Happ.
    pose proof (P_adapter s a h (User id) args HP Hg) as HP1.
    destruct (unsubscribe h (log_call (Adapter h (User id)) args s)) as [s1 b].
    simpl in HP1. unfold apply, apply_user in Happ.
    destruct (rec _ _) as [[s2 [v|err]]|] eqn:Hbody; simplify_eq.
    + eapply Hrec; [apply body_sync| |exact Hbody]. by apply P_user.
    + eapply Hrec; [apply body_sync| |exact Hbody]. by apply P_user.
Qed.

Lemma emit_loop_sync rec fuel a i e args s s' r :
  preserves_sync P rec → P s →
  emit_loop cfg rec fuel a i e args s = Some (s', r) → P s'.
Proof using body_sync P_flat P_error P_user P_adapter.
  intros Hrec. revert i s s' r.
  induction fuel as [|fuel IH]; intros i s s' r HP Hloop; [done|].
  cbn [emit_loop] in Hloop.
  destruct (set_at a s !! i) as [[g|]|] eqn:Hi; simplify_eq; [|by eauto|done].
  assert (g ∈ elements (set_at a s)) as Hg by by eapply lookup_elements.
  destruct (apply cfg rec g args s) as [[s1 [v|err]]|] eqn:Happ; [| |done].
  - eapply IH; [|done]. eapply apply_sync; eauto.
  - assert (P s1) as HP1 by (eapply apply_sync; eauto).
    destruct (strict cfg); simplify_eq; eauto.
Qed.

Lemma exec_sync rec fuel c s s' r :
  preserves_sync P rec → (∀ e args, c ≠ CEmitAsync e args) → P s →
  exec cfg rec fuel c s = Some (s', r) → P s'.
Proof using All.
  intros Hrec Hc HP. destruct c as [e v|e v|e v|e|e args|e args|h]; simpl.
  - intros [= Hon]. destruct v; [|by injection Hon as <- _].
    replace s' with (on cfg e (JFn (User id)) s).1 by exact (f_equal fst Hon).
    by apply P_on.
  - intros [= Hon]. destruct v; [|by injection Hon as <- _].
    replace s' with (once cfg e (JFn (User id)) s).1 by exact (f_equal fst Hon).
    by apply P_once.
  - intros [= Hoff]. destruct v; [|by injection Hoff as <- _].
    replace s' with (off cfg e (JFn (User id)) s).1 by exact (f_equal fst Hoff).
    by apply P_off.
  - by intros [= <- <-].
  - unfold emit. destruct (size _ =? 0).
    + intros [= <- <-]. by apply P_trace.
    + apply emit_loop_sync; [done|]. by apply P_trace.
  - by destruct (Hc e args).
  - destruct (unsubscribe h s) as [s1 b] eqn:Hu. intros [= <- <-].
    replace s1 with (unsubscribe h s).1 by by rewrite Hu.
    by apply P_unsubscribe.
Qed.

Lemma run_sync n : preserves_sync P (run cfg n).
Proof using All.
  induction n as [|n IH]; intros p s s' o Hp HP Hrun; simpl in Hrun; [done|].
  destruct Hp as [o'|c k Hc Hk]; [by simplify_eq|].
  destruct (exec cfg (run cfg n) n c s) as [[s1 a]|] eqn:Hexec; [|done].
  eapply IH; [apply Hk| |exact Hrun]. eapply exec_sync; eauto.
Qed.

End Sync.

Section AtMostOnce.

Context (cfg : config) (h : nat) (f : fn).

Lemma once_ok_ext s s' :
  sets s' = sets s → handles s' = handles s → calls_log s' = calls_log s →
  once_ok h f s → once_ok h f s'.
Proof.
  intros Hs Hh Hc [H1 H2 H3].
  split; unfold set_at in *; rewrite ?Hs, ?Hh, ?Hc; done.
Qed.

Lemma once_ok_log_user id args s :
  once_ok h f s → once_ok h f (log_call (User id) args s).
Proof.
  intros [H1 H2 H3]. split; rewrite fired_log_call_ne by done; done.
Qed.

Lemma once_ok_adapter a h' g args s :
  inv s → once_ok h f s → Adapter h' g ∈ elements (set_at a s) →
  once_ok h f (unsubscribe h' (log_call (Adapter h' g) args s)).1.
Proof.
  intros Hinv [H1 H2 H3] Hg.
  destruct (ad_live s (proj2 Hinv) a h' g Hg) as (e & Hh' & He).
  destruct (decide (Adapter h' g = Adapter h f)) as [[= -> ->]|Hne].
  - assert (fired (Adapter h f)
              (calls_log (unsubscribe h (log_call (Adapter h f) args s)).1) = 1)
      as Hone.
    { rewrite calls_log_unsubscribe, fired_log_call_eq. by rewrite (H2 a). }
    split; rewrite ?Hone; [|by intros b
      ?%(unsubscribe_adapter_absent h f e (log_call (Adapter h f) args s))
         ; [|by apply (inv_ext s)|]|lia].
    rewrite length_handles_unsubscribe. simpl.
    pose proof (lookup_lt_Some _ _ _ Hh'). lia.
  - assert (fired (Adapter h f)
              (calls_log (unsubscribe h' (log_call (Adapter h' g) args s)).1)
            = fired (Adapter h f) (calls_log s)) as Hsame.
    { rewrite calls_log_unsubscribe. by apply fired_log_call_ne. }
    split; rewrite Hsame; [| |done].
    + by rewrite length_handles_unsubscribe.
    + intros b Hb%elem_of_unsubscribe. by apply (H2 b).
Qed.

Lemma once_ok_on e g s :
  (g = Adapter h f → length (handles s) ≤ h) →
  once_ok h f s → once_ok h f (on cfg e (JFn g) s).1.
Proof.
  intros Hg [H1 H2 H3]. split; rewrite calls_log_on; [| |done].
  - unfold on. simpl. rewrite handles_add. simpl. rewrite length_app. simpl.
    intros Hlen. apply H1. lia.
  - intros b. unfold on. simpl. rewrite set_at_with_handles.
    intros [Hb|[Heq _]]%elem_of_add; [by apply (H2 b)|].
    apply H1. by apply Hg.
Qed.

Lemma once_ok_remove e g s :
  once_ok h f s → once_ok h f (remove e g s).1.
Proof.
  intros [H1 H2 H3]. destruct (logs_remove e g s) as (_ & _ & Hc).
  split; rewrite Hc, ?handles_remove; [done| |done].
  intros b [Hb _]%elem_of_remove. by apply (H2 b).
Qed.

Lemma once_ok_unsubscribe h' s :
  once_ok h f s → once_ok h f (unsubscribe h' s).1.
Proof.
  intros Hok. unfold unsubscribe.
  destruct (handles s !! h') as [c|]; [|done].
  destruct (active c); [|done].
  apply once_ok_remove. destruct Hok as [H1 H2 H3].
  split; simpl; rewrite ?length_insert; done.
Qed.

Lemma run_once_ok n p s s' o :
  (∀ id hist args, sync (body cfg id hist args)) → sync p →
  inv s ∧ once_ok h f s → run cfg n p s = Some (s', o) →
  inv s' ∧ once_ok h f s'.
Proof.
  intros Hbody.
  apply (run_sync cfg Hbody (λ s, inv s ∧ once_ok h f s)).
  - intros s0 a g [[_ Had] _] Hg. by eapply ad_flat.
  - intros s0 h0 act p0 [H1 H2].
    split; [by apply (inv_ext s0)|by apply (once_ok_ext s0)].
  - intros s0 err c [H1 H2].
    split; [by apply (inv_ext s0)|by apply (once_ok_ext s0)].
  - intros s0 id args [H1 H2].
    split; [by apply (inv_ext s0)|by apply once_ok_log_user].
  - intros s0 a h' g args [H1 H2] Hg. split.
    + apply inv_unsubscribe. by apply (inv_ext s0).
    + by apply (once_ok_adapter a).
  - intros s0 e id [H1 H2]. split; [by apply inv_on|by apply once_ok_on].
  - intros s0 e id [H1 H2]. split; [by apply inv_once|].
    apply once_ok_on; [|done]. by intros [= <- _].
  - intros s0 e id [H1 H2]. split; [by apply inv_off|].
    unfold off. simpl.
    set (s1 := call_trace cfg _ _ _ s0).
    pose proof (once_ok_remove e (User id) s1) as Hr.
    destruct (remove e (User id) s1) as [s2 d]. simpl in *.
    apply Hr. by apply (once_ok_ext s0).
  - intros s0 h' [H1 H2].
    split; [by apply inv_unsubscribe|by apply once_ok_unsubscribe].
Qed.

End AtMostOnce.

(** X4.  Under synchronous emission the arrow of a [once] registration is
    called at most once: after any client code that never calls [emitAsync], run on
    a fresh emitter whose listeners never call it either, no arrow
    [Adapter h f] was called twice, however the emissions are nested. *)
Theorem once_at_most_once_sync (cfg : config) (n : nat) (p : prog)
    (s : state) (o : outcome) :
  (∀ id hist args, sync (body cfg id hist args)) → sync p →
  run cfg n p initial = Some (s, o) →
  ∀ h f, fired (Adapter h f) (calls_log s) ≤ 1.
Proof.
  intros Hbody Hp Hrun h f.
  destruct (run_once_ok cfg h f n p initial s o Hbody Hp) as [_ [_ _ H]];
    [|done|done].
  split; [apply inv_initial|]. split; simpl; intros; unfold fired; simpl; lia.
Qed.

Lemma sync_body_nested id hist args : sync (Scenario.body_nested id hist args).
Proof.
  destruct id as [|[|id]]; simpl; repeat (constructor; try done).
Qed.

Lemma once_at_most_once_sync_witness :
  ∃ s o,
    run Scenario7.cfg 10 Scenario.prog_nested_sync initial = Some (s, o)
    ∧ fired (Adapter 1 (User 2)) (calls_log s) = 1
    ∧ ∀ h f, fired (Adapter h f) (calls_log s) ≤ 1.
Proof.
  eexists _, _. split; [vm_compute; reflexivity|]. split; [reflexivity|].
  apply (once_at_most_once_sync Scenario7.cfg 10 Scenario.prog_nested_sync
           _ (Returns Plain)).
  - apply sync_body_nested.
  - repeat (constructor; try done).
  - vm_compute. reflexivity.
Defined.


Lemma emitAsync_quiet_witness :
  ∃ s',
    emitAsync Scenario4.cfg (run Scenario4.cfg 1) Scenario.test [42] Scenario3.s3
    = Some (s', APromise [Fulfils; RejectsInExecutor (Thrown 7); Fulfils])
    ∧ calls_log s' = [(User 1, [42]); (User 2, [42]); (User 3, [42])]
    ∧ error_log s'
      = [ErrorCall (GlobalHook 0) (Thrown 7) (Context 0 Scenario.test (User 2))].
Proof.
  eexists. split.
  { rewrite (emitAsync_quiet Scenario4.cfg Scenario.test [42] Scenario3.out3 0
               Scenario3.s3); [reflexivity|].
    intros f. by apply quiet3. }
  split; reflexivity.
Defined.

Lemma eventful_collision_witness :
  let o := {| Host.own := {[ "once" := Host.Property (Host.Foreign 0) true true true ]};
              Host.inherited := {[ "emit" ]}; Host.extensible := true |} in
  Host.has_property "emit" o = true
  ∧ Host.eventful (Host.Object o)
    = Host.Raised (Host.already_exists "once") (Host.Object o)
  ∧ Host.eventful (Host.Function o)
    = Host.Raised (Host.already_exists "once") (Host.Function o).
Proof.
  split; [reflexivity|].
  apply (eventful_collision [Host.On] Host.Once [Host.Off; Host.Emit; Host.Has]);
    [reflexivity| |reflexivity].
  intros c' Hc'. apply list_elem_of_singleton in Hc'. by subst.
Defined.

(** ** More fuel gives the same result *)

Section Fuel.

Context (cfg : config).

Variables rec1 rec2 : prog → state → option (state * outcome).

Hypothesis rec_le : ∀ p s r, rec1 p s = Some r → rec2 p s = Some r.

Lemma apply_mono f args s r :
  apply cfg rec1 f args s = Some r → apply cfg rec2 f args s = Some r.
Proof using rec_le.
  revert s r. induction f as [id|h g IH]; intros s r.
  - apply rec_le.
  - rewrite !apply_adapter.
    destruct (unsubscribe h (log_call (Adapter h g) args s)) as [s1 b].
    destruct (apply cfg rec1 g args s1) as [[s2 o]|] eqn:H1; [|by destruct r].
    rewrite (IH _ _ H1). done.
Qed.

Lemma emit_loop_mono fuel1 fuel2 a i e args s r :
  fuel1 ≤ fuel2 →
  emit_loop cfg rec1 fuel1 a i e args s = Some r →
  emit_loop cfg rec2 fuel2 a i e args s = Some r.
Proof using rec_le.
  revert fuel2 i s r.
  induction fuel1 as [|fuel1 IH]; intros fuel2 i s r Hle; [done|].
  destruct fuel2 as [|fuel2]; [lia|]. cbn [emit_loop].
  destruct (set_at a s !! i) as [[g|]|]; [|apply IH; lia|done].
  destruct (apply cfg rec1 g args s) as [[s1 o]|] eqn:H1; [|done].
  rewrite (apply_mono _ _ _ _ H1).
  destruct o as [v|err]; [apply IH; lia|].
  destruct (strict cfg); [done|apply IH; lia].
Qed.

Lemma emitAsync_map_mono ls e args s r :
  emitAsync_map cfg rec1 ls e args s = Some r →
  emitAsync_map cfg rec2 ls e args s = Some r.
Proof using rec_le.
  revert s r. induction ls as [|g ls IH]; intros s r; [done|].
  cbn [emitAsync_map].
  destruct (apply cfg rec1 g args s) as [[s1 o]|] eqn:H1; [|done].
  rewrite (apply_mono _ _ _ _ H1).
  destruct (settle cfg e g o s1) as [s2 c].
  destruct (emitAsync_map cfg rec1 ls e args s2) as [r'|] eqn:H2; [|done].
  by rewrite (IH _ _ H2).
Qed.

Lemma exec_mono fuel1 fuel2 c s r :
  fuel1 ≤ fuel2 →
  exec cfg rec1 fuel1 c s = Some r → exec cfg rec2 fuel2 c s = Some r.
Proof using rec_le.
  intros Hle. destruct c as [e v|e v|e v|e|e args|e args|h]; try done.
  - unfold exec, emit. destruct (size _ =? 0); [done|].
    by apply emit_loop_mono.
  - unfold exec, emitAsync. destruct (size _ =? 0); [done|].
    destruct (emitAsync_map cfg rec1 _ e args _) as [r'|] eqn:H1; [|done].
    by rewrite (emitAsync_map_mono _ _ _ _ _ H1).
Qed.

End Fuel.

Lemma run_mono (cfg : config) (n m : nat) (p : prog) (s : state)
    (r : state * outcome) :
  n ≤ m → run cfg n p s = Some r → run cfg m p s = Some r.
Proof.
  revert m p s r. induction n as [|n IH]; intros m p s r Hle; [done|].
  destruct m as [|m]; [lia|]. simpl.
  destruct p as [o|c k]; [done|].
  destruct (exec cfg (run cfg n) n c s) as [[s1 a]|] eqn:H1; [|done].
  rewrite (exec_mono cfg (run cfg n) (run cfg m) (λ p s r, IH m p s r ltac:(lia))
             n m c s _ ltac:(lia) H1).
  apply IH. lia.
Qed.

(** * The operations in detail *)

(** ** What a caller sees of [on], [once], [off] and the handles *)

Lemma has_on cfg e f s : reg_ok s → has e (on cfg e (JFn f) s).1 = true.
Proof.
  intros Hok. apply has_listeners; [by apply reg_ok_on|].
  intros Hnil. pose proof (on_elem cfg e f s Hok) as Hin.
  rewrite Hnil in Hin. by apply elem_of_nil in Hin.
Qed.

Lemma logs_on cfg e f s :
  trace_log (on cfg e (JFn f) s).1
  = trace_log s ++ [TraceCall (or_hook (trace cfg) (g_trace (globalOptions cfg)))
                      (object cfg) "on" (PSubscription e f)]
  ∧ error_log (on cfg e (JFn f) s).1 = error_log s
  ∧ calls_log (on cfg e (JFn f) s).1 = calls_log s.
Proof.
  unfold on. simpl.
  destruct (logs_add e f
    (call_trace cfg (or_hook (trace cfg) (g_trace (globalOptions cfg))) "on"
       (PSubscription e f) s)) as (-> & -> & ->).
  done.
Qed.

Lemma handles_on cfg e f s :
  handles (on cfg e (JFn f) s).1 = handles s ++ [Handle e f true].
Proof. unfold on. simpl. by rewrite handles_add. Qed.

(** X6.  [on(e, f)] with [f] a function.  A listener that is new to [e] becomes
    the last listener of [e]; one that is registered keeps its place.  The
    listeners of every other event stay, [has(e)] is true afterwards, the
    trace hook is called once with ['on'] and [{event, listener}], and the
    handle returned is a new one, not yet used. *)
Theorem on_appends (cfg : config) (e : event) (f : fn) (s : state) :
  reg_ok s →
  let s1 := (on cfg e (JFn f) s).1 in
  (on cfg e (JFn f) s).2 = AHandle (length (handles s))
  ∧ handles s1 = handles s ++ [Handle e f true]
  ∧ (f ∉ listeners e s → listeners e s1 = listeners e s ++ [f])
  ∧ (f ∈ listeners e s → listeners e s1 = listeners e s)
  ∧ (∀ e', e' ≠ e → listeners e' s1 = listeners e' s)
  ∧ has e s1 = true
  ∧ trace_log s1
    = trace_log s ++ [TraceCall (or_hook (trace cfg) (g_trace (globalOptions cfg)))
                        (object cfg) "on" (PSubscription e f)]
  ∧ error_log s1 = error_log s
  ∧ calls_log s1 = calls_log s.
Proof.
  intros Hok s1. destruct (logs_on cfg e f s) as (Ht & He & Hc).
  split_and!; try done.
  - apply on_answer.
  - apply handles_on.
  - intros Hf. unfold s1. rewrite on_listeners by done. by rewrite decide_False.
  - intros Hf. unfold s1. rewrite on_listeners by done. by rewrite decide_True.
  - intros e' Hne. by apply on_listeners_ne.
  - by apply has_on.
Qed.

Lemma once_on cfg e f s :
  once cfg e (JFn f) s = on cfg e (JFn (Adapter (length (handles s)) f)) s.
Proof. done. Qed.

Lemma adapter_fresh (h : nat) (f : fn) (a : nat) (s : state) :
  adapters_ok s → length (handles s) ≤ h → Adapter h f ∉ elements (set_at a s).
Proof.
  intros Had Hle Hin. destruct (ad_live s Had a h f Hin) as (e & Hh & _).
  apply lookup_lt_Some in Hh. lia.
Qed.

(** X7.  [once(e, f)] always registers: the arrow it makes is a new function, so
    it becomes the last listener of [e] whether or not [f] or another
    [once(e, f)] is registered, and a second [once(e, f)] adds a second
    registration.  The trace hook is told ['on'] and the arrow, not [f]. *)
Theorem once_registers_anew (cfg : config) (e : event) (id : nat) (s : state) :
  inv s →
  let h := length (handles s) in
  let s1 := (once cfg e (JFn (User id)) s).1 in
  let s2 := (once cfg e (JFn (User id)) s1).1 in
  (once cfg e (JFn (User id)) s).2 = AHandle h
  ∧ listeners e s1 = listeners e s ++ [Adapter h (User id)]
  ∧ (once cfg e (JFn (User id)) s1).2 = AHandle (S h)
  ∧ listeners e s2
    = listeners e s ++ [Adapter h (User id); Adapter (S h) (User id)]
  ∧ (∀ e', e' ≠ e → listeners e' s2 = listeners e' s)
  ∧ trace_log s1
    = trace_log s ++ [TraceCall (or_hook (trace cfg) (g_trace (globalOptions cfg)))
                        (object cfg) "on" (PSubscription e (Adapter h (User id)))].
Proof.
  intros Hinv h s1 s2.
  assert (inv s1) as Hinv1 by by apply inv_once.
  assert (length (handles s1) = S h) as Hlen.
  { unfold s1. rewrite once_on, handles_on, length_app. simpl. lia. }
  assert (∀ s0 : state, inv s0 →
            listeners e (once cfg e (JFn (User id)) s0).1
            = listeners e s0 ++ [Adapter (length (handles s0)) (User id)]) as Hone.
  { intros s0 [Hok Had]. rewrite once_on, on_listeners by done.
    rewrite decide_False; [done|]. by apply adapter_fresh. }
  split_and!.
  - rewrite once_on. apply on_answer.
  - by apply Hone.
  - rewrite once_on, on_answer. by rewrite Hlen.
  - unfold s2. rewrite (Hone s1 Hinv1), Hlen. unfold s1.
    rewrite (Hone s Hinv). fold h. by rewrite <-app_assoc.
  - intros e' Hne. unfold s2. rewrite once_on.
    rewrite on_listeners_ne by (done || apply Hinv1).
    unfold s1. rewrite once_on. rewrite on_listeners_ne by (done || apply Hinv). done.
  - unfold s1. rewrite once_on. fold h.
    by destruct (logs_on cfg e (Adapter h (User id)) s) as (Ht & _).
Qed.

Lemma has_empty (e : event) (s : state) :
  reg_ok s → has e s = negb (bool_decide (listeners e s = [])).
Proof.
  intros Hok. pose proof (has_listeners e s Hok) as H.
  destruct (has e s); case_bool_decide; simpl; try done.
  - by destruct (proj1 H eq_refl).
  - destruct H as [_ H]. by specialize (H ltac:(done)).
Qed.

Lemma logs_off cfg e f s :
  trace_log (off cfg e (JFn f) s).1
  = trace_log s ++ [TraceCall (or_hook (trace cfg) (g_trace (eventful_options cfg)))
                      (object cfg) "off" (PSubscription e f)]
  ∧ error_log (off cfg e (JFn f) s).1 = error_log s
  ∧ calls_log (off cfg e (JFn f) s).1 = calls_log s.
Proof.
  unfold off. simpl.
  set (s1 := call_trace cfg _ _ _ s).
  pose proof (logs_remove e f s1) as H.
  destruct (remove e f s1) as [s2 d]. simpl in *.
  by destruct H as (-> & -> & ->).
Qed.

(** X8.  [off(e, f)] with [f] a function.  It answers whether [f] was a listener
    of [e]; afterwards the listeners of [e] are the former ones without [f],
    in their order, and the listeners of every other event stay.  The handles
    are not touched (a handle made for [f] is not used up), no listener is
    called, and the trace hook is called once with ['off'] and
    [{event, listener}], through [eventful.options] as it is at that time. *)
Theorem off_removes (cfg : config) (e : event) (f : fn) (s : state) :
  reg_ok s →
  let s1 := (off cfg e (JFn f) s).1 in
  (off cfg e (JFn f) s).2 = ABool (bool_decide (f ∈ listeners e s))
  ∧ listeners e s1 = filter (λ g, g ≠ f) (listeners e s)
  ∧ (∀ e', e' ≠ e → listeners e' s1 = listeners e' s)
  ∧ (listeners e s = [f] → has e s1 = false ∧ map s1 !! e = None)
  ∧ handles s1 = handles s
  ∧ trace_log s1
    = trace_log s ++ [TraceCall (or_hook (trace cfg) (g_trace (eventful_options cfg)))
                        (object cfg) "off" (PSubscription e f)]
  ∧ error_log s1 = error_log s
  ∧ calls_log s1 = calls_log s.
Proof.
  intros Hok s1. destruct (logs_off cfg e f s) as (Ht & He & Hc).
  destruct (off_spec cfg e f s Hok) as (s2 & Hoff & Hl & Hh & _).
  assert (s1 = s2) as Hs by (unfold s1; by rewrite Hoff). subst s2.
  assert (reg_ok s1) as Hok1 by by apply reg_ok_off.
  split_and!; try done.
  - by rewrite Hoff.
  - intros e' Hne. by apply off_listeners_ne.
  - intros Hone. rewrite Hone, filter_cons_False, filter_nil in Hl by naive_solver.
    split.
    + rewrite has_empty by done. by rewrite bool_decide_eq_true_2.
    + destruct (map s1 !! e) as [a|] eqn:Hm; [|done].
      destruct (ok_entry s1 Hok1 e a Hm) as [_ Hsz].
      rewrite (listeners_entry e a s1 Hm) in Hl. unfold size in Hsz.
      rewrite Hl in Hsz. simpl in Hsz. lia.
Qed.

Lemma filter_ne_absent (f : fn) (l : list fn) :
  f ∉ l → filter (λ g, g ≠ f) l = l.
Proof.
  induction l as [|x l IH]; intros Hf; [done|].
  rewrite filter_cons_True by (intros ->; apply Hf; left).
  f_equal. apply IH. intros Hin. apply Hf. by right.
Qed.

(** X9.  Subscribing and unsubscribing undo each other.  For [f] not registered
    under [e], [off(e, f)] after [on(e, f)] returns [true] and every event
    has the listeners it had before, in the same order; [has] answers as
    before. *)
Theorem on_off_round_trip (cfg : config) (e : event) (f : fn) (s : state) :
  reg_ok s → f ∉ listeners e s →
  let s1 := (on cfg e (JFn f) s).1 in
  let s2 := (off cfg e (JFn f) s1).1 in
  (off cfg e (JFn f) s1).2 = ABool true
  ∧ ∀ e', listeners e' s2 = listeners e' s ∧ has e' s2 = has e' s.
Proof.
  intros Hok Hf s1 s2.
  assert (reg_ok s1) as Hok1 by by apply reg_ok_on.
  assert (reg_ok s2) as Hok2 by by apply reg_ok_off.
  assert (listeners e s1 = listeners e s ++ [f]) as Hl1.
  { unfold s1. rewrite on_listeners by done. by rewrite decide_False. }
  destruct (off_spec cfg e f s1 Hok1) as (s2' & Hoff & Hl & _).
  assert (s2 = s2') as <- by (unfold s2; by rewrite Hoff).
  split.
  - rewrite Hoff, bool_decide_eq_true_2; [done|].
    rewrite Hl1. apply elem_of_app. right. left.
  - intros e'.
    assert (listeners e' s2 = listeners e' s) as Heq.
    { destruct (decide (e' = e)) as [->|Hne].
      - rewrite Hl, Hl1, filter_app, filter_ne_absent by done.
        rewrite filter_cons_False, filter_nil by naive_solver. apply app_nil_r.
      - unfold s2. rewrite off_listeners_ne by done. by apply on_listeners_ne. }
    split; [done|]. by rewrite !has_empty, Heq.
Qed.

(** X10.  Unsubscribing and subscribing again moves a listener to the end: for
    [f] registered under [e], [on(e, f)] after [off(e, f)] leaves [e] with
    its other listeners in their order, followed by [f]. *)
Theorem off_on_moves_last (cfg : config) (e : event) (f : fn) (s : state) :
  reg_ok s → f ∈ listeners e s →
  let s1 := (off cfg e (JFn f) s).1 in
  let s2 := (on cfg e (JFn f) s1).1 in
  (off cfg e (JFn f) s).2 = ABool true
  ∧ listeners e s2 = filter (λ g, g ≠ f) (listeners e s) ++ [f]
  ∧ ∀ e', e' ≠ e → listeners e' s2 = listeners e' s.
Proof.
  intros Hok Hf s1 s2.
  assert (reg_ok s1) as Hok1 by by apply reg_ok_off.
  destruct (off_spec cfg e f s Hok) as (s1' & Hoff & Hl & _).
  assert (s1 = s1') as <- by (unfold s1; by rewrite Hoff).
  split_and!.
  - by rewrite Hoff, bool_decide_eq_true_2.
  - unfold s2. rewrite on_listeners by done. rewrite Hl.
    rewrite decide_False; [done|]. rewrite list_elem_of_filter. by intros [? _].
  - intros e' Hne. unfold s2. rewrite on_listeners_ne by done.
    by apply off_listeners_ne.
Qed.

(** X11.  The closure returned by [on(e, f)], called for the first time.  It does
    what [remove(e, f)] does: it answers whether [f] is a listener of [e] at
    that time, so [false] when [off(e, f)] or another handle for the same
    registration removed [f] before, and the listeners of [e] are the former
    ones without [f].  It is used up either way, and it calls no hook. *)
Theorem handle_first_call (h : nat) (e : event) (f : fn) (s : state) :
  reg_ok s →
  handles s !! h = Some (Handle e f true) →
  let s1 := (unsubscribe h s).1 in
  (unsubscribe h s).2 = bool_decide (f ∈ listeners e s)
  ∧ listeners e s1 = filter (λ g, g ≠ f) (listeners e s)
  ∧ (∀ e', e' ≠ e → listeners e' s1 = listeners e' s)
  ∧ handles s1 = <[h := Handle e f false]> (handles s)
  ∧ unsubscribe h s1 = (s1, false)
  ∧ trace_log s1 = trace_log s
  ∧ error_log s1 = error_log s
  ∧ calls_log s1 = calls_log s.
Proof.
  intros Hok Hh s1.
  set (s0 := with_handles s (<[h := Handle e f false]> (handles s))).
  assert (reg_ok s0) as Hok0 by by apply (reg_ok_ext s).
  assert (unsubscribe h s = remove e f s0) as Hu
    by apply (unsubscribe_active h e f s Hh).
  assert (s1 = (remove e f s0).1) as Hs1 by (unfold s1; by rewrite Hu).
  destruct (logs_remove e f s0) as (Ht & He & Hc). rewrite <-Hs1 in Ht, He, Hc.
  assert (handles s1 = <[h := Handle e f false]> (handles s)) as Hhs
    by (rewrite Hs1; apply handles_remove).
  split_and!; try done.
  - rewrite Hu. by rewrite remove_result.
  - rewrite Hs1. by rewrite remove_listeners.
  - intros e' Hne. rewrite Hs1. by rewrite remove_listeners_ne.
  - apply (unsubscribe_inactive h e f). rewrite Hhs.
    apply list_lookup_insert_eq. by eapply lookup_lt_Some.
Qed.

(** ** What [emit] can throw *)

Lemma emit_loop_answer cfg rec fuel a i e args s s' r :
  emit_loop cfg rec fuel a i e args s = Some (s', r) →
  r = AUndefined
  ∨ ∃ err listener,
      r = AThrew err ∧ strict cfg = true
      ∧ last (error_log s')
        = Some (ErrorCall (or_hook (error cfg) (g_error (globalOptions cfg))) err
                  (Context (object cfg) e listener)).
Proof.
  revert i s. induction fuel as [|fuel IH]; intros i s; [done|].
  rewrite emit_loop_S.
  destruct (set_at a s !! i) as [[g|]|]; [|by apply IH|intros [= <- <-]; by left].
  destruct (apply cfg rec g args s) as [[s1 [v|err]]|]; [by apply IH| |done].
  destruct (strict cfg) eqn:Hs; [|by apply IH].
  intros [= <- <-]. right. exists err, g. split_and!; try done.
  simpl. by rewrite last_snoc.
Qed.

(** X13.  [emit] throws nothing of its own, and nothing at all unless [strict]:
    whatever the listeners do, also when they call back into the emitter, a
    call of [emit] that ends either returns [undefined], or [strict] is set
    and it throws an error that the error hook was given just before, with
    [{object, event, listener}]. *)
Theorem emit_throws_only_strict (cfg : config)
    (rec : prog → state → option (state * outcome)) (fuel : nat)
    (e : event) (args : list nat) (s s' : state) (r : answer) :
  emit cfg rec fuel e args s = Some (s', r) →
  (strict cfg = false → r = AUndefined)
  ∧ (r = AUndefined
     ∨ ∃ err listener,
         r = AThrew err ∧ strict cfg = true
         ∧ last (error_log s')
           = Some (ErrorCall (or_hook (error cfg) (g_error (globalOptions cfg))) err
                     (Context (object cfg) e listener))).
Proof.
  intros Hemit.
  assert (r = AUndefined
          ∨ ∃ err listener,
              r = AThrew err ∧ strict cfg = true
              ∧ last (error_log s')
                = Some (ErrorCall (or_hook (error cfg) (g_error (globalOptions cfg)))
                          err (Context (object cfg) e listener))) as H.
  { unfold emit in Hemit. destruct (size _ =? 0).
    - injection Hemit as <- <-. by left.
    - by eapply emit_loop_answer. }
  split; [|done]. intros Hs. destruct H as [?|(err & g & _ & Hs' & _)]; [done|].
  congruence.
Qed.

(** ** [emitAsync] calls the listeners it found *)

Section Snapshot.

Context (cfg : config).





End Snapshot.



(** X20.  The promise of [emitAsync], for listeners that do not call the emitter:
    every listener has been called when [emitAsync] returns; not [strict],
    the promise fulfils whatever the listeners did; [strict], it rejects
    exactly when some listener threw or returned a promise that rejects. *)
Theorem emitAsync_promise (cfg : config) (e : event) (args : list nat)
    (out : fn → outcome) (n : nat) (s : state) :
  (∀ f, f ∈ listeners e s → quiet cfg args out f) →
  ∃ s' cs,
    emitAsync cfg (run cfg (S n)) e args s = Some (s', APromise cs)
    ∧ calls_log s' = calls_log s ++ ((λ f, (f, args)) <$> listeners e s)
    ∧ (strict cfg = false → emitAsync_rejects cfg (APromise cs) = false)
    ∧ (strict cfg = true →
       emitAsync_rejects cfg (APromise cs) = true
       ↔ ∃ f, f ∈ listeners e s
           ∧ out f ≠ Returns Plain ∧ out f ≠ Returns (Deferred None)).
Proof.
  intros Hq.
  exists (after args
            (call_trace cfg (or_hook (trace cfg) (g_trace (globalOptions cfg)))
               "emitAsync" (PEmission (listeners e s) e args) s)
            (listeners e s) (omap (report cfg e out) (listeners e s))),
    ((λ f, completion_of (out f)) <$> listeners e s).
  split.
  { unfold emitAsync. rewrite set_at_call_trace. fold (listeners e s).
    destruct (size _ =? 0) eqn:Hz.
    - apply Nat.eqb_eq, size_zero_elements in Hz. fold (listeners e s) in Hz.
      rewrite Hz. simpl. by rewrite after_nil.
    - by rewrite (emitAsync_map_quiet cfg e args out). }
  split; [done|]. unfold emitAsync_rejects.
  split; [by intros ->|]. intros ->. rewrite andb_true_l.
  rewrite existsb_exists. split.
  - intros (c & Hc & Hrej). apply list_elem_of_In in Hc.
    apply list_elem_of_fmap in Hc as (f & -> & Hf). exists f. split; [done|].
    by destruct (out f) as [[|[err|]]|err].
  - intros (f & Hf & H1 & H2). exists (completion_of (out f)). split.
    + apply list_elem_of_In, list_elem_of_fmap. by exists f.
    + by destruct (out f) as [[|[err|]]|err].
Qed.

(** ** The handle of a [once] registration in a reachable state *)

Lemma listeners_ext (e : event) (s s' : state) :
  map s' = map s → sets s' = sets s → listeners e s' = listeners e s.
Proof.
  intros Hm Hs. unfold listeners, getListeners, set_at. by rewrite Hm, Hs.
Qed.

Lemma pending_ext (s s' : state) :
  map s' = map s → sets s' = sets s → handles s' = handles s →
  pending s → pending s'.
Proof.
  intros Hm Hs Hh Hp h e f H. rewrite (listeners_ext e s s') by done.
  apply Hp. by rewrite <-Hh.
Qed.

Section Pending.

Context (cfg : config).

Lemma pending_on e g s :
  reg_ok s → (∀ h f, g = Adapter h f → h = length (handles s)) →
  pending s → pending (on cfg e (JFn g) s).1.
Proof.
  intros Hok Hg Hp h e' f. rewrite handles_on. intros Hh.
  assert (Adapter h f ∈ listeners e' s ∨ (e' = e ∧ g = Adapter h f)) as [Hin|[-> ->]].
  { destruct (decide (h < length (handles s))) as [Hlt|Hge].
    - rewrite lookup_app_l in Hh by done. left. by apply Hp.
    - apply lookup_lt_Some in Hh as Hlt. rewrite length_app in Hlt. simpl in Hlt.
      assert (h = length (handles s)) as -> by lia.
      rewrite list_lookup_middle in Hh by done. right. by simplify_eq. }
  - destruct (decide (e' = e)) as [->|Hne].
    + rewrite on_listeners by done. case_decide; [done|].
      apply elem_of_app. by left.
    + by rewrite on_listeners_ne.
  - by apply on_elem.
Qed.

Lemma pending_remove e g s :
  reg_ok s → (∀ h f, g = Adapter h f →
               handles s !! h ≠ Some (Handle e (Adapter h f) true)) →
  pending s → pending (remove e g s).1.
Proof.
  intros Hok Hg Hp h e' f. rewrite handles_remove. intros Hh.
  specialize (Hp h e' f Hh).
  destruct (decide (e' = e)) as [->|Hne].
  - rewrite remove_listeners by done. apply list_elem_of_filter. split; [|done].
    intros <-. by eapply Hg.
  - by rewrite remove_listeners_ne.
Qed.

Lemma pending_unsubscribe h s :
  inv s → pending s → pending (unsubscribe h s).1.
Proof.
  intros [Hok Had] Hp. unfold unsubscribe.
  destruct (handles s !! h) as [[e g act]|] eqn:Hc; [|done].
  simpl. destruct act; [|done].
  set (s0 := with_handles s (<[h := Handle e g false]> (handles s))).
  assert (h < length (handles s)) as Hlt by by eapply lookup_lt_Some.
  apply pending_remove.
  - by apply (reg_ok_ext s).
  - intros h' f -> Hh'. simpl in Hh'.
    assert (h' = h) as -> by by eapply (ad_handle s Had h _ h' f Hc).
    rewrite list_lookup_insert_eq in Hh' by done. done.
  - intros h' e' f Hh'. simpl in Hh'.
    rewrite (listeners_ext e' s s0) by done. apply Hp.
    destruct (decide (h' = h)) as [->|Hne].
    + rewrite list_lookup_insert_eq in Hh' by done. done.
    + by rewrite list_lookup_insert_ne in Hh' by done.
Qed.

Lemma run_pending n p s s' o :
  inv s ∧ pending s → run cfg n p s = Some (s', o) → inv s' ∧ pending s'.
Proof.
  apply (run_preserves cfg (λ s, inv s ∧ pending s) (λ _, True)); try done.
  - intros s0 h act p0 [Hi Hp]. split; [by apply (inv_ext s0)|by apply (pending_ext s0)].
  - intros s0 err c [Hi Hp]. split; [by apply (inv_ext s0)|by apply (pending_ext s0)].
  - intros s0 g args [Hi Hp] _. split; [by apply (inv_ext s0)|by apply (pending_ext s0)].
  - intros s0 e id [Hi Hp]. split; [by apply inv_on|].
    apply pending_on; [apply Hi|done|done].
  - intros s0 e id [Hi Hp]. split; [by apply inv_once|].
    rewrite once_on. apply pending_on; [apply Hi| |done]. by intros h f [= <- _].
  - intros s0 e id [Hi Hp]. split; [by apply inv_off|].
    unfold off. simpl. set (s1 := call_trace cfg _ _ _ s0).
    pose proof (pending_remove e (User id) s1) as Hr.
    destruct (remove e (User id) s1) as [s2 d]. simpl in *.
    apply Hr; [apply (reg_ok_ext s0); [done..|apply Hi]|done|].
    by apply (pending_ext s0).
  - intros s0 h [Hi Hp]. split; [by apply inv_unsubscribe|by apply pending_unsubscribe].
Qed.

End Pending.

(** X12.  In every state that client code can reach from a fresh emitter: the
    registration made by a [once(e, f)] is a listener of [e] exactly as long
    as its handle is unused (it has neither fired nor been cancelled; [off]
    cannot remove it); a call of the handle answers exactly that, and the
    registration is gone afterwards. *)
Theorem once_pending_iff_unused (cfg : config) (n : nat) (p : prog)
    (s : state) (o : outcome) :
  run cfg n p initial = Some (s, o) →
  ∀ h e f live,
    handles s !! h = Some (Handle e (Adapter h f) live) →
    (Adapter h f ∈ listeners e s ↔ live = true)
    ∧ (unsubscribe h s).2 = live
    ∧ Adapter h f ∉ listeners e (unsubscribe h s).1.
Proof.
  intros Hrun h e f live Hh.
  destruct (run_pending cfg n p initial s o) as [[Hok Had] Hp]; [|done|].
  { split; [apply inv_initial|]. by intros h' e' f'. }
  assert (Adapter h f ∈ listeners e s → live = true) as Hlive.
  { intros Hin. unfold listeners in Hin.
    destruct (ad_live s Had _ h f Hin) as (e' & Hh' & _).
    rewrite Hh in Hh'. by simplify_eq. }
  destruct live.
  - pose proof (Hp h e f Hh) as Hin.
    set (s0 := with_handles s (<[h := Handle e (Adapter h f) false]> (handles s))).
    assert (reg_ok s0) as Hok0 by by apply (reg_ok_ext s).
    rewrite (unsubscribe_active h e (Adapter h f) s Hh). fold s0.
    split_and!; [done| |].
    + rewrite remove_result by done. by apply bool_decide_eq_true_2.
    + rewrite remove_listeners by done. rewrite list_elem_of_filter. by intros [? _].
  - rewrite (unsubscribe_inactive h e (Adapter h f) s Hh).
    split_and!; [|done|]; naive_solver.
Qed.

(** ** How the hooks are called *)

Section Hooks.

Context (cfg : config).

Local Abbreviation hooked := (hooked cfg).

Lemma hooked_on e f s : hooked s → hooked (on cfg e (JFn f) s).1.
Proof.
  intros [Ht He]. destruct (logs_on cfg e f s) as (Ht' & He' & _).
  split; [rewrite Ht'|by rewrite He'].
  apply Forall_app. split; [done|]. apply Forall_singleton.
  split; [done|]. by left.
Qed.

Lemma hooked_ext s s' :
  trace_log s' = trace_log s → error_log s' = error_log s → hooked s → hooked s'.
Proof. intros Ht He [H1 H2]. split; by rewrite ?Ht, ?He. Qed.

Lemma hooked_unsubscribe h s : hooked s → hooked (unsubscribe h s).1.
Proof.
  unfold unsubscribe. destruct (handles s !! h) as [c|]; [|done].
  destruct (active c); [|done].
  set (s0 := with_handles s _).
  destruct (logs_remove (h_event c) (h_listener c) s0) as (Ht & He & _).
  by apply hooked_ext.
Qed.

Lemma hooked_error err e g s :
  hooked s → hooked (call_error cfg err (Context (object cfg) e g) s).
Proof.
  intros [Ht He]. split; [done|]. simpl.
  apply Forall_app. split; [done|]. by apply Forall_singleton.
Qed.

Lemma hooked_emission action ls e args s :
  action = "emit" ∨ action = "emitAsync" →
  hooked s →
  hooked (call_trace cfg (or_hook (trace cfg) (g_trace (globalOptions cfg))) action
            (PEmission ls e args) s).
Proof.
  intros Ha [Ht He]. split; [|done]. simpl.
  apply Forall_app. split; [done|]. by apply Forall_singleton.
Qed.

Lemma hooked_off e f s : hooked s → hooked (off cfg e (JFn f) s).1.
Proof.
  intros [Ht He]. destruct (logs_off cfg e f s) as (Ht' & He' & _).
  split; [rewrite Ht'|by rewrite He'].
  apply Forall_app. split; [done|]. apply Forall_singleton.
  split; [done|]. by right.
Qed.

Lemma apply_hooked rec f args s s' o :
  preserves hooked rec → hooked s → apply cfg rec f args s = Some (s', o) →
  hooked s'.
Proof.
  intros Hrec Hs. apply (apply_preserves cfg hooked (λ _, True)); try done.
  intros. by apply hooked_unsubscribe.
Qed.

Lemma emit_loop_hooked rec fuel a i e args s s' r :
  preserves hooked rec → hooked s →
  emit_loop cfg rec fuel a i e args s = Some (s', r) → hooked s'.
Proof.
  intros Hrec. revert i s. induction fuel as [|fuel IH]; intros i s Hs; [done|].
  rewrite emit_loop_S.
  destruct (set_at a s !! i) as [[g|]|]; [|by apply IH|by intros [= <- <-]].
  destruct (apply cfg rec g args s) as [[s1 [v|err]]|] eqn:Happ; [| |done].
  - apply IH. by eapply apply_hooked.
  - assert (hooked (call_error cfg err (Context (object cfg) e g) s1)) as H1
      by (apply hooked_error; by eapply apply_hooked).
    destruct (strict cfg); [by intros [= <- <-]|by apply IH].
Qed.

Lemma emitAsync_map_hooked rec ls e args s s' cs :
  preserves hooked rec → hooked s →
  emitAsync_map cfg rec ls e args s = Some (s', cs) → hooked s'.
Proof.
  intros Hrec. revert s cs. induction ls as [|g ls IH]; intros s cs Hs;
    cbn [emitAsync_map]; [by intros [= <- <-]|].
  destruct (apply cfg rec g args s) as [[s1 o]|] eqn:Happ; [|done].
  assert (hooked (settle cfg e g o s1).1) as H2.
  { apply (apply_hooked _ _ _ _ _ _ Hrec Hs) in Happ.
    destruct o as [[|[err|]]|err]; try done. by apply hooked_error. }
  destruct (settle cfg e g o s1) as [s2 c]. simpl in H2.
  destruct (emitAsync_map cfg rec ls e args s2) as [[s3 cs']|] eqn:Hrest; [|done].
  intros [= <- <-]. by eapply IH.
Qed.

Lemma exec_hooked rec fuel c s s' r :
  preserves hooked rec → hooked s → exec cfg rec fuel c s = Some (s', r) →
  hooked s'.
Proof.
  intros Hrec Hs. destruct c as [e v|e v|e v|e|e args|e args|h]; simpl.
  - intros [= Hon]. destruct v; [|by injection Hon as <- _].
    replace s' with (on cfg e (JFn (User id)) s).1 by exact (f_equal fst Hon).
    by apply hooked_on.
  - intros [= Hon]. destruct v; [|by injection Hon as <- _].
    replace s' with (once cfg e (JFn (User id)) s).1 by exact (f_equal fst Hon).
    rewrite once_on. by apply hooked_on.
  - intros [= Hoff]. destruct v; [|by injection Hoff as <- _].
    replace s' with (off cfg e (JFn (User id)) s).1 by exact (f_equal fst Hoff).
    by apply hooked_off.
  - by intros [= <- <-].
  - unfold emit.
    assert (hooked (call_trace cfg (or_hook (trace cfg) (g_trace (globalOptions cfg)))
                      "emit" (PEmission (elements (set_at (getListeners e s) s)) e args) s))
      as H1 by (apply hooked_emission; [by left|done]).
    destruct (size _ =? 0); [by intros [= <- <-]|].
    by apply emit_loop_hooked.
  - unfold emitAsync.
    assert (hooked (call_trace cfg (or_hook (trace cfg) (g_trace (globalOptions cfg)))
                      "emitAsync" (PEmission (elements (set_at (getListeners e s) s)) e args) s))
      as H1 by (apply hooked_emission; [by right|done]).
    destruct (size _ =? 0); [by intros [= <- <-]|].
    destruct (emitAsync_map _ _ _ _ _ _) as [[s2 cs]|] eqn:Hmap; [|done].
    intros [= <- <-]. by eapply emitAsync_map_hooked.
  - destruct (unsubscribe h s) as [s1 b] eqn:Hu. intros [= <- <-].
    replace s1 with (unsubscribe h s).1 by by rewrite Hu.
    by apply hooked_unsubscribe.
Qed.

Lemma run_hooked n : preserves hooked (run cfg n).
Proof.
  induction n as [|n IH]; intros p s s' o Hs Hrun; simpl in Hrun; [done|].
  destruct p as [o'|c k]; [by simplify_eq|].
  destruct (exec cfg (run cfg n) n c s) as [[s1 a]|] eqn:Hexec; [|done].
  eapply IH; [|done]. eapply exec_hooked; eauto.
Qed.

End Hooks.

(** X21.  Whatever client code runs on a fresh emitter, every call of the trace
    hook has the host as first argument and is one of: ['on'] or ['off'] with
    [{event, listener}], ['emit'] or ['emitAsync'] with
    [{listeners, event, args}]; every call of the error hook has the host in
    its context.  A hook given in [options] is the one called, and the
    global one is then never called; without it, ['off'] goes to the hook of
    [eventful.options] as it is then, every other call to the one captured
    in [globalOptions]. *)
Theorem hooks_as_configured (cfg : config) (n : nat) (p : prog)
    (s : state) (o : outcome) :
  run cfg n p initial = Some (s, o) →
  Forall (trace_ok cfg) (trace_log s)
  ∧ Forall (error_ok cfg) (error_log s)
  ∧ (∀ t, trace cfg = Some t → ∀ tc, tc ∈ trace_log s → tc_hook tc = OwnHook t)
  ∧ (∀ r, error cfg = Some r → ∀ ec, ec ∈ error_log s → ec_hook ec = OwnHook r).
Proof.
  intros Hrun.
  destruct (run_hooked cfg n p initial s o) as [Ht He]; [by split|done|].
  split_and!; [done..| |].
  - intros t Heq tc Htc. rewrite Forall_forall in Ht.
    destruct (Ht tc Htc) as [_ H]. rewrite Heq in H.
    destruct (tc_payload tc); [destruct H as [[_ ?]|[_ ?]]|destruct H as [_ ?]]; done.
  - intros r Heq ec Hec. rewrite Forall_forall in He.
    destruct (He ec Hec) as [H _]. by rewrite Heq in H.
Qed.

(** ** [Set] objects with several entries deleted *)

Lemma holes_nil (l : list (option fn)) : holes [] l = l.
Proof.
  unfold holes. rewrite <-(list_fmap_id l) at 2.
  apply list_fmap_ext. intros _ [g|] _; [|done].
  cbv beta. rewrite decide_False; [done|]. apply not_elem_of_nil.
Qed.

Lemma holes_set_delete (g : fn) (gs : list fn) (l : list (option fn)) :
  holes gs (set_delete g l) = holes (g :: gs) l.
Proof.
  unfold holes, set_delete. rewrite <-list_fmap_compose.
  apply list_fmap_ext. intros _ [x|] _; cbn [compose].
  - destruct (decide (Some x = Some g)) as [[= ->]|Hne].
    + rewrite decide_True; [done|left].
    + destruct (decide (x ∈ gs)) as [Hin|Hnin].
      * rewrite decide_True; [done|by right].
      * rewrite decide_False; [done|].
        intros [->|?]%elem_of_cons; done.
  - by destruct (decide (None = Some g)).
Qed.

Lemma length_holes (gs : list fn) (l : list (option fn)) :
  length (holes gs l) = length l.
Proof. unfold holes. by rewrite length_fmap. Qed.

Lemma elements_holes (gs : list fn) (l : list (option fn)) :
  elements (holes gs l) = filter (λ g, g ∉ gs) (elements l).
Proof.
  unfold holes, elements. induction l as [|[g|] l IH]; simpl; [done| |done].
  destruct (decide (g ∈ gs)); simpl.
  - by rewrite filter_cons_False by naive_solver.
  - rewrite filter_cons_True by done. by f_equal.
Qed.

Lemma lookup_holes_user (gs : list fn) (l : list (option fn)) (i id : nat) :
  Forall (λ g, is_once g = true) gs →
  l !! i = Some (Some (User id)) → holes gs l !! i = Some (Some (User id)).
Proof.
  intros Hgs Hi. unfold holes. rewrite list_lookup_fmap, Hi. simpl.
  rewrite decide_False; [done|]. intros Hin.
  rewrite Forall_forall in Hgs. by specialize (Hgs _ Hin).
Qed.

Lemma set_delete_take (g : fn) (l : list (option fn)) (k : nat) :
  take k (set_delete g l) = set_delete g (take k l).
Proof. unfold set_delete. by rewrite fmap_take. Qed.

Lemma set_delete_drop (g : fn) (l : list (option fn)) (k : nat) :
  drop k (set_delete g l) = set_delete g (drop k l).
Proof. unfold set_delete. by rewrite fmap_drop. Qed.

(** ** What [add] and [remove] do to the [Set] of the event *)

Lemma set_at_remove (e : event) (f : fn) (a : nat) (s : state) :
  map s !! e = Some a → a < length (sets s) →
  set_at a (remove e f s).1 = set_delete f (set_at a s).
Proof.
  intros He Ha. unfold remove. rewrite He.
  destruct (size _ =? 0); simpl; rewrite ?set_at_with_map;
    by rewrite set_at_insert, decide_True.
Qed.

Lemma map_remove_entry (e : event) (f : fn) (a : nat) (s : state) :
  map s !! e = Some a →
  map (remove e f s).1
  = if size (set_delete f (set_at a s)) =? 0 then delete e (map s) else map s.
Proof. intros He. unfold remove. rewrite He. by destruct (size _ =? 0). Qed.

Lemma set_at_add (e : event) (f : fn) (a : nat) (s : state) :
  map s !! e = Some a → a < length (sets s) →
  set_at a (add e f s) = set_add f (set_at a s) ∧ map (add e f s) = map s.
Proof.
  intros He Ha. unfold add. rewrite He. split; [|done].
  by rewrite set_at_insert, decide_True.
Qed.

Lemma linked_listeners (e : event) (a : nat) (s : state) :
  reg_ok s → linked e a s → listeners e s = elements (set_at a s).
Proof.
  intros Hok [He|[He ->]]; [by apply listeners_entry|by apply listeners_no_entry].
Qed.

Lemma linked_getListeners (e : event) (s : state) :
  reg_ok s → linked e (getListeners e s) s.
Proof.
  intros Hok. unfold linked, getListeners.
  destruct (map s !! e) as [a|] eqn:He; [by left|right]. split; [done|].
  simpl. unfold set_at. by rewrite (ok_empty s Hok).
Qed.

Lemma linked_ext (e : event) (a : nat) (s s' : state) :
  map s' = map s → sets s' = sets s → linked e a s → linked e a s'.
Proof. intros Hm Hs. unfold linked, set_at. by rewrite Hm, Hs. Qed.

(** ** [emit] over listeners subscribed with [on] and with [once] *)

Lemma filter_ext_elem {A} (P Q : A → Prop) `{!∀ x, Decision (P x)}
    `{!∀ x, Decision (Q x)} (l : list A) :
  (∀ x, x ∈ l → P x ↔ Q x) → filter P l = filter Q l.
Proof.
  induction l as [|x l IH]; intros Hext; [done|].
  assert (filter P l = filter Q l) as Hl by (apply IH; intros; apply Hext; by right).
  destruct (decide (P x)) as [HP|HP].
  - rewrite !filter_cons_True by (done || by apply (Hext x ltac:(left))).
    by rewrite Hl.
  - rewrite !filter_cons_False; [done| |done].
    intros HQ. by apply HP, (Hext x ltac:(left)).
Qed.

Lemma elements_take_S (l : list (option fn)) (i k : nat) (x : option fn) :
  l !! i = Some x →
  elements (take (S k) (drop i l))
  = from_option (λ g, [g]) [] x ++ elements (take k (drop (S i) l)).
Proof.
  intros Hi. rewrite (drop_S _ _ _ Hi). by destruct x.
Qed.

Lemma elements_after_NoDup (l : list (option fn)) (i : nat) (g : fn) :
  NoDup (elements l) → l !! i = Some (Some g) →
  g ∉ elements (drop (S i) l).
Proof.
  intros Hnd Hi. rewrite <-(take_drop_middle l i (Some g) Hi) in Hnd.
  rewrite elements_app, elements_cons_Some in Hnd.
  apply NoDup_app in Hnd as (_ & _ & Hnd). by apply NoDup_cons in Hnd as [? _].
Qed.

Lemma elements_take_sub (l : list (option fn)) (k : nat) (g : fn) :
  g ∈ elements (take k l) → g ∈ elements l.
Proof.
  rewrite !elem_of_elements. apply subseteq_take.
Qed.

Section Calm.

Context (cfg : config) (e : event) (args : list nat) (out : fn → outcome)
        (a n : nat).

Lemma apply_pending h id s :
  inv s → map s !! e = Some a →
  Adapter h (User id) ∈ elements (set_at a s) →
  quiet cfg args out (User id) →
  ∃ s2,
    apply cfg (run cfg (S n)) (Adapter h (User id)) args s
    = Some (log_call (User id) args s2,
            match out (User id) with
            | Returns _ => Returns Plain
            | Throws err => Throws err
            end)
    ∧ inv s2 ∧ linked e a s2
    ∧ set_at a s2 = set_delete (Adapter h (User id)) (set_at a s)
    ∧ calls_log s2 = calls_log s ++ [(Adapter h (User id), args)]
    ∧ error_log s2 = error_log s
    ∧ trace_log s2 = trace_log s
    ∧ (∀ e', e' ≠ e → listeners e' s2 = listeners e' s)
    ∧ handles s2 = <[h := Handle e (Adapter h (User id)) false]> (handles s)
    ∧ handles s !! h = Some (Handle e (Adapter h (User id)) true)
    ∧ s2 = (unsubscribe h (log_call (Adapter h (User id)) args s)).1.
Proof.
  intros Hinv He Hin Hq. set (g := Adapter h (User id)) in *.
  set (s1 := log_call g args s).
  assert (inv s1) as Hinv1 by by apply (inv_ext s).
  destruct Hinv as [Hok Had].
  destruct (ad_live s Had a h (User id) Hin) as (e' & Hh & He').
  assert (e' = e) as -> by by eapply (ok_inj s Hok).
  destruct (ok_entry s Hok e a He) as [Ha _].
  set (s0 := with_handles s1 (<[h := Handle e g false]> (handles s1))).
  assert (reg_ok s0) as Hok0 by by apply (reg_ok_ext s).
  assert (unsubscribe h s1 = remove e g s0) as Hu
    by by apply (unsubscribe_active h e g s1).
  exists (remove e g s0).1.
  destruct (logs_remove e g s0) as (Ht & Her & Hc).
  split_and!; try done.
  - etrans; [apply apply_adapter|]. fold g s1. rewrite Hu.
    destruct (remove e g s0) as [s2 d]. cbv beta iota.
    rewrite (apply_quiet cfg args out n (User id) s2 Hq). cbn [fst].
    by destruct (out (User id)).
  - rewrite <-Hu. by apply inv_unsubscribe.
  - unfold linked. rewrite (map_remove_entry e g a s0 He).
    rewrite (set_at_remove e g a s0 He Ha).
    change (set_at a s0) with (set_at a s).
    destruct (size _ =? 0) eqn:Hz.
    + right. split; [apply lookup_delete_eq|].
      by apply Nat.eqb_eq, size_zero_elements in Hz.
    + by left.
  - by rewrite (set_at_remove e g a s0 He Ha).
  - intros e'' Hne. rewrite remove_listeners_ne by done.
    by apply listeners_ext.
  - by rewrite handles_remove.
  - by rewrite Hu.
Qed.

Lemma emit_loop_calm k : ∀ i s,
  inv s → linked e a s → i + k ≤ length (set_at a s) →
  let mid := elements (take k (drop i (set_at a s))) in
  (∀ g, g ∈ mid → calm cfg args out g) →
  (strict cfg = false ∨ ∀ g err, g ∈ mid → out (inner g) ≠ Throws err) →
  ∃ s',
    (∀ fuel, emit_loop cfg (run cfg (S n)) (k + fuel) a i e args s
             = emit_loop cfg (run cfg (S n)) fuel a (i + k) e args s')
    ∧ inv s' ∧ linked e a s'
    ∧ set_at a s' = holes (filter (λ g, is_once g) mid) (set_at a s)
    ∧ calls_log s' = calls_log s ++ ((λ g, (g, args)) <$> (mid ≫= calls_of))
    ∧ error_log s' = error_log s ++ omap (report_of cfg e out) mid
    ∧ trace_log s' = trace_log s
    ∧ (∀ e', e' ≠ e → listeners e' s' = listeners e' s)
    ∧ (∀ h f, Adapter h f ∈ mid →
         handles s' !! h = Some (Handle e (Adapter h f) false))
    ∧ (∀ h c, handles s !! h = Some c → active c = false →
         handles s' !! h = Some c)
    ∧ length (handles s') = length (handles s)
    ∧ s' = calm_calls cfg e args out mid s.
Proof.
  induction k as [|k IH]; intros i s Hinv Hlink Hlen mid Hcalm Hsafe.
  { exists s. unfold mid. rewrite take_0. simpl.
    rewrite holes_nil, !app_nil_r, Nat.add_0_r.
    split_and!; try done. intros h f Hin. by apply elem_of_nil in Hin. }
  destruct (set_at a s !! i) as [x|] eqn:Hi;
    [|apply lookup_ge_None in Hi; lia].
  assert (mid = from_option (λ g, [g]) [] x
                ++ elements (take k (drop (S i) (set_at a s)))) as Hmid
    by by apply elements_take_S.
  assert (∀ fuel s', emit_loop cfg (run cfg (S n)) fuel a (S i + k) e args s'
                     = emit_loop cfg (run cfg (S n)) fuel a (i + S k) e args s')
    as Hidx by (intros; f_equal; lia).
  destruct x as [g|]; simpl in Hmid.
  2:{ destruct (IH (S i) s Hinv Hlink ltac:(lia)) as (s' & Hloop & Hrest).
      - intros g Hg. apply Hcalm. by rewrite Hmid.
      - destruct Hsafe as [?|Hsafe]; [by left|right].
        intros g err Hg. apply Hsafe. by rewrite Hmid.
      - exists s'. rewrite Hmid. split; [|exact Hrest].
        intros fuel. change (S k + fuel) with (S (k + fuel)).
        rewrite emit_loop_S, Hi, Hloop. apply Hidx. }
  set (mid' := elements (take k (drop (S i) (set_at a s)))) in *.
  assert (g ∈ elements (set_at a s)) as Hg by by eapply lookup_elements.
  assert (calm cfg args out g) as Hgc by (apply Hcalm; rewrite Hmid; left).
  assert (∀ err, out (inner g) = Throws err → strict cfg = false) as Hstrict.
  { intros err Herr. destruct Hsafe as [?|Hsafe]; [done|].
    destruct (Hsafe g err); [rewrite Hmid; left|done]. }
  assert (∀ g', g' ∈ mid' → calm cfg args out g') as Hcalm'
    by (intros g' Hg'; apply Hcalm; rewrite Hmid; by right).
  assert (strict cfg = false ∨ ∀ g' err, g' ∈ mid' → out (inner g') ≠ Throws err)
    as Hsafe'.
  { destruct Hsafe as [?|Hsafe]; [by left|right].
    intros g' err Hg'. apply Hsafe. rewrite Hmid. by right. }
  pose proof (ad_flat s (proj2 Hinv) a g Hg) as Hflat.
  destruct g as [id|h [id|]]; [| |done].
  - (* a listener subscribed with [on] *)
    pose proof (apply_quiet cfg args out n (User id) s Hgc) as Happ.
    set (s1 := match out (User id) with
               | Returns _ => log_call (User id) args s
               | Throws err =>
                   call_error cfg err (Context (object cfg) e (User id))
                     (log_call (User id) args s)
               end).
    assert (map s1 = map s ∧ sets s1 = sets s ∧ handles s1 = handles s
            ∧ trace_log s1 = trace_log s
            ∧ calls_log s1 = calls_log s ++ [(User id, args)]
            ∧ error_log s1
              = error_log s
                ++ from_option (λ x, [x]) [] (report_of cfg e out (User id)))
      as (Hm1 & Hs1 & Hh1 & Ht1 & Hc1 & He1).
    { unfold s1, report_of. simpl.
      destruct (out (User id)); simpl; by rewrite ?app_nil_r. }
    destruct (IH (S i) s1) as
      (s' & Hloop & Hinv' & Hlink' & Hset & Hcalls & Herr & Htr & Hoth & Hused
       & Hstay & Hhl & Hstate);
      [by apply (inv_ext s)|by apply (linked_ext e a s)
      |unfold set_at; rewrite Hs1; fold (set_at a s); lia
      |unfold set_at; rewrite Hs1; by fold (set_at a s)
      |unfold set_at; rewrite Hs1; by fold (set_at a s)|].
    unfold set_at in Hset, Hcalls, Herr, Hused. rewrite Hs1 in Hset, Hcalls, Herr, Hused.
    fold (set_at a s) in Hset, Hcalls, Herr, Hused. fold mid' in Hset, Hcalls, Herr, Hused.
    exists s'. rewrite Hmid. split_and!; [|done|done|..].
    + intros fuel. change (S k + fuel) with (S (k + fuel)).
      rewrite emit_loop_S, Hi, Happ, <-Hidx, <-Hloop. unfold s1.
      destruct (out (User id)) as [v|err] eqn:Hout; [done|].
      by rewrite (Hstrict err Hout).
    + rewrite filter_cons_False; [exact Hset|by intros ?].
    + rewrite Hcalls, Hc1, bind_cons, fmap_app. simpl. by rewrite <-app_assoc.
    + rewrite Herr, He1. simpl. rewrite <-app_assoc.
      by destruct (report_of cfg e out (User id)).
    + by rewrite Htr.
    + intros e' Hne. rewrite Hoth by done. by apply listeners_ext.
    + intros h f [?|Hin]%elem_of_cons; [done|by apply Hused].
    + intros h c Hh Hact. apply Hstay; [by rewrite Hh1|done].
    + by rewrite Hhl, Hh1.
    + rewrite Hstate. unfold set_at. rewrite Hs1. by fold (set_at a s).
  - (* a listener subscribed with [once] *)
    assert (map s !! e = Some a) as He.
    { destruct Hlink as [?|[_ Hnil]]; [done|].
      rewrite Hnil in Hg. by apply elem_of_nil in Hg. }
    destruct (apply_pending h id s Hinv He Hg Hgc)
      as (s2 & Happ & Hinv2 & Hlink2 & Hset2 & Hc2 & He2 & Ht2 & Hoth2 & Hh2 & Hact
          & Hs2).
    set (s3 := match out (User id) with
               | Returns _ => log_call (User id) args s2
               | Throws err =>
                   call_error cfg err (Context (object cfg) e (Adapter h (User id)))
                     (log_call (User id) args s2)
               end).
    assert (map s3 = map s2 ∧ sets s3 = sets s2 ∧ handles s3 = handles s2
            ∧ trace_log s3 = trace_log s2
            ∧ calls_log s3 = calls_log s2 ++ [(User id, args)]
            ∧ error_log s3
              = error_log s2 ++ from_option (λ x, [x]) [] (report_of cfg e out (Adapter h (User id))))
      as (Hm3 & Hs3 & Hh3 & Ht3 & Hc3 & He3).
    { unfold s3, report_of. simpl.
      destruct (out (User id)); simpl; by rewrite ?app_nil_r. }
    assert (set_at a s3 = set_delete (Adapter h (User id)) (set_at a s)) as Hset3
      by (unfold set_at; rewrite Hs3; exact Hset2).
    assert (elements (take k (drop (S i) (set_at a s3))) = mid') as Hmid3.
    { rewrite Hset3, set_delete_drop, set_delete_take, elements_set_delete.
      apply filter_ne_absent. intros Hin%elements_take_sub.
      revert Hin. apply elements_after_NoDup; [|done].
      apply (ok_nodup s (proj1 Hinv)). }
    destruct (IH (S i) s3) as
      (s' & Hloop & Hinv' & Hlink' & Hset & Hcalls & Herr & Htr & Hoth & Hused
       & Hstay & Hhl & Hstate);
      [by apply (inv_ext s2)|by apply (linked_ext e a s2)
      |rewrite Hset3, length_set_delete; lia
      |by rewrite Hmid3|by rewrite Hmid3|].
    rewrite Hmid3 in Hset, Hcalls, Herr, Hused.
    assert (h < length (handles s)) as Hlt by by eapply lookup_lt_Some.
    exists s'. rewrite Hmid. split_and!; [|done|done|..].
    + intros fuel. change (S k + fuel) with (S (k + fuel)).
      rewrite emit_loop_S, Hi, Happ, <-Hidx, <-Hloop. unfold s3.
      destruct (out (User id)) as [v|err] eqn:Hout; [done|].
      by rewrite (Hstrict err Hout).
    + rewrite filter_cons_True by done. rewrite Hset, Hset3.
      apply holes_set_delete.
    + rewrite Hcalls, Hc3, Hc2, bind_cons, fmap_app. simpl.
      by rewrite <-!app_assoc.
    + rewrite Herr, He3, He2. simpl. rewrite <-app_assoc.
      by destruct (report_of cfg e out (Adapter h (User id))).
    + by rewrite Htr, Ht3.
    + intros e' Hne. rewrite Hoth by done.
      rewrite (listeners_ext e' s2 s3) by done. by apply Hoth2.
    + intros h' f [[= -> ->]|Hin]%elem_of_cons; [|by apply Hused].
      apply Hstay; [|done]. rewrite Hh3, Hh2.
      by apply list_lookup_insert_eq.
    + intros h' c Hh' Hact'. apply Hstay; [|done]. rewrite Hh3, Hh2.
      rewrite list_lookup_insert_ne; [done|]. intros ->.
      rewrite Hact in Hh'. by simplify_eq.
    + by rewrite Hhl, Hh3, Hh2, length_insert.
    + rewrite Hstate, Hmid3. unfold s3. by rewrite Hs2.
Qed.

End Calm.

(** X14.  [emit] over listeners subscribed with [on] and with [once].  Let the
    client function behind every listener of [e] return or throw without
    calling the emitter, and let [emit] not be cut short (not [strict], or
    no listener throws).  Then [emit(e, ...args)] calls the listeners in
    insertion order, an arrow of [once] calling its client function right
    away; the error hook is called for every listener whose client function
    throws, with the listener as registered (the arrow, for [once]) in the
    context.  Afterwards the listeners of [e] are exactly the ones
    subscribed with [on], in their order; every [once] registration is gone
    and its handle answers [false]; other events are untouched. *)
Theorem emit_fires_once_registrations (cfg : config) (e : event)
    (args : list nat) (out : fn → outcome) (s : state) (n fuel : nat) :
  inv s →
  listeners e s ≠ [] →
  (∀ g, g ∈ listeners e s → calm cfg args out g) →
  (strict cfg = false ∨ ∀ g err, g ∈ listeners e s → out (inner g) ≠ Throws err) →
  length (set_at (getListeners e s) s) < fuel →
  ∃ s',
    emit cfg (run cfg (S n)) fuel e args s = Some (s', AUndefined)
    ∧ calls_log s'
      = calls_log s ++ ((λ g, (g, args)) <$> (listeners e s ≫= calls_of))
    ∧ error_log s' = error_log s ++ omap (report_of cfg e out) (listeners e s)
    ∧ listeners e s' = filter (λ g, is_once g = false) (listeners e s)
    ∧ (∀ e', e' ≠ e → listeners e' s' = listeners e' s)
    ∧ (∀ h f, Adapter h f ∈ listeners e s → unsubscribe h s' = (s', false))
    ∧ inv s'.
Proof.
  intros Hinv Hne Hcalm Hsafe Hfuel.
  set (a := getListeners e s) in *.
  set (s1 := call_trace cfg (or_hook (trace cfg) (g_trace (globalOptions cfg)))
               "emit" (PEmission (elements (set_at a s)) e args) s).
  set (l := set_at a s) in *.
  assert (listeners e s = elements l) as Hls by reflexivity.
  assert (elements (take (length l) (drop 0 (set_at a s1))) = listeners e s) as Hmid
    by (rewrite drop_0; change (set_at a s1) with l; by rewrite firstn_all).
  destruct (emit_loop_calm cfg e args out a n (length l) 0 s1)
    as (s' & Hloop & Hinv' & Hlink' & Hset & Hcalls & Herr & _ & Hoth & Hused & _);
    [by apply (inv_ext s)
    |apply (linked_ext e a s); [done..|apply linked_getListeners, Hinv]
    |done|by rewrite Hmid|by rewrite Hmid|].
  rewrite Hmid in Hset, Hcalls, Herr, Hused.
  change (set_at a s1) with l in Hset.
  exists s'. split_and!; try done.
  - unfold emit. rewrite set_at_call_trace. fold a.
    destruct (size (set_at a s) =? 0) eqn:Hz.
    { apply Nat.eqb_eq, size_zero_elements in Hz. by rewrite Hls in Hne. }
    change (emit_loop cfg (run cfg (S n)) fuel a 0 e args s1 = Some (s', AUndefined)).
    replace fuel with (length l + S (fuel - S (length l))) by (unfold l in *; lia).
    rewrite Hloop, emit_loop_S.
    rewrite (proj2 (lookup_ge_None _ _)); [done|].
    rewrite Hset, length_holes. lia.
  - rewrite (linked_listeners e a s') by (done || apply Hinv').
    rewrite Hset, elements_holes, Hls. apply filter_ext_elem.
    intros g Hg. rewrite list_elem_of_filter. destruct (is_once g); simpl.
    + split; [intros H; by destruct H|done].
    + split; [done|by intros _ [? _]].
  - intros h f Hin. apply (unsubscribe_inactive h e (Adapter h f)). by apply Hused.
Qed.

(** ** A listener that subscribes itself anew while [emit] runs *)

Lemma elements_before_NoDup (l : list (option fn)) (j : nat) (g : fn) :
  NoDup (elements l) → l !! j = Some (Some g) → g ∉ elements (take j l).
Proof.
  intros Hnd Hj. rewrite <-(take_drop_middle l j (Some g) Hj) in Hnd.
  rewrite elements_app, elements_cons_Some in Hnd.
  apply NoDup_app in Hnd as (_ & Hnd & _). intros Hin.
  apply (Hnd g Hin). left.
Qed.

Lemma elements_range (l : list (option fn)) (i j : nat) (g : fn) :
  i ≤ j → g ∈ elements (take (j - i) (drop i l)) → g ∈ elements (take j l).
Proof.
  intros Hle. rewrite take_drop_commute. replace (i + (j - i)) with j by lia.
  rewrite !elem_of_elements. apply subseteq_drop.
Qed.

Lemma elements_lookup (l : list (option fn)) (g : fn) :
  g ∈ elements l → ∃ j, l !! j = Some (Some g).
Proof. rewrite elem_of_elements. apply list_elem_of_lookup_1. Qed.

Lemma set_add_new (f : fn) (l : list (option fn)) :
  f ∉ elements l → set_add f l = l ++ [Some f].
Proof. intros Hf. unfold set_add. by rewrite decide_False. Qed.

Lemma size_elem (g : fn) (l : list (option fn)) :
  g ∈ elements l → (size l =? 0) = false.
Proof.
  intros Hg. apply Nat.eqb_neq. intros Hz%size_zero_elements.
  rewrite Hz in Hg. by apply elem_of_nil in Hg.
Qed.

Lemma run_resubscribe cfg e id n s :
  run cfg (S (S (S n))) (resubscribe e id) s
  = Some ((on cfg e (JFn (User id)) (off cfg e (JFn (User id)) s).1).1,
          Returns Plain).
Proof.
  unfold resubscribe. cbn [run exec to_js].
  destruct (off cfg e (JFn (User id)) s) as [s2 b]. cbn [fst].
  by destruct (on cfg e (JFn (User id)) s2) as [s3 h].
Qed.

Section Diverge.

Context (cfg : config) (e : event) (a id idg : nat) (args : list nat)
        (out : fn → outcome) (others : list fn) (n : nat).

Hypothesis body_id : ∀ hist, body cfg id hist args = resubscribe e id.
Hypothesis other_ne : idg ≠ id.
Hypothesis others_calm : ∀ g, g ∈ others → calm cfg args out g.
Hypothesis others_safe :
  strict cfg = false ∨ ∀ g err, g ∈ others → out (inner g) ≠ Throws err.

Local Abbreviation rec := (run cfg (S (S (S n)))).

(** The entries before [j] are called; the listener at [j] is next. *)
Lemma resub_reach i j s :
  resub_inv e a id idg others i j s →
  ∃ s', (∀ fuel, emit_loop cfg rec (j - i + fuel) a i e args s
                 = emit_loop cfg rec fuel a j e args s')
        ∧ resub_inv e a id idg others j j s'.
Proof using All.
  intros [Hinv He Hle Hj Hg Hsub].
  pose proof (lookup_lt_Some _ _ _ Hj) as Hlt.
  assert (∀ g, g ∈ elements (take (j - i) (drop i (set_at a s))) → g ∈ others)
    as Hmid.
  { intros g Hin. apply elements_range in Hin; [|done].
    destruct (Hsub g) as [->|?]; [by eapply elements_take_sub| |done].
    exfalso. revert Hin. apply elements_before_NoDup; [|done].
    apply (ok_nodup s (proj1 Hinv)). }
  destruct (emit_loop_calm cfg e args out a (S (S n)) (j - i) i s)
    as (s' & Hloop & Hinv' & Hlink' & Hset & _); [done|by left|lia|auto|..].
  { destruct others_safe as [?|Hsafe]; [by left|right]. intros g err Hin.
    apply Hsafe. by apply Hmid. }
  assert (Forall (λ g, is_once g = true)
            (filter (λ g, is_once g)
               (elements (take (j - i) (drop i (set_at a s)))))) as Honce.
  { apply Forall_forall. intros g [Ho _]%list_elem_of_filter.
    by destruct (is_once g). }
  assert (∀ g, g ∈ elements (set_at a s') → g ∈ elements (set_at a s)) as Hsub'.
  { intros g. rewrite Hset, elements_holes. by intros [_ ?]%list_elem_of_filter. }
  assert (User idg ∈ elements (set_at a s')) as Hg'.
  { rewrite Hset, elements_holes. apply list_elem_of_filter. split; [|done].
    intros Hin. rewrite Forall_forall in Honce. by specialize (Honce _ Hin). }
  exists s'. split.
  - intros fuel. rewrite Hloop. f_equal. lia.
  - split; try done.
    + destruct Hlink' as [?|[_ Hnil]]; [done|].
      rewrite Hnil in Hg'. by apply elem_of_nil in Hg'.
    + rewrite Hset. by apply lookup_holes_user.
    + intros g Hin. apply Hsub. by apply Hsub'.
Qed.

(** The listener at [j] removes and adds itself: it is the last entry
    afterwards. *)
Lemma resub_step j s :
  resub_inv e a id idg others j j s →
  ∃ s', apply cfg rec (User id) args s = Some (s', Returns Plain)
        ∧ resub_inv e a id idg others (S j) (length (set_at a s)) s'.
Proof using All.
  intros [Hinv He _ Hj Hg Hsub].
  pose proof (lookup_lt_Some _ _ _ Hj) as Hlt.
  set (f := User id) in *.
  set (s1 := log_call f args s).
  set (s2 := (off cfg e (JFn f) s1).1).
  set (s3 := (on cfg e (JFn f) s2).1).
  assert (inv s1) as Hinv1 by by apply (inv_ext s).
  assert (inv s2) as Hinv2 by by apply inv_off.
  assert (inv s3) as Hinv3 by by apply inv_on.
  destruct (ok_entry s (proj1 Hinv) e a He) as [Ha _].
  set (l := set_at a s) in *.
  assert (set_at a s2 = set_delete f l ∧ map s2 !! e = Some a
          ∧ length (sets s2) = length (sets s)) as (Hset2 & He2 & Hlen2).
  { unfold s2, off. simpl.
    set (t := call_trace cfg _ _ _ s1).
    assert (map t !! e = Some a) as Het by done.
    pose proof (set_at_remove e f a t Het Ha) as H1.
    pose proof (map_remove_entry e f a t Het) as H2.
    change (set_at a t) with l in H1, H2.
    rewrite (size_elem (User idg)) in H2.
    2:{ rewrite elements_set_delete. apply list_elem_of_filter.
        split; [|done]. intros [= ?]. done. }
    assert (length (sets (remove e f t).1) = length (sets s)) as H3.
    { unfold remove. rewrite Het. destruct (size _ =? 0); simpl;
        by rewrite length_insert. }
    destruct (remove e f t) as [t' d]. simpl in *. by rewrite H2. }
  assert (f ∉ elements (set_delete f l)) as Hfresh.
  { rewrite elements_set_delete, list_elem_of_filter. by intros [? _]. }
  assert (set_at a s3 = set_delete f l ++ [Some f] ∧ map s3 !! e = Some a)
    as (Hset3 & He3).
  { unfold s3, on. simpl.
    set (t := call_trace cfg _ _ _ s2).
    assert (map t !! e = Some a) as Het by done.
    destruct (set_at_add e f a t Het) as [H1 H2]; [simpl; lia|].
    rewrite set_at_with_handles, H1. change (set_at a t) with (set_at a s2).
    rewrite Hset2, set_add_new by done. split; [done|]. simpl. by rewrite H2. }
  exists s3. split.
  - change (apply_user cfg rec id args s = Some (s3, Returns Plain)).
    unfold apply_user. rewrite body_id. apply run_resubscribe.
  - split; [done|done|unfold l in *; lia|..].
    + rewrite Hset3. fold l.
      rewrite lookup_app_r by (rewrite length_set_delete; lia).
      by rewrite length_set_delete, Nat.sub_diag.
    + rewrite Hset3, elements_app, elements_set_delete.
      apply elem_of_app. left. apply list_elem_of_filter. split; [|done].
      intros [= ?]. done.
    + intros g. rewrite Hset3, elements_app, elements_set_delete.
      intros [[_ Hin]%list_elem_of_filter|Hin]%elem_of_app; [by apply Hsub|].
      left. simpl in Hin. by apply list_elem_of_singleton in Hin.
Qed.

Lemma resub_loop m : ∀ i j s,
  resub_inv e a id idg others i j s →
  emit_loop cfg rec (j - i + m) a i e args s = None.
Proof using All.
  induction m as [|m IH]; intros i j s Hri;
    destruct (resub_reach i j s Hri) as (s1 & -> & Hri1); [done|].
  destruct (resub_step j s1 Hri1) as (s2 & Happ & Hri2).
  rewrite emit_loop_S, (ri_at _ _ _ _ _ _ _ _ Hri1), Happ.
  specialize (IH _ _ _ Hri2).
  destruct (emit_loop cfg rec m a (S j) e args s2) as [r|] eqn:Hr; [|done].
  rewrite (emit_loop_mono cfg rec rec (λ _ _ _ H, H) m _ a (S j) e args s2 r) in IH;
    [done|lia|done].
Qed.

End Diverge.

(** X15.  A listener that unsubscribes and subscribes itself while [emit] runs
    keeps [emit] from ever returning, when [e] has another listener
    subscribed with [on].  [delete] leaves a hole behind the iterator and
    [add] appends the listener to the very [Set] being iterated, so the loop
    reaches it again and again: with whatever bound on the number of steps,
    [emit] does not end.  (The other listeners of [e] do not call the
    emitter, and do not throw under [strict].) *)
Theorem emit_resubscribe_diverges (cfg : config) (e : event) (id idg : nat)
    (args : list nat) (out : fn → outcome) (s : state) :
  inv s →
  User id ∈ listeners e s → User idg ∈ listeners e s → idg ≠ id →
  (∀ hist, body cfg id hist args = resubscribe e id) →
  (∀ g, g ∈ listeners e s → g ≠ User id → calm cfg args out g) →
  (strict cfg = false
   ∨ ∀ g err, g ∈ listeners e s → g ≠ User id → out (inner g) ≠ Throws err) →
  ∀ n fuel, emit cfg (run cfg n) fuel e args s = None.
Proof.
  intros Hinv Hf Hg Hne Hbody Hcalm Hsafe n fuel.
  destruct (emit cfg (run cfg n) fuel e args s) as [r|] eqn:Hemit; [|done].
  exfalso.
  set (a := getListeners e s).
  destruct (elements_lookup _ _ Hf) as [j Hj]. fold a in Hj.
  apply (exec_mono cfg (run cfg n) (run cfg (S (S (S n))))
           (λ p s0 r0, run_mono cfg n (S (S (S n))) p s0 r0 ltac:(lia))
           fuel (j + fuel) (CEmit e args) s r ltac:(lia)) in Hemit.
  simpl in Hemit. unfold emit in Hemit. fold a in Hemit.
  rewrite set_at_call_trace in Hemit.
  rewrite (size_elem (User id)) in Hemit by done.
  set (s1 := call_trace cfg _ _ _ s) in Hemit.
  assert (map s !! e = Some a) as He.
  { unfold a, getListeners. destruct (map s !! e) as [b|] eqn:Hb; [done|].
    rewrite (listeners_no_entry e s (proj1 Hinv) Hb) in Hf.
    by apply elem_of_nil in Hf. }
  rewrite <-(Nat.sub_0_r j) in Hemit at 1.
  rewrite (resub_loop cfg e a id idg args out
             (filter (λ g, g ≠ User id) (listeners e s)) n) in Hemit; try done.
  - intros g [? ?]%list_elem_of_filter. by apply Hcalm.
  - destruct Hsafe as [?|Hsafe]; [by left|right].
    intros g err [? ?]%list_elem_of_filter. by apply Hsafe.
  - split; try done.
    + by apply (inv_ext s).
    + lia.
    + intros g Hin. destruct (decide (g = User id)) as [->|Hgne]; [by left|].
      right. by apply list_elem_of_filter.
Qed.

(** ** Listeners that change the listeners of the event being emitted *)

Lemma elements_split (l : list (option fn)) (l1 l2 : list fn) (f : fn) :
  elements l = l1 ++ f :: l2 →
  ∃ j, l !! j = Some (Some f)
       ∧ elements (take j l) = l1 ∧ elements (drop (S j) l) = l2.
Proof.
  revert l1. induction l as [|[g|] l IH]; intros l1 Hl.
  - by destruct l1.
  - rewrite elements_cons_Some in Hl. destruct l1 as [|g1 l1].
    + injection Hl as -> <-. by exists 0.
    + injection Hl as -> Hl. destruct (IH l1 Hl) as (j & Hj & Ht & Hd).
      exists (S j). split_and!; [done| |done].
      cbn [take]. by rewrite elements_cons_Some, Ht.
  - rewrite elements_cons_None in Hl. destruct (IH l1 Hl) as (j & Hj & Ht & Hd).
    exists (S j). split_and!; [done| |done].
    cbn [take]. by rewrite elements_cons_None, Ht.
Qed.

Lemma quiet_user cfg args out e g :
  quiet cfg args out g →
  calm cfg args out g ∧ ¬ is_once g ∧ calls_of g = [g]
  ∧ report_of cfg e out g = report cfg e out g.
Proof.
  intros (id & -> & Hb). split_and!; [by exists id|by intros ?|done|done].
Qed.

Lemma quiet_users cfg args out (ls : list fn) :
  (∀ g, g ∈ ls → quiet cfg args out g) →
  ls ≫= calls_of = ls ∧ filter (λ g, is_once g) ls = [].
Proof.
  induction ls as [|g ls IH]; intros Hq; [done|].
  destruct (IH ltac:(intros; apply Hq; by right)) as [H1 H2].
  destruct (quiet_user cfg args out (EString "") g ltac:(apply Hq; left))
    as (_ & Ho & Hc & _).
  split.
  - by rewrite bind_cons, Hc, H1.
  - by rewrite filter_cons_False.
Qed.

Lemma emit_loop_end cfg rec m a i e args s :
  length (set_at a s) ≤ i →
  emit_loop cfg rec (S m) a i e args s = Some (s, AUndefined).
Proof.
  intros Hle. rewrite emit_loop_S.
  by rewrite (proj2 (lookup_ge_None _ _)).
Qed.

Lemma emitAsync_map_app cfg rec (l1 l2 : list fn) e args s :
  emitAsync_map cfg rec (l1 ++ l2) e args s
  = match emitAsync_map cfg rec l1 e args s with
    | None => None
    | Some (s1, cs1) =>
        match emitAsync_map cfg rec l2 e args s1 with
        | None => None
        | Some (s2, cs2) => Some (s2, cs1 ++ cs2)
        end
    end.
Proof.
  revert s. induction l1 as [|g l1 IH]; intros s; simpl.
  - by destruct (emitAsync_map cfg rec l2 e args s) as [[s2 cs2]|].
  - destruct (apply cfg rec g args s) as [[s1 o]|]; [|done].
    destruct (settle cfg e g o s1) as [s2 c]. rewrite IH.
    destruct (emitAsync_map cfg rec l1 e args s2) as [[s3 cs]|]; [|done].
    by destruct (emitAsync_map cfg rec l2 e args s3) as [[s4 cs2]|].
Qed.

Section Users.

Context (cfg : config) (e : event) (args : list nat) (out : fn → outcome)
        (a n : nat).

(** The loop of [emit] over entries [i] to [i + k - 1], when the listeners
    there are client functions that do not call the emitter. *)
Lemma emit_loop_users k i s :
  inv s → linked e a s → i + k ≤ length (set_at a s) →
  let mid := elements (take k (drop i (set_at a s))) in
  (∀ g, g ∈ mid → quiet cfg args out g) →
  (strict cfg = false ∨ ∀ g err, g ∈ mid → out g ≠ Throws err) →
  ∃ s',
    (∀ fuel, emit_loop cfg (run cfg (S n)) (k + fuel) a i e args s
             = emit_loop cfg (run cfg (S n)) fuel a (i + k) e args s')
    ∧ inv s' ∧ linked e a s'
    ∧ set_at a s' = set_at a s
    ∧ calls_log s' = calls_log s ++ ((λ g, (g, args)) <$> mid).
Proof.
  intros Hinv Hlink Hlen mid Hq Hsafe.
  destruct (quiet_users cfg args out mid Hq) as [Hcalls Honce].
  destruct (emit_loop_calm cfg e args out a n k i s)
    as (s' & Hloop & Hinv' & Hlink' & Hset & Hc & _); try done.
  - intros g Hg. by apply (quiet_user cfg args out e g), Hq.
  - destruct Hsafe as [?|Hsafe]; [by left|right]. intros g err Hg.
    destruct (Hq g Hg) as (id & -> & _). by apply Hsafe.
  - fold mid in Hset, Hc. rewrite Honce, holes_nil in Hset.
    rewrite Hcalls in Hc. by exists s'.
Qed.

End Users.

Lemma run_subscribes cfg e idg n s :
  run cfg (S (S n)) (subscribes e idg) s
  = Some ((on cfg e (JFn (User idg)) s).1, Returns Plain).
Proof.
  unfold subscribes. cbn [run exec to_js].
  by destruct (on cfg e (JFn (User idg)) s) as [s2 h].
Qed.

Lemma run_unsubscribes cfg e idg n s :
  run cfg (S (S n)) (unsubscribes e idg) s
  = Some ((off cfg e (JFn (User idg)) s).1, Returns Plain).
Proof.
  unfold unsubscribes. cbn [run exec to_js].
  by destruct (off cfg e (JFn (User idg)) s) as [s2 h].
Qed.

Lemma set_at_on cfg e f a s :
  reg_ok s → map s !! e = Some a →
  set_at a (on cfg e (JFn f) s).1 = set_add f (set_at a s)
  ∧ map (on cfg e (JFn f) s).1 = map s.
Proof.
  intros Hok He. destruct (ok_entry s Hok e a He) as [Ha _].
  unfold on. simpl. set (t := call_trace cfg _ _ _ s).
  destruct (set_at_add e f a t He Ha) as [H1 H2].
  by rewrite set_at_with_handles.
Qed.

Lemma set_at_off cfg e f g a s :
  reg_ok s → map s !! e = Some a → g ∈ elements (set_at a s) → g ≠ f →
  set_at a (off cfg e (JFn f) s).1 = set_delete f (set_at a s)
  ∧ map (off cfg e (JFn f) s).1 = map s.
Proof.
  intros Hok He Hg Hne. destruct (ok_entry s Hok e a He) as [Ha _].
  unfold off. simpl. set (t := call_trace cfg _ _ _ s).
  pose proof (set_at_remove e f a t He Ha) as H1.
  pose proof (map_remove_entry e f a t He) as H2.
  change (set_at a t) with (set_at a s) in H1, H2.
  rewrite (size_elem g) in H2.
  2:{ rewrite elements_set_delete. by apply list_elem_of_filter. }
  by destruct (remove e f t) as [t' d].
Qed.

(** X17.  A listener subscribed to [e] by a listener of [e] while [e] is being
    emitted.  Let the listeners of [e] be [l1], then [f], then [l2], where
    [f] calls [on(e, g)] for a [g] that is not yet a listener, and all the
    others, like [g], do not call the emitter (and do not throw under
    [strict]).  [emit] iterates the [Set] itself, so it calls [l1], [f],
    [l2] and then [g] as well.  [emitAsync] iterates a copy: it calls [l1],
    [f], [l2] and not [g].  Either way [g] is the last listener of [e]
    afterwards. *)
Theorem emit_reaches_added_listener (cfg : config) (e : event) (id idg : nat)
    (args : list nat) (out : fn → outcome) (l1 l2 : list fn) (s : state)
    (n fuel : nat) :
  inv s →
  listeners e s = l1 ++ User id :: l2 →
  User idg ∉ listeners e s →
  (∀ hist, body cfg id hist args = subscribes e idg) →
  (∀ g, g ∈ l1 ++ l2 ++ [User idg] → quiet cfg args out g) →
  (strict cfg = false ∨ ∀ g err, g ∈ l1 ++ l2 ++ [User idg] → out g ≠ Throws err) →
  length (set_at (getListeners e s) s) + 1 < fuel →
  (∃ s', emit cfg (run cfg (S (S n))) fuel e args s = Some (s', AUndefined)
     ∧ calls_log s'
       = calls_log s ++ ((λ g, (g, args)) <$> (l1 ++ User id :: l2 ++ [User idg]))
     ∧ listeners e s' = l1 ++ User id :: l2 ++ [User idg])
  ∧ (∃ s' cs, emitAsync cfg (run cfg (S (S n))) e args s = Some (s', APromise cs)
       ∧ calls_log s'
         = calls_log s ++ ((λ g, (g, args)) <$> (l1 ++ User id :: l2))
       ∧ listeners e s' = l1 ++ User id :: l2 ++ [User idg]).
Proof.
  intros Hinv Hls Hg Hbody Hq Hsafe Hfuel.
  set (a := getListeners e s) in *.
  set (f := User id) in *. set (g := User idg) in *.
  set (s1 := call_trace cfg (or_hook (trace cfg) (g_trace (globalOptions cfg)))
               "emit" (PEmission (elements (set_at a s)) e args) s).
  assert (elements (set_at a s) = l1 ++ f :: l2) as Hel by exact Hls.
  assert (f ∈ elements (set_at a s)) as Hf
    by (rewrite Hel; apply elem_of_app; right; left).
  assert (map s !! e = Some a) as He.
  { unfold a, getListeners. destruct (map s !! e) as [b|] eqn:Hb; [done|].
    rewrite (listeners_no_entry e s (proj1 Hinv) Hb) in Hls. by destruct l1. }
  assert (∀ g', g' ∈ l1 → quiet cfg args out g') as Hq1
    by (intros; apply Hq; apply elem_of_app; by left).
  assert (∀ g', g' ∈ l2 ++ [g] → quiet cfg args out g') as Hq2
    by (intros; apply Hq; apply elem_of_app; by right).
  split.
  - destruct (elements_split _ _ _ _ Hel) as (j & Hj & Htake & Hdrop).
    pose proof (lookup_lt_Some _ _ _ Hj) as Hlt.
    (* the listeners before [f] *)
    destruct (emit_loop_users cfg e args out a (S n) j 0 s1)
      as (sa & Hloop1 & Hinva & Hlinka & Hseta & Hca);
      [by apply (inv_ext s)|by left|simpl; unfold s1, set_at in *; simpl; lia
      |rewrite drop_0; change (set_at a s1) with (set_at a s); by rewrite Htake
      |rewrite drop_0; change (set_at a s1) with (set_at a s); rewrite Htake;
       destruct Hsafe as [?|Hsafe]; [by left|right]; intros g' err Hg';
       apply Hsafe, elem_of_app; by left|].
    rewrite drop_0 in Hca. change (set_at a s1) with (set_at a s) in Hseta, Hca.
    rewrite Htake in Hca.
    (* [f] *)
    set (sb := (on cfg e (JFn g) (log_call f args sa)).1).
    assert (apply cfg (run cfg (S (S n))) f args sa = Some (sb, Returns Plain))
      as Happ.
    { change (apply_user cfg (run cfg (S (S n))) id args sa
              = Some (sb, Returns Plain)).
      unfold apply_user. rewrite Hbody. apply run_subscribes. }
    assert (map sa !! e = Some a) as Hea.
    { destruct Hlinka as [?|[_ Hnil]]; [done|].
      rewrite Hseta, Hel in Hnil. by destruct l1. }
    assert (inv sb) as Hinvb by (apply inv_on; by apply (inv_ext sa)).
    destruct (set_at_on cfg e g a (log_call f args sa)) as [Hsetb Hmapb];
      [apply (reg_ok_ext sa); [done..|apply Hinva]|done|].
    fold sb in Hsetb, Hmapb. rewrite set_at_log_call, Hseta in Hsetb.
    rewrite set_add_new in Hsetb by done.
    assert (calls_log sb = calls_log sa ++ [(f, args)]) as Hcb
      by (unfold sb; by rewrite calls_log_on).
    (* the listeners after [f], and [g] *)
    assert (elements (take (length (set_at a s) - j) (drop (S j) (set_at a sb)))
            = l2 ++ [g]) as Hmid.
    { rewrite Hsetb, drop_app_le by lia.
      rewrite take_ge by (rewrite length_app, length_drop; simpl; lia).
      by rewrite elements_app, Hdrop. }
    destruct (emit_loop_users cfg e args out a (S n)
                (length (set_at a s) - j) (S j) sb)
      as (sc & Hloop2 & Hinvc & Hlinkc & Hsetc & Hcc);
      [done|left; by rewrite Hmapb|rewrite Hsetb, length_app; simpl; lia
      |by rewrite Hmid
      |rewrite Hmid; destruct Hsafe as [?|Hsafe]; [by left|right];
       intros g' err Hg'; apply Hsafe, elem_of_app; by right|].
    rewrite Hmid in Hcc.
    exists sc. split_and!.
    + unfold emit. rewrite set_at_call_trace. fold a.
      rewrite (size_elem f) by done.
      change (emit_loop cfg (run cfg (S (S n))) fuel a 0 e args s1
              = Some (sc, AUndefined)).
      replace fuel with (j + S ((length (set_at a s) - j)
                                + S (fuel - length (set_at a s) - 2))) by lia.
      rewrite Hloop1, emit_loop_S. change (0 + j) with j.
      rewrite Hseta, Hj, Happ.
      rewrite Hloop2. apply emit_loop_end. rewrite Hsetc, Hsetb, length_app.
      simpl. lia.
    + rewrite Hcc, Hcb, Hca. change (calls_log s1) with (calls_log s).
      repeat first [rewrite fmap_app|rewrite fmap_cons]. by rewrite <-!app_assoc.
    + rewrite (linked_listeners e a sc) by (done || apply Hinvc).
      rewrite Hsetc, Hsetb, elements_app, Hel. by rewrite <-app_assoc.
  - set (t1 := call_trace cfg (or_hook (trace cfg) (g_trace (globalOptions cfg)))
                 "emitAsync" (PEmission (elements (set_at a s)) e args) s).
    set (ta := after args t1 l1 (omap (report cfg e out) l1)).
    set (tb := (on cfg e (JFn g) (log_call f args ta)).1).
    set (tc := after args tb l2 (omap (report cfg e out) l2)).
    assert (apply cfg (run cfg (S (S n))) f args ta = Some (tb, Returns Plain))
      as Happ.
    { change (apply_user cfg (run cfg (S (S n))) id args ta
              = Some (tb, Returns Plain)).
      unfold apply_user. rewrite Hbody. apply run_subscribes. }
    exists tc, (((λ f, completion_of (out f)) <$> l1)
                ++ Fulfils :: ((λ f, completion_of (out f)) <$> l2)).
    split_and!.
    + unfold emitAsync. rewrite set_at_call_trace. fold a.
      rewrite (size_elem f) by done. fold t1.
      change (set_at a t1) with (set_at a s). rewrite Hel.
      rewrite emitAsync_map_app, (emitAsync_map_quiet cfg e args out (S n)) by done.
      fold ta. cbn [emitAsync_map]. rewrite Happ. cbn [settle].
      rewrite (emitAsync_map_quiet cfg e args out (S n)); [done|].
      intros g' Hg'. apply Hq2, elem_of_app. by left.
    + change (calls_log tc) with (calls_log tb ++ ((λ f, (f, args)) <$> l2)).
      unfold tb. rewrite calls_log_on.
      change (calls_log (log_call f args ta))
        with ((calls_log s ++ ((λ f, (f, args)) <$> l1)) ++ [(f, args)]).
      repeat first [rewrite fmap_app|rewrite fmap_cons]. by rewrite <-!app_assoc.
    + rewrite (listeners_ext e tb tc) by done. unfold tb.
      rewrite on_listeners by (apply (reg_ok_ext s); [done..|apply Hinv]).
      rewrite (listeners_ext e s (log_call f args ta)) by done.
      rewrite decide_False by done. by rewrite Hls, <-app_assoc.
Qed.

(** X18.  A listener unsubscribed from [e] by a listener of [e] while [e] is being
    emitted.  Let the listeners of [e] be [l1], then [f], then [l2], where
    [f] calls [off(e, g)] for a [g] in [l2], and all the others do not call
    the emitter (and do not throw under [strict]).  [emit] iterates the
    [Set] itself, so it does not call [g].  [emitAsync] iterates a copy: it
    calls [g] although [g] is no longer subscribed.  Either way [g] is not a
    listener of [e] afterwards. *)
Theorem emit_skips_removed_listener (cfg : config) (e : event) (id idg : nat)
    (args : list nat) (out : fn → outcome) (l1 l2 : list fn) (s : state)
    (n fuel : nat) :
  inv s →
  listeners e s = l1 ++ User id :: l2 →
  User idg ∈ l2 →
  (∀ hist, body cfg id hist args = unsubscribes e idg) →
  (∀ g, g ∈ l1 ++ l2 → quiet cfg args out g) →
  (strict cfg = false ∨ ∀ g err, g ∈ l1 ++ l2 → out g ≠ Throws err) →
  length (set_at (getListeners e s) s) < fuel →
  let rest := filter (λ g, g ≠ User idg) l2 in
  (∃ s', emit cfg (run cfg (S (S n))) fuel e args s = Some (s', AUndefined)
     ∧ calls_log s'
       = calls_log s ++ ((λ g, (g, args)) <$> (l1 ++ User id :: rest))
     ∧ listeners e s' = l1 ++ User id :: rest)
  ∧ (∃ s' cs, emitAsync cfg (run cfg (S (S n))) e args s = Some (s', APromise cs)
       ∧ calls_log s'
         = calls_log s ++ ((λ g, (g, args)) <$> (l1 ++ User id :: l2))
       ∧ listeners e s' = l1 ++ User id :: rest).
Proof.
  intros Hinv Hls Hg Hbody Hq Hsafe Hfuel rest.
  set (a := getListeners e s) in *.
  set (f := User id) in *. set (g := User idg) in *.
  set (s1 := call_trace cfg (or_hook (trace cfg) (g_trace (globalOptions cfg)))
               "emit" (PEmission (elements (set_at a s)) e args) s).
  assert (elements (set_at a s) = l1 ++ f :: l2) as Hel by exact Hls.
  assert (f ∈ elements (set_at a s)) as Hf
    by (rewrite Hel; apply elem_of_app; right; left).
  assert (map s !! e = Some a) as He.
  { unfold a, getListeners. destruct (map s !! e) as [b|] eqn:Hb; [done|].
    rewrite (listeners_no_entry e s (proj1 Hinv) Hb) in Hls. by destruct l1. }
  assert (NoDup (l1 ++ f :: l2)) as Hnd
    by (rewrite <-Hls; apply listeners_NoDup, Hinv).
  apply NoDup_app in Hnd as (_ & Hl1 & [Hfl2 _]%NoDup_cons).
  assert (f ≠ g) as Hfg by (intros ->; done).
  assert (g ∉ l1) as Hgl1.
  { intros Hin. apply (Hl1 g Hin). by right. }
  assert (filter (λ x, x ≠ g) (l1 ++ f :: l2) = l1 ++ f :: rest) as Hfilter.
  { rewrite filter_app, filter_ne_absent by done.
    by rewrite filter_cons_True by done. }
  assert (∀ g', g' ∈ l1 → quiet cfg args out g') as Hq1
    by (intros; apply Hq; apply elem_of_app; by left).
  assert (∀ g', g' ∈ l2 → quiet cfg args out g') as Hq2
    by (intros; apply Hq; apply elem_of_app; by right).
  split.
  - destruct (elements_split _ _ _ _ Hel) as (j & Hj & Htake & Hdrop).
    pose proof (lookup_lt_Some _ _ _ Hj) as Hlt.
    destruct (emit_loop_users cfg e args out a (S n) j 0 s1)
      as (sa & Hloop1 & Hinva & Hlinka & Hseta & Hca);
      [by apply (inv_ext s)|by left|simpl; unfold s1, set_at in *; simpl; lia
      |rewrite drop_0; change (set_at a s1) with (set_at a s); by rewrite Htake
      |rewrite drop_0; change (set_at a s1) with (set_at a s); rewrite Htake;
       destruct Hsafe as [?|Hsafe]; [by left|right]; intros g' err Hg';
       apply Hsafe, elem_of_app; by left|].
    rewrite drop_0 in Hca. change (set_at a s1) with (set_at a s) in Hseta, Hca.
    rewrite Htake in Hca.
    set (sb := (off cfg e (JFn g) (log_call f args sa)).1).
    assert (apply cfg (run cfg (S (S n))) f args sa = Some (sb, Returns Plain))
      as Happ.
    { change (apply_user cfg (run cfg (S (S n))) id args sa
              = Some (sb, Returns Plain)).
      unfold apply_user. rewrite Hbody. apply run_unsubscribes. }
    assert (map sa !! e = Some a) as Hea.
    { destruct Hlinka as [?|[_ Hnil]]; [done|].
      rewrite Hseta, Hel in Hnil. by destruct l1. }
    assert (inv sb) as Hinvb by (apply inv_off; by apply (inv_ext sa)).
    destruct (set_at_off cfg e g f a (log_call f args sa)) as [Hsetb Hmapb];
      [apply (reg_ok_ext sa); [done..|apply Hinva]|done
      |by rewrite set_at_log_call, Hseta|done|].
    fold sb in Hsetb, Hmapb. rewrite set_at_log_call, Hseta in Hsetb.
    assert (calls_log sb = calls_log sa ++ [(f, args)]) as Hcb
      by (unfold sb; by destruct (logs_off cfg e g (log_call f args sa))
            as (_ & _ & ->)).
    assert (elements (take (length (set_at a s) - S j) (drop (S j) (set_at a sb)))
            = rest) as Hmid.
    { rewrite Hsetb, set_delete_drop.
      rewrite take_ge by (rewrite length_set_delete, length_drop; lia).
      by rewrite elements_set_delete, Hdrop. }
    assert (∀ g', g' ∈ rest → g' ∈ l2) as Hrest
      by (intros g'; unfold rest; by intros [_ ?]%list_elem_of_filter).
    destruct (emit_loop_users cfg e args out a (S n)
                (length (set_at a s) - S j) (S j) sb)
      as (sc & Hloop2 & Hinvc & Hlinkc & Hsetc & Hcc);
      [done|left; by rewrite Hmapb|rewrite Hsetb, length_set_delete; lia
      |rewrite Hmid; auto
      |rewrite Hmid; destruct Hsafe as [?|Hsafe]; [by left|right];
       intros g' err Hg'; apply Hsafe, elem_of_app; right; by apply Hrest|].
    rewrite Hmid in Hcc.
    exists sc. split_and!.
    + unfold emit. rewrite set_at_call_trace. fold a.
      rewrite (size_elem f) by done.
      change (emit_loop cfg (run cfg (S (S n))) fuel a 0 e args s1
              = Some (sc, AUndefined)).
      replace fuel with (j + S ((length (set_at a s) - S j)
                                + S (fuel - length (set_at a s) - 1))) by lia.
      rewrite Hloop1, emit_loop_S. change (0 + j) with j.
      rewrite Hseta, Hj, Happ.
      rewrite Hloop2. apply emit_loop_end.
      rewrite Hsetc, Hsetb, length_set_delete. lia.
    + rewrite Hcc, Hcb, Hca. change (calls_log s1) with (calls_log s).
      repeat first [rewrite fmap_app|rewrite fmap_cons]. by rewrite <-!app_assoc.
    + rewrite (linked_listeners e a sc) by (done || apply Hinvc).
      by rewrite Hsetc, Hsetb, elements_set_delete, Hel.
  - set (t1 := call_trace cfg (or_hook (trace cfg) (g_trace (globalOptions cfg)))
                 "emitAsync" (PEmission (elements (set_at a s)) e args) s).
    set (ta := after args t1 l1 (omap (report cfg e out) l1)).
    set (tb := (off cfg e (JFn g) (log_call f args ta)).1).
    set (tc := after args tb l2 (omap (report cfg e out) l2)).
    assert (apply cfg (run cfg (S (S n))) f args ta = Some (tb, Returns Plain))
      as Happ.
    { change (apply_user cfg (run cfg (S (S n))) id args ta
              = Some (tb, Returns Plain)).
      unfold apply_user. rewrite Hbody. apply run_unsubscribes. }
    exists tc, (((λ f, completion_of (out f)) <$> l1)
                ++ Fulfils :: ((λ f, completion_of (out f)) <$> l2)).
    split_and!.
    + unfold emitAsync. rewrite set_at_call_trace. fold a.
      rewrite (size_elem f) by done. fold t1.
      change (set_at a t1) with (set_at a s). rewrite Hel.
      rewrite emitAsync_map_app, (emitAsync_map_quiet cfg e args out (S n)) by done.
      fold ta. cbn [emitAsync_map]. rewrite Happ. cbn [settle].
      by rewrite (emitAsync_map_quiet cfg e args out (S n)).
    + change (calls_log tc) with (calls_log tb ++ ((λ f, (f, args)) <$> l2)).
      unfold tb. destruct (logs_off cfg e g (log_call f args ta)) as (_ & _ & ->).
      change (calls_log (log_call f args ta))
        with ((calls_log s ++ ((λ f, (f, args)) <$> l1)) ++ [(f, args)]).
      repeat first [rewrite fmap_app|rewrite fmap_cons]. by rewrite <-!app_assoc.
    + rewrite (listeners_ext e tb tc) by done. unfold tb.
      rewrite off_listeners by (apply (reg_ok_ext s); [done..|apply Hinv]).
      rewrite (listeners_ext e s (log_call f args ta)) by done.
      by rewrite Hls.
Qed.

Lemma length_sets_remove (e : event) (f : fn) (s : state) :
  length (sets (remove e f s).1) = length (sets s).
Proof.
  unfold remove. destruct (map s !! e) as [a|]; [|done].
  destruct (size _ =? 0); simpl; by rewrite length_insert.
Qed.

Lemma set_at_add_other (e : event) (f : fn) (a : nat) (s : state) :
  map s !! e = None → a < length (sets s) → set_at a (add e f s) = set_at a s.
Proof.
  intros He Ha. unfold add. rewrite He. rewrite set_at_with_map, set_at_alloc.
  rewrite decide_False; [done|lia].
Qed.

(** X16.  The same listener alone.  When the listener that unsubscribes and
    subscribes itself is the only listener of [e], [off] empties the [Set]
    and [remove] drops it from [map], so [on] makes a new [Set]; the loop
    goes on over the old one, which stays empty, and ends.  [emit] returns,
    the listener was called once, and it is the listener of [e] again. *)
Theorem emit_resubscribe_alone (cfg : config) (e : event) (id : nat)
    (args : list nat) (s : state) (n fuel : nat) :
  inv s →
  listeners e s = [User id] →
  (∀ hist, body cfg id hist args = resubscribe e id) →
  length (set_at (getListeners e s) s) < fuel →
  ∃ s',
    emit cfg (run cfg (S (S (S n)))) fuel e args s = Some (s', AUndefined)
    ∧ calls_log s' = calls_log s ++ [(User id, args)]
    ∧ listeners e s' = [User id].
Proof.
  intros Hinv Hls Hbody Hfuel.
  set (a := getListeners e s) in *. set (f := User id) in *.
  set (s1 := call_trace cfg (or_hook (trace cfg) (g_trace (globalOptions cfg)))
               "emit" (PEmission (elements (set_at a s)) e args) s).
  assert (elements (set_at a s) = [] ++ f :: []) as Hel by exact Hls.
  assert (f ∈ elements (set_at a s)) as Hf by (rewrite Hel; left).
  destruct (elements_split _ _ _ _ Hel) as (j & Hj & Htake & Hdrop).
  pose proof (lookup_lt_Some _ _ _ Hj) as Hlt.
  destruct (emit_loop_calm cfg e args (λ _, Returns Plain) a (S (S n)) j 0 s1)
    as (sa & Hloop1 & Hinva & Hlinka & Hseta & Hca & _);
    [by apply (inv_ext s)
    |apply (linked_ext e a s); [done..|apply linked_getListeners, Hinv]
    |simpl; unfold s1, set_at in *; simpl; lia
    |rewrite drop_0; change (set_at a s1) with (set_at a s); rewrite Htake;
     intros g Hg; by apply elem_of_nil in Hg
    |by right|].
  rewrite drop_0 in Hseta, Hca. change (set_at a s1) with (set_at a s) in Hseta, Hca.
  rewrite Htake in Hseta, Hca. simpl in Hseta, Hca.
  rewrite holes_nil in Hseta. rewrite app_nil_r in Hca.
  assert (map sa !! e = Some a) as Hea.
  { destruct Hlinka as [?|[_ Hnil]]; [done|]. by rewrite Hseta, Hel in Hnil. }
  destruct (ok_entry sa (proj1 Hinva) e a Hea) as [Ha _].
  set (sb := log_call f args sa).
  set (s2 := (off cfg e (JFn f) sb).1).
  set (s3 := (on cfg e (JFn f) s2).1).
  assert (inv sb) as Hinvb by by apply (inv_ext sa).
  assert (inv s2) as Hinv2 by by apply inv_off.
  assert (inv s3) as Hinv3 by by apply inv_on.
  assert (apply cfg (run cfg (S (S (S n)))) f args sa = Some (s3, Returns Plain))
    as Happ.
  { change (apply_user cfg (run cfg (S (S (S n)))) id args sa
            = Some (s3, Returns Plain)).
    unfold apply_user. rewrite Hbody. apply run_resubscribe. }
  assert (elements (set_delete f (set_at a s)) = []) as Hnil.
  { rewrite elements_set_delete, Hel. cbn [app].
    by rewrite filter_cons_False, filter_nil by (intros H; by apply H). }
  assert (set_at a s2 = set_delete f (set_at a s) ∧ map s2 !! e = None
          ∧ length (sets s2) = length (sets sa)) as (Hset2 & He2 & Hlen2).
  { unfold s2, off. simpl. set (t := call_trace cfg _ _ _ sb).
    pose proof (set_at_remove e f a t Hea Ha) as H1.
    pose proof (map_remove_entry e f a t Hea) as H2.
    pose proof (length_sets_remove e f t) as H3.
    change (set_at a t) with (set_at a sa) in H1, H2. rewrite Hseta in H1, H2.
    unfold size in H2. rewrite Hnil in H2. simpl in H2.
    destruct (remove e f t) as [t' d]. simpl in *.
    split_and!; [done| |done]. rewrite H2. apply lookup_delete_eq. }
  assert (set_at a s3 = set_delete f (set_at a s)) as Hset3.
  { unfold s3, on. simpl. rewrite set_at_with_handles.
    rewrite set_at_add_other; [done|done|simpl; lia]. }
  exists s3. split_and!.
  - unfold emit. rewrite set_at_call_trace. fold a.
    rewrite (size_elem f) by done.
    change (emit_loop cfg (run cfg (S (S (S n)))) fuel a 0 e args s1
            = Some (s3, AUndefined)).
    replace fuel with (j + S (fuel - S j)) by lia.
    rewrite Hloop1, emit_loop_S. change (0 + j) with j.
    rewrite Hseta, Hj, Happ.
    rewrite (emit_loop_quiet cfg e args (λ _, Returns Plain)).
    + rewrite Hset3, elements_drop_nil by done. simpl. by rewrite after_nil.
    + intros g. rewrite Hset3, Hnil. by intros ?%elem_of_nil.
    + rewrite Hset3, length_set_delete. lia.
  - unfold s3. rewrite calls_log_on. unfold s2.
    destruct (logs_off cfg e f sb) as (_ & _ & ->). simpl. by rewrite Hca.
  - unfold s3. rewrite on_listeners by apply Hinv2.
    unfold s2. rewrite off_listeners by apply Hinvb.
    rewrite (listeners_ext e sa sb) by done.
    rewrite (linked_listeners e a sa) by (done || apply Hinva).
    rewrite Hseta, Hel. cbn [app].
    rewrite filter_cons_False, filter_nil by (intros H; by apply H).
    rewrite decide_False by apply not_elem_of_nil. done.
Qed.

(** ** [emitAsync] over listeners subscribed with [on] and with [once] *)

Section CalmAsync.

Context (cfg : config) (e : event) (args : list nat) (out : fn → outcome)
        (a n : nat).

Lemma emitAsync_map_calm ls : ∀ s,
  inv s → linked e a s → NoDup ls →
  (∀ g, g ∈ ls → g ∈ elements (set_at a s)) →
  (∀ g, g ∈ ls → calm cfg args out g) →
  ∃ s',
    emitAsync_map cfg (run cfg (S n)) ls e args s
    = Some (s', completion_via out <$> ls)
    ∧ inv s' ∧ linked e a s'
    ∧ set_at a s' = holes (filter (λ g, is_once g) ls) (set_at a s)
    ∧ calls_log s' = calls_log s ++ ((λ g, (g, args)) <$> (ls ≫= calls_of))
    ∧ error_log s' = error_log s ++ omap (report_of cfg e out) ls
    ∧ trace_log s' = trace_log s
    ∧ (∀ e', e' ≠ e → listeners e' s' = listeners e' s)
    ∧ (∀ h f, Adapter h f ∈ ls →
         handles s' !! h = Some (Handle e (Adapter h f) false))
    ∧ (∀ h c, handles s !! h = Some c → active c = false →
         handles s' !! h = Some c).
Proof.
  induction ls as [|g ls IH]; intros s Hinv Hlink Hnd Hin Hcalm.
  { exists s. simpl. rewrite holes_nil, !app_nil_r.
    split_and!; try done. intros h f Hf. by apply elem_of_nil in Hf. }
  apply NoDup_cons in Hnd as [Hg Hnd].
  assert (g ∈ elements (set_at a s)) as Hgin by (apply Hin; left).
  assert (calm cfg args out g) as Hgc by (apply Hcalm; left).
  assert (∀ g', g' ∈ ls → calm cfg args out g') as Hcalm'
    by (intros; apply Hcalm; by right).
  pose proof (ad_flat s (proj2 Hinv) a g Hgin) as Hflat.
  destruct g as [id|h [id|]]; [| |done].
  - (* a listener subscribed with [on] *)
    pose proof (apply_quiet cfg args out n (User id) s Hgc) as Happ.
    set (s1 := (settle cfg e (User id) (out (User id)) (log_call (User id) args s)).1).
    assert (settle cfg e (User id) (out (User id)) (log_call (User id) args s)
            = (s1, completion_of (out (User id)))) as Hsettle.
    { unfold s1. by destruct (out (User id)) as [[|[err|]]|err]. }
    assert (map s1 = map s ∧ sets s1 = sets s ∧ handles s1 = handles s
            ∧ trace_log s1 = trace_log s
            ∧ calls_log s1 = calls_log s ++ [(User id, args)]
            ∧ error_log s1
              = error_log s
                ++ from_option (λ x, [x]) [] (report_of cfg e out (User id)))
      as (Hm1 & Hs1 & Hh1 & Ht1 & Hc1 & He1).
    { unfold s1, report_of. simpl.
      destruct (out (User id)) as [[|[err|]]|err]; simpl; by rewrite ?app_nil_r. }
    destruct (IH s1) as
      (s' & Hmap & Hinv' & Hlink' & Hset & Hcalls & Herr & Htr & Hoth & Hused & Hstay);
      [by apply (inv_ext s)|by apply (linked_ext e a s)|done
      |intros g' Hg'; unfold set_at; rewrite Hs1; apply Hin; by right|done|].
    unfold set_at in Hset. rewrite Hs1 in Hset. fold (set_at a s) in Hset.
    exists s'. split_and!; [|done|done|..].
    + cbn [emitAsync_map]. rewrite Happ, Hsettle, Hmap. done.
    + rewrite filter_cons_False; [exact Hset|by intros ?].
    + rewrite Hcalls, Hc1, bind_cons, fmap_app. simpl. by rewrite <-app_assoc.
    + rewrite Herr, He1. simpl. rewrite <-app_assoc.
      by destruct (report_of cfg e out (User id)).
    + by rewrite Htr.
    + intros e' Hne. rewrite Hoth by done. by apply listeners_ext.
    + intros h f [?|Hf]%elem_of_cons; [done|by apply Hused].
    + intros h c Hh Hact. apply Hstay; [by rewrite Hh1|done].
  - (* a listener subscribed with [once] *)
    assert (map s !! e = Some a) as He.
    { destruct Hlink as [?|[_ Hnil]]; [done|].
      rewrite Hnil in Hgin. by apply elem_of_nil in Hgin. }
    destruct (apply_pending cfg e args out a n h id s Hinv He Hgin Hgc)
      as (s2 & Happ & Hinv2 & Hlink2 & Hset2 & Hc2 & He2 & Ht2 & Hoth2 & Hh2 & Hact
          & _).
    set (o := match out (User id) with
              | Returns _ => Returns Plain
              | Throws err => Throws err
              end) in *.
    set (s3 := (settle cfg e (Adapter h (User id)) o (log_call (User id) args s2)).1).
    assert (settle cfg e (Adapter h (User id)) o (log_call (User id) args s2)
            = (s3, completion_via out (Adapter h (User id)))) as Hsettle.
    { unfold s3, o. simpl. by destruct (out (User id)). }
    assert (map s3 = map s2 ∧ sets s3 = sets s2 ∧ handles s3 = handles s2
            ∧ trace_log s3 = trace_log s2
            ∧ calls_log s3 = calls_log s2 ++ [(User id, args)]
            ∧ error_log s3
              = error_log s2
                ++ from_option (λ x, [x]) []
                     (report_of cfg e out (Adapter h (User id))))
      as (Hm3 & Hs3 & Hh3 & Ht3 & Hc3 & He3).
    { unfold s3, o, report_of. simpl.
      destruct (out (User id)); simpl; by rewrite ?app_nil_r. }
    assert (set_at a s3 = set_delete (Adapter h (User id)) (set_at a s)) as Hset3
      by (unfold set_at; rewrite Hs3; exact Hset2).
    destruct (IH s3) as
      (s' & Hmap & Hinv' & Hlink' & Hset & Hcalls & Herr & Htr & Hoth & Hused & Hstay);
      [by apply (inv_ext s2)|by apply (linked_ext e a s2)|done| |done|].
    { intros g' Hg'. rewrite Hset3, elements_set_delete.
      apply list_elem_of_filter. split; [by intros ->|]. apply Hin. by right. }
    assert (h < length (handles s)) as Hlt by by eapply lookup_lt_Some.
    exists s'. split_and!; [|done|done|..].
    + cbn [emitAsync_map]. rewrite Happ. fold o. rewrite Hsettle, Hmap. done.
    + rewrite filter_cons_True by done. rewrite Hset, Hset3.
      apply holes_set_delete.
    + rewrite Hcalls, Hc3, Hc2, bind_cons, fmap_app. simpl.
      by rewrite <-!app_assoc.
    + rewrite Herr, He3, He2. simpl. rewrite <-app_assoc.
      by destruct (report_of cfg e out (Adapter h (User id))).
    + by rewrite Htr, Ht3.
    + intros e' Hne. rewrite Hoth by done.
      rewrite (listeners_ext e' s2 s3) by done. by apply Hoth2.
    + intros h' f [[= -> ->]|Hf]%elem_of_cons; [|by apply Hused].
      apply Hstay; [|done]. rewrite Hh3, Hh2.
      by apply list_lookup_insert_eq.
    + intros h' c Hh' Hact'. apply Hstay; [|done]. rewrite Hh3, Hh2.
      rewrite list_lookup_insert_ne; [done|]. intros ->.
      rewrite Hact in Hh'. by simplify_eq.
Qed.

End CalmAsync.

Lemma once_promises_fulfil (out : fn → outcome) (ls : list fn) :
  (∀ g, g ∈ ls → is_once g = true ∧ ∀ err, out (inner g) ≠ Throws err) →
  existsb rejected (completion_via out <$> ls) = false.
Proof.
  induction ls as [|g ls IH]; intros Hall; [done|].
  rewrite fmap_cons. cbn [existsb]. rewrite IH by (intros; apply Hall; by right).
  destruct (Hall g) as [Hg Hout]; [by left|].
  destruct g as [id|h f]; [done|]. simpl in *.
  destruct (out f) as [v|err]; [done|]. by destruct (Hout err).
Qed.

(** X25.  [emitAsync] over listeners subscribed with [on] and with [once].  Let
    the client function behind every listener of [e] return or throw without
    calling the emitter.  Then [emitAsync(e, ...args)] calls the listeners
    in insertion order, an arrow of [once] calling its client function right
    away, and the error hook is called for every listener whose client
    function throws.  Afterwards the listeners of [e] are exactly the ones
    subscribed with [on], and the handle of every [once] registration
    answers [false].  The promise made for an [on] listener settles as the
    value it returned; the one made for a [once] registration fulfils unless
    its client function threw, also when that function returned a promise
    that rejects: under [strict] as well, such a rejection does not reach
    the promise of [emitAsync]. *)
Theorem emitAsync_fires_once_registrations (cfg : config) (e : event)
    (args : list nat) (out : fn → outcome) (s : state) (n : nat) :
  inv s →
  (∀ g, g ∈ listeners e s → calm cfg args out g) →
  ∃ s',
    emitAsync cfg (run cfg (S n)) e args s
    = Some (s', APromise (completion_via out <$> listeners e s))
    ∧ calls_log s'
      = calls_log s ++ ((λ g, (g, args)) <$> (listeners e s ≫= calls_of))
    ∧ error_log s' = error_log s ++ omap (report_of cfg e out) (listeners e s)
    ∧ listeners e s' = filter (λ g, is_once g = false) (listeners e s)
    ∧ (∀ e', e' ≠ e → listeners e' s' = listeners e' s)
    ∧ (∀ h f, Adapter h f ∈ listeners e s → unsubscribe h s' = (s', false))
    ∧ ((∀ g, g ∈ listeners e s →
          is_once g = true ∧ ∀ err, out (inner g) ≠ Throws err) →
       emitAsync_rejects cfg (APromise (completion_via out <$> listeners e s))
       = false)
    ∧ inv s'.
Proof.
  intros Hinv Hcalm.
  set (a := getListeners e s) in *.
  set (s1 := call_trace cfg (or_hook (trace cfg) (g_trace (globalOptions cfg)))
               "emitAsync" (PEmission (elements (set_at a s)) e args) s).
  assert (listeners e s = elements (set_at a s)) as Hls by reflexivity.
  destruct (emitAsync_map_calm cfg e args out a n (listeners e s) s1)
    as (s' & Hmap & Hinv' & Hlink' & Hset & Hcalls & Herr & _ & Hoth & Hused & _);
    [by apply (inv_ext s)
    |apply (linked_ext e a s); [done..|apply linked_getListeners, Hinv]
    |apply listeners_NoDup, Hinv|done|done|].
  change (set_at a s1) with (set_at a s) in Hset.
  assert (listeners e s' = filter (λ g, is_once g = false) (listeners e s)) as Hl'.
  { rewrite (linked_listeners e a s') by (done || apply Hinv').
    rewrite Hset, elements_holes, <-Hls. apply filter_ext_elem.
    intros g Hg. rewrite list_elem_of_filter. destruct (is_once g); simpl.
    + split; [intros H; by destruct H|done].
    + split; [done|by intros _ [? _]]. }
  destruct (size (set_at a s) =? 0) eqn:Hz.
  - assert (listeners e s = []) as Hnil
      by (rewrite Hls; by apply size_zero_elements, Nat.eqb_eq).
    rewrite Hnil in Hmap, Hcalls, Herr, Hl', Hused |- *.
    simpl in Hmap. injection Hmap as <-.
    exists s1. split.
    { unfold emitAsync. cbv zeta. fold a. fold s1.
      change (set_at a s1) with (set_at a s). by rewrite Hz. }
    split_and!; [by rewrite Hcalls|by rewrite Herr|done| | | |done].
    + intros e' _. by apply listeners_ext.
    + intros h f Hf. by apply elem_of_nil in Hf.
    + intros _. unfold emitAsync_rejects. simpl. by rewrite andb_false_r.
  - exists s'. split_and!; [|done|done|done|done| | |done].
    + unfold emitAsync. cbv zeta. fold a. fold s1.
      change (set_at a s1) with (set_at a s). rewrite Hz, <-Hls. by rewrite Hmap.
    + intros h f Hf. apply (unsubscribe_inactive h e (Adapter h f)). by apply Hused.
    + intros Honce. unfold emitAsync_rejects.
      rewrite (once_promises_fulfil out (listeners e s) Honce).
      by rewrite andb_false_r.
Qed.

(** ** A listener that emits another event *)

Lemma omap_report_cons cfg e out (f : fn) (l : list fn) :
  omap (report cfg e out) (f :: l)
  = from_option (λ x, [x]) [] (report cfg e out f) ++ omap (report cfg e out) l.
Proof. cbn [omap list_omap]. by destruct (report cfg e out f). Qed.

Section Nested.

Context (cfg : config) (e : event) (args : list nat) (out : fn → outcome)
        (a n : nat).

(** The loop of [emit] over entries [i] to [i + k - 1], when the listeners
    there are client functions that do not call the emitter: only the logs
    change. *)
Lemma emit_loop_quiet_prefix k : ∀ i s,
  i + k ≤ length (set_at a s) →
  let mid := elements (take k (drop i (set_at a s))) in
  (∀ g, g ∈ mid → quiet cfg args out g) →
  (strict cfg = false ∨ ∀ g err, g ∈ mid → out g ≠ Throws err) →
  ∀ fuel,
    emit_loop cfg (run cfg (S n)) (k + fuel) a i e args s
    = emit_loop cfg (run cfg (S n)) fuel a (i + k) e args
        (after args s mid (omap (report cfg e out) mid)).
Proof.
  induction k as [|k IH]; intros i s Hlen mid Hq Hsafe fuel.
  { unfold mid. rewrite take_0. simpl. by rewrite after_nil, Nat.add_0_r. }
  destruct (lookup_lt_is_Some_2 (set_at a s) i) as [x Hi]; [lia|].
  change (S k + fuel) with (S (k + fuel)). rewrite emit_loop_S, Hi.
  assert (mid = match x with
                | Some f => f :: elements (take k (drop (S i) (set_at a s)))
                | None => elements (take k (drop (S i) (set_at a s)))
                end) as Hmid.
  { unfold mid. rewrite (drop_S _ _ _ Hi). cbn [take].
    destruct x; by rewrite ?elements_cons_Some, ?elements_cons_None. }
  replace (i + S k) with (S i + k) by lia.
  destruct x as [f|].
  - assert (quiet cfg args out f) as Hf by (apply Hq; rewrite Hmid; left).
    rewrite (apply_quiet cfg args out n f s Hf).
    assert (∀ g, g ∈ elements (take k (drop (S i) (set_at a s))) → g ∈ mid)
      as Hsub by (intros g Hg; rewrite Hmid; by right).
    destruct (out f) as [v|err] eqn:Hout.
    + rewrite (IH (S i) (log_call f args s));
        [|rewrite set_at_log_call; lia
         |rewrite set_at_log_call; auto
         |rewrite set_at_log_call; destruct Hsafe as [?|Hsafe]; [by left|right];
          intros g err Hg; by apply Hsafe, Hsub].
      assert (report cfg e out f = None) as Hrep
        by (unfold report; by rewrite Hout).
      by rewrite set_at_log_call, after_log_call, Hmid, omap_report_cons, Hrep.
    + destruct Hsafe as [Hstrict|Hsafe].
      2:{ exfalso. apply (Hsafe f err); [rewrite Hmid; left|done]. }
      rewrite Hstrict. cbv zeta.
      rewrite (IH (S i));
        [|rewrite set_at_call_error, set_at_log_call; lia
         |rewrite set_at_call_error, set_at_log_call; auto
         |by left].
      assert (report cfg e out f
              = Some (ErrorCall (or_hook (error cfg) (g_error (globalOptions cfg)))
                        err (Context (object cfg) e f))) as Hrep
        by (unfold report; by rewrite Hout).
      rewrite set_at_call_error, set_at_log_call, Hmid, omap_report_cons, Hrep.
      f_equal. unfold after. simpl. by rewrite <-!app_assoc.
  - rewrite (IH (S i) s); [by rewrite Hmid|lia|by rewrite <-Hmid
                          |by rewrite <-Hmid].
Qed.

(** [emit] when no listener calls the emitter, with or without listeners. *)
Lemma emit_quiet_any fuel s :
  (∀ f, f ∈ listeners e s → quiet cfg args out f) →
  length (set_at (getListeners e s) s) < fuel →
  emit cfg (run cfg (S n)) fuel e args s
  = let '(c, r, ans) := deliver cfg e out (listeners e s) in
    Some (after args
            (call_trace cfg (or_hook (trace cfg) (g_trace (globalOptions cfg)))
               "emit" (PEmission (listeners e s) e args) s) c r, ans).
Proof.
  intros Hq Hfuel. destruct (listeners e s) as [|g ls] eqn:Hls.
  - unfold emit. rewrite set_at_call_trace.
    unfold size. fold (listeners e s). rewrite Hls. simpl.
    by rewrite after_nil.
  - rewrite <-Hls. apply emit_quiet; [by rewrite Hls|by rewrite Hls|done].
Qed.

End Nested.

Lemma run_forwards cfg e2 args2 n s :
  run cfg (S (S n)) (forwards e2 args2) s
  = match emit cfg (run cfg (S n)) (S n) e2 args2 s with
    | None => None
    | Some (s', AThrew err) => Some (s', Throws err)
    | Some (s', _) => Some (s', Returns Plain)
    end.
Proof.
  unfold forwards.
  change (run cfg (S (S n)) (Do ?c ?k) s)
    with (match exec cfg (run cfg (S n)) (S n) c s with
          | None => None
          | Some (s', r) => run cfg (S n) (k r) s'
          end).
  cbn [exec].
  by destruct (emit cfg (run cfg (S n)) (S n) e2 args2 s) as [[s' []]|].
Qed.

(** X26.  A listener that emits an event.  Let the listeners of [e] be [l1], then
    [f], then [l2], where [f], called with [args], calls
    [emit(e2, ...args2)]; let no other listener of [e], given [args], and no
    listener of [e2], given [args2], call the emitter; let none of them
    throw, or [strict] be off.  Then
    [emit(e, ...args)] calls [l1], then [f], then every listener of [e2]
    with [args2], and only then [l2]: the emission of [e2] is complete
    before the next listener of [e] is called.  The trace hook is called
    for [e] and then for [e2], and the error hook for each listener that
    throws, with the event that listener was called for. *)
Theorem emit_nested_in_order (cfg : config) (e e2 : event) (id : nat)
    (args args2 : list nat) (out : fn → outcome) (l1 l2 : list fn) (s : state)
    (n fuel : nat) :
  listeners e s = l1 ++ User id :: l2 →
  (∀ hist, body cfg id hist args = forwards e2 args2) →
  (∀ g, g ∈ l1 ++ l2 → quiet cfg args out g) →
  (∀ g, g ∈ listeners e2 s → quiet cfg args2 out g) →
  (strict cfg = false
   ∨ ∀ g err, g ∈ l1 ++ l2 ++ listeners e2 s → out g ≠ Throws err) →
  length (set_at (getListeners e s) s) < fuel →
  length (set_at (getListeners e2 s) s) ≤ n →
  ∃ s',
    emit cfg (run cfg (S (S n))) fuel e args s = Some (s', AUndefined)
    ∧ calls_log s'
      = calls_log s
        ++ ((λ g, (g, args)) <$> l1) ++ [(User id, args)]
        ++ ((λ g, (g, args2)) <$> listeners e2 s)
        ++ ((λ g, (g, args)) <$> l2)
    ∧ error_log s'
      = error_log s
        ++ omap (report cfg e out) l1
        ++ omap (report cfg e2 out) (listeners e2 s)
        ++ omap (report cfg e out) l2
    ∧ trace_log s'
      = trace_log s
        ++ [TraceCall (or_hook (trace cfg) (g_trace (globalOptions cfg)))
              (object cfg) "emit" (PEmission (listeners e s) e args);
            TraceCall (or_hook (trace cfg) (g_trace (globalOptions cfg)))
              (object cfg) "emit" (PEmission (listeners e2 s) e2 args2)]
    ∧ (∀ e', listeners e' s' = listeners e' s).
Proof.
  intros Hls Hbody Hq Hq2 Hsafe Hfuel Hn.
  set (a := getListeners e s) in *.
  set (f := User id) in *.
  set (hook := or_hook (trace cfg) (g_trace (globalOptions cfg))).
  set (s1 := call_trace cfg hook "emit" (PEmission (listeners e s) e args) s).
  assert (elements (set_at a s) = l1 ++ f :: l2) as Hel by exact Hls.
  assert (f ∈ elements (set_at a s)) as Hf
    by (rewrite Hel; apply elem_of_app; right; left).
  destruct (elements_split _ _ _ _ Hel) as (j & Hj & Htake & Hdrop).
  pose proof (lookup_lt_Some _ _ _ Hj) as Hlt.
  (* the listeners before [f] *)
  set (sa := after args s1 l1 (omap (report cfg e out) l1)).
  assert (∀ fuel', emit_loop cfg (run cfg (S (S n))) (j + fuel') a 0 e args s1
                   = emit_loop cfg (run cfg (S (S n))) fuel' a j e args sa)
    as Hloop1.
  { intros fuel'.
    rewrite (emit_loop_quiet_prefix cfg e args out a (S n) j 0 s1);
      rewrite ?drop_0; change (set_at a s1) with (set_at a s);
      rewrite ?Htake; [done|simpl; lia| |].
    - intros g Hg. apply Hq, elem_of_app. by left.
    - destruct Hsafe as [?|Hsafe]; [by left|right]. intros g err Hg.
      apply Hsafe, elem_of_app. by left. }
  (* [f] emits [e2] *)
  set (sx := log_call f args sa).
  set (ls2 := listeners e2 s) in *.
  assert (listeners e2 sx = ls2) as Hls2 by reflexivity.
  set (sb := after args2
               (call_trace cfg hook "emit" (PEmission ls2 e2 args2) sx)
               ls2 (omap (report cfg e2 out) ls2)).
  assert (apply cfg (run cfg (S (S n))) f args sa = Some (sb, Returns Plain))
    as Happ.
  { change (apply_user cfg (run cfg (S (S n))) id args sa
            = Some (sb, Returns Plain)).
    unfold apply_user. rewrite Hbody. fold f. fold sx. rewrite run_forwards.
    rewrite (emit_quiet_any cfg e2 args2 out n (S n) sx);
      [|by rewrite Hls2
       |change (set_at (getListeners e2 sx) sx)
          with (set_at (getListeners e2 s) s); lia].
    rewrite Hls2, deliver_all; [done|].
    destruct Hsafe as [?|Hsafe]; [by left|right]. intros g Hg.
    unfold report. destruct (out g) as [v|err] eqn:Hout; [done|].
    exfalso. apply (Hsafe g err); [|done].
    apply elem_of_app. right. apply elem_of_app. by right. }
  (* the listeners after [f] *)
  set (sc := after args sb l2 (omap (report cfg e out) l2)).
  assert (∀ m, emit_loop cfg (run cfg (S (S n)))
                 (length (set_at a s) - S j + S m) a (S j) e args sb
               = Some (sc, AUndefined)) as Hloop2.
  { intros m.
    assert (elements (take (length (set_at a s) - S j) (drop (S j) (set_at a s)))
            = l2) as Hmid
      by (rewrite take_ge by (rewrite length_drop; lia); done).
    rewrite (emit_loop_quiet_prefix cfg e args out a (S n)
               (length (set_at a s) - S j) (S j) sb);
      change (set_at a sb) with (set_at a s); rewrite ?Hmid.
    - apply emit_loop_end. change (set_at a sc) with (set_at a s). lia.
    - lia.
    - intros g Hg. apply Hq, elem_of_app. by right.
    - destruct Hsafe as [?|Hsafe]; [by left|right]. intros g err Hg.
      apply Hsafe, elem_of_app. right. apply elem_of_app. by left. }
  exists sc. split_and!.
  - unfold emit. rewrite set_at_call_trace. fold a.
    rewrite (size_elem f) by done.
    change (emit_loop cfg (run cfg (S (S n))) fuel a 0 e args s1
            = Some (sc, AUndefined)).
    replace fuel with (j + S (length (set_at a s) - S j
                              + S (fuel - length (set_at a s) - 1))) by lia.
    rewrite Hloop1, emit_loop_S.
    change (set_at a sa) with (set_at a s). rewrite Hj, Happ.
    apply Hloop2.
  - unfold sc, sb, sx, sa. simpl. by rewrite <-!app_assoc.
  - unfold sc, sb, sx, sa. simpl. by rewrite <-!app_assoc.
  - unfold sc, sb, sx, sa. simpl. by rewrite <-!app_assoc.
  - intros e'. by apply listeners_ext.
Qed.


(** X27.  An error thrown in a nested emission under [strict].  Let the listeners
    of [e] be [l1], then [f], then [l2], where [f] calls
    [emit(e2, ...args2)] and does not catch what it throws; let the
    listeners of [e2] be [m1], then [g], then [m2], where [g] throws [err];
    let none of [l1], [m1], [m2] call the emitter, and none of [l1] and [m1]
    throw.  Under [strict], [emit(e, ...args)] throws [err] after calling
    [l1], [f], [m1] and [g]: neither [m2] nor [l2] is called.  The error hook
    is called twice with the same [err]: by the inner [emit] with the event
    [e2] and the listener [g], then by the outer [emit] with the event [e]
    and the listener [f]. *)
Theorem emit_nested_reports_twice (cfg : config) (e e2 : event) (id : nat)
    (args args2 : list nat) (out : fn → outcome) (l1 l2 m1 m2 : list fn)
    (g : fn) (err : jserror) (s : state) (n fuel : nat) :
  strict cfg = true →
  listeners e s = l1 ++ User id :: l2 →
  (∀ hist, body cfg id hist args = forwards e2 args2) →
  listeners e2 s = m1 ++ g :: m2 →
  out g = Throws err →
  (∀ g', g' ∈ l1 → quiet cfg args out g') →
  (∀ g', g' ∈ m1 ++ g :: m2 → quiet cfg args2 out g') →
  (∀ g' err', g' ∈ l1 ++ m1 → out g' ≠ Throws err') →
  length (set_at (getListeners e s) s) < fuel →
  length (set_at (getListeners e2 s) s) ≤ n →
  ∃ s',
    emit cfg (run cfg (S (S n))) fuel e args s = Some (s', AThrew err)
    ∧ calls_log s'
      = calls_log s
        ++ ((λ g, (g, args)) <$> l1) ++ [(User id, args)]
        ++ ((λ g, (g, args2)) <$> (m1 ++ [g]))
    ∧ error_log s'
      = error_log s
        ++ [ErrorCall (or_hook (error cfg) (g_error (globalOptions cfg))) err
              (Context (object cfg) e2 g);
            ErrorCall (or_hook (error cfg) (g_error (globalOptions cfg))) err
              (Context (object cfg) e (User id))]
    ∧ (∀ e', listeners e' s' = listeners e' s).
Proof.
  intros Hstrict Hls Hbody Hls2 Hout Hq Hq2 Hsafe Hfuel Hn.
  set (a := getListeners e s) in *.
  set (f := User id) in *.
  set (hook := or_hook (trace cfg) (g_trace (globalOptions cfg))).
  set (s1 := call_trace cfg hook "emit" (PEmission (listeners e s) e args) s).
  assert (elements (set_at a s) = l1 ++ f :: l2) as Hel by exact Hls.
  assert (f ∈ elements (set_at a s)) as Hf
    by (rewrite Hel; apply elem_of_app; right; left).
  destruct (elements_split _ _ _ _ Hel) as (j & Hj & Htake & Hdrop).
  pose proof (lookup_lt_Some _ _ _ Hj) as Hlt.
  assert (∀ g', g' ∈ l1 → report cfg e out g' = None) as Hrep1.
  { intros g' Hg'. unfold report. destruct (out g') as [v|err'] eqn:Ho; [done|].
    exfalso. apply (Hsafe g' err'); [apply elem_of_app; by left|done]. }
  assert (∀ g', g' ∈ m1 → report cfg e2 out g' = None) as Hrep2.
  { intros g' Hg'. unfold report. destruct (out g') as [v|err'] eqn:Ho; [done|].
    exfalso. apply (Hsafe g' err'); [apply elem_of_app; by right|done]. }
  (* the listeners before [f] *)
  set (sa := after args s1 l1 []).
  assert (∀ fuel', emit_loop cfg (run cfg (S (S n))) (j + fuel') a 0 e args s1
                   = emit_loop cfg (run cfg (S (S n))) fuel' a j e args sa)
    as Hloop1.
  { intros fuel'.
    rewrite (emit_loop_quiet_prefix cfg e args out a (S n) j 0 s1);
      rewrite ?drop_0; change (set_at a s1) with (set_at a s);
      rewrite ?Htake; [by rewrite omap_report_none|simpl; lia|done|].
    right. intros g' err' Hg'. apply Hsafe, elem_of_app. by left. }
  (* [f] emits [e2], and [g] throws *)
  set (sx := log_call f args sa).
  assert (listeners e2 sx = m1 ++ g :: m2) as Hls2x by exact Hls2.
  set (rep := ErrorCall (or_hook (error cfg) (g_error (globalOptions cfg))) err
                (Context (object cfg) e2 g)).
  set (sb := after args2
               (call_trace cfg hook "emit" (PEmission (m1 ++ g :: m2) e2 args2) sx)
               (m1 ++ [g]) [rep]).
  assert (apply cfg (run cfg (S (S n))) f args sa = Some (sb, Throws err))
    as Happ.
  { change (apply_user cfg (run cfg (S (S n))) id args sa
            = Some (sb, Throws err)).
    unfold apply_user. rewrite Hbody. fold f. fold sx. rewrite run_forwards.
    rewrite (emit_quiet_any cfg e2 args2 out n (S n) sx);
      [|by rewrite Hls2x
       |change (set_at (getListeners e2 sx) sx)
          with (set_at (getListeners e2 s) s); lia].
    by rewrite Hls2x, (deliver_abort cfg e2 out m1 g m2 err). }
  exists (call_error cfg err (Context (object cfg) e f) sb). split_and!.
  - unfold emit. rewrite set_at_call_trace. fold a.
    rewrite (size_elem f) by done.
    change (emit_loop cfg (run cfg (S (S n))) fuel a 0 e args s1
            = Some (call_error cfg err (Context (object cfg) e f) sb, AThrew err)).
    replace fuel with (j + S (fuel - S j)) by lia.
    rewrite Hloop1, emit_loop_S.
    change (set_at a sa) with (set_at a s). by rewrite Hj, Happ, Hstrict.
  - unfold sb, sx, sa. simpl. by rewrite <-!app_assoc.
  - unfold sb, sx, sa, rep. simpl. by rewrite app_nil_r, <-!app_assoc.
  - intros e'. by apply listeners_ext.
Qed.

(** theorems *)

(** ** [emit] listener by listener *)

Lemma lookup_holes_other (gs : list fn) (l : list (option fn)) (i : nat)
    (g : fn) :
  g ∉ gs → l !! i = Some (Some g) → holes gs l !! i = Some (Some g).
Proof.
  intros Hg Hi. unfold holes. rewrite list_lookup_fmap, Hi. simpl.
  by rewrite decide_False.
Qed.

Lemma holes_drop (gs : list fn) (l : list (option fn)) (k : nat) :
  drop k (holes gs l) = holes gs (drop k l).
Proof. unfold holes. by rewrite fmap_drop. Qed.

Lemma filter_all {A} (P : A → Prop) `{!∀ x, Decision (P x)} (l : list A) :
  (∀ x, x ∈ l → P x) → filter P l = l.
Proof.
  induction l as [|x l IH]; intros Hall; [done|].
  rewrite filter_cons_True by (apply Hall; left).
  f_equal. apply IH. intros y Hy. apply Hall. by right.
Qed.

Lemma filter_once_prefix (l1 rest : list fn) :
  NoDup (l1 ++ rest) →
  filter (λ x, x ∉ filter (λ g, is_once g) l1) (l1 ++ rest)
  = filter (λ g, is_once g = false) l1 ++ rest.
Proof.
  intros (_ & Hdisj & _)%NoDup_app. rewrite filter_app. f_equal.
  - apply filter_ext_elem. intros x Hx. rewrite list_elem_of_filter.
    destruct (is_once x); simpl.
    + split; [intros Hn; by destruct Hn|done].
    + split; [done|by intros _ [? _]].
  - apply filter_all. intros x Hx [_ Hin]%list_elem_of_filter.
    by apply (Hdisj x).
Qed.

(** An arrow of [once] that is a listener of [e] calls its handle: it is
    removed from the [Set] of [e] and is in no [Set] afterwards. *)
Lemma unsubscribe_arrow (e : event) (a h : nat) (f : fn) (s : state) :
  inv s → map s !! e = Some a → Adapter h f ∈ elements (set_at a s) →
  let s1 := (unsubscribe h s).1 in
  inv s1 ∧ linked e a s1
  ∧ set_at a s1 = set_delete (Adapter h f) (set_at a s)
  ∧ map s1
    = (if size (set_delete (Adapter h f) (set_at a s)) =? 0
       then delete e (map s) else map s)
  ∧ calls_log s1 = calls_log s
  ∧ error_log s1 = error_log s
  ∧ trace_log s1 = trace_log s
  ∧ (∀ e', e' ≠ e → listeners e' s1 = listeners e' s)
  ∧ (∀ b, Adapter h f ∉ elements (set_at b s1))
  ∧ h < length (handles s1).
Proof.
  intros Hinv He Hin s1. set (g := Adapter h f) in *.
  pose proof Hinv as [Hok Had].
  destruct (ad_live s Had a h f Hin) as (e' & Hh & He').
  assert (e' = e) as -> by by eapply (ok_inj s Hok).
  destruct (ok_entry s Hok e a He) as [Ha _].
  set (s0 := with_handles s (<[h := Handle e g false]> (handles s))).
  assert (reg_ok s0) as Hok0 by by apply (reg_ok_ext s).
  assert (unsubscribe h s = remove e g s0) as Hu
    by by apply (unsubscribe_active h e g s).
  assert (s1 = (remove e g s0).1) as Hs1 by (unfold s1; by rewrite Hu).
  destruct (logs_remove e g s0) as (Ht & Her & Hc).
  assert (set_at a s1 = set_delete g (set_at a s)) as Hset
    by (rewrite Hs1; by rewrite (set_at_remove e g a s0 He Ha)).
  assert (map s1 = (if size (set_delete g (set_at a s)) =? 0
                    then delete e (map s) else map s)) as Hmap
    by (rewrite Hs1; by rewrite (map_remove_entry e g a s0 He)).
  split_and!.
  - by apply inv_unsubscribe.
  - unfold linked. rewrite Hmap, Hset.
    destruct (size _ =? 0) eqn:Hz.
    + right. split; [apply lookup_delete_eq|].
      by apply Nat.eqb_eq, size_zero_elements in Hz.
    + by left.
  - done.
  - done.
  - by rewrite Hs1, Hc.
  - by rewrite Hs1, Her.
  - by rewrite Hs1, Ht.
  - intros e'' Hne. rewrite Hs1, remove_listeners_ne by done.
    by apply listeners_ext.
  - intros b Hb. rewrite Hs1 in Hb.
    apply elem_of_remove in Hb as [Hb Hne].
    change (set_at b s0) with (set_at b s) in Hb.
    destruct (ad_live s Had b h f Hb) as (e2 & Hh2 & He2).
    rewrite Hh in Hh2. injection Hh2 as <-.
    by apply Hne.
  - rewrite Hs1, handles_remove. simpl. rewrite length_insert.
    by eapply lookup_lt_Some.
Qed.

Section Reach.

Context (cfg : config) (e : event) (args : list nat) (out : fn → outcome)
        (n : nat).

Local Abbreviation tracer := (or_hook (trace cfg) (g_trace (globalOptions cfg))).

(** [emit] up to a listener [g]: the listeners [l1] before [g] have been
    called, and the loop is at the entry of [g]. *)
Lemma emit_reach (l1 : list fn) (g : fn) (l2 : list fn) (s : state) :
  inv s → listeners e s = l1 ++ g :: l2 →
  (∀ g', g' ∈ l1 → calm cfg args out g') →
  (strict cfg = false ∨ ∀ g' err, g' ∈ l1 → out (inner g') ≠ Throws err) →
  let a := getListeners e s in
  let s0 := calm_calls cfg e args out l1
              (call_trace cfg tracer "emit" (PEmission (l1 ++ g :: l2) e args) s) in
  ∃ j,
    (∀ fuel, emit cfg (run cfg (S n)) (j + fuel) e args s
             = emit_loop cfg (run cfg (S n)) fuel a j e args s0)
    ∧ inv s0 ∧ map s0 !! e = Some a
    ∧ set_at a s0 !! j = Some (Some g)
    ∧ length (set_at a s0) = length (set_at a s)
    ∧ elements (set_at a s0) = filter (λ x, is_once x = false) l1 ++ g :: l2
    ∧ elements (drop (S j) (set_at a s0)) = l2
    ∧ calls_log s0 = calls_log s ++ ((λ x, (x, args)) <$> (l1 ≫= calls_of))
    ∧ error_log s0 = error_log s ++ omap (report_of cfg e out) l1
    ∧ trace_log s0
      = trace_log s
        ++ [TraceCall tracer (object cfg) "emit" (PEmission (l1 ++ g :: l2) e args)]
    ∧ (∀ e', e' ≠ e → listeners e' s0 = listeners e' s).
Proof.
  intros Hinv Hls Hcalm Hsafe a s0.
  set (s1 := call_trace cfg tracer "emit" (PEmission (l1 ++ g :: l2) e args) s) in *.
  assert (elements (set_at a s) = l1 ++ g :: l2) as Hel by exact Hls.
  assert (NoDup (l1 ++ g :: l2)) as Hnd
    by (rewrite <-Hls; apply listeners_NoDup, Hinv).
  assert (g ∉ l1) as Hgl1.
  { apply NoDup_app in Hnd as (_ & Hd & _). intros Hin. apply (Hd g Hin). left. }
  assert (g ∉ filter (λ x, is_once x) l1) as Hgf
    by (intros [_ ?]%list_elem_of_filter; done).
  destruct (elements_split _ _ _ _ Hel) as (j & Hj & Htake & Hdrop).
  pose proof (lookup_lt_Some _ _ _ Hj) as Hlt.
  assert (elements (take j (drop 0 (set_at a s1))) = l1) as Hmid
    by (rewrite drop_0; exact Htake).
  destruct (emit_loop_calm cfg e args out a n j 0 s1)
    as (s' & Hloop & Hinv' & Hlink' & Hset & Hcalls & Herr & Htr & Hoth & _ & _
        & _ & Hstate);
    [by apply (inv_ext s)
    |apply (linked_ext e a s); [done..|apply linked_getListeners, Hinv]
    |change (set_at a s1) with (set_at a s); lia
    |by rewrite Hmid|by rewrite Hmid|].
  rewrite Hmid in Hset, Hcalls, Herr, Hstate.
  change (set_at a s1) with (set_at a s) in Hset.
  fold s0 in Hstate. subst s'.
  assert (elements (set_at a s0) = filter (λ x, is_once x = false) l1 ++ g :: l2)
    as Hel0 by (rewrite Hset, elements_holes, Hel; by apply filter_once_prefix).
  exists j. split_and!; try done.
  - intros fuel. unfold emit. rewrite set_at_call_trace. fold a.
    rewrite (size_elem g) by (rewrite Hel; apply elem_of_app; right; left).
    rewrite Hel. fold s1. by rewrite Hloop.
  - destruct Hlink' as [?|[_ Hnil]]; [done|]. rewrite Hel0 in Hnil.
    by apply app_eq_nil in Hnil as [_ ?].
  - rewrite Hset. by apply lookup_holes_other.
  - by rewrite Hset, length_holes.
  - rewrite Hset, holes_drop, elements_holes, Hdrop.
    apply filter_all. intros x Hx [_ Hin]%list_elem_of_filter.
    apply NoDup_app in Hnd as (_ & Hd & _). apply (Hd x Hin). by right.
Qed.

(** The call of a listener whose client function throws without calling
    the emitter. *)
Lemma apply_calm_throws (a : nat) (g : fn) (err : jserror) (s : state) :
  inv s → map s !! e = Some a → g ∈ elements (set_at a s) →
  calm cfg args out g → out (inner g) = Throws err →
  ∃ s1,
    apply cfg (run cfg (S n)) g args s = Some (s1, Throws err)
    ∧ inv s1 ∧ linked e a s1
    ∧ elements (set_at a s1)
      = filter (λ x, ¬ (is_once g = true ∧ x = g)) (elements (set_at a s))
    ∧ calls_log s1 = calls_log s ++ ((λ x, (x, args)) <$> calls_of g)
    ∧ error_log s1 = error_log s
    ∧ trace_log s1 = trace_log s
    ∧ (∀ e', e' ≠ e → listeners e' s1 = listeners e' s).
Proof.
  intros Hinv He Hg Hcalm Hout.
  pose proof (ad_flat s (proj2 Hinv) a g Hg) as Hflat.
  destruct g as [id|h [id|]]; [| |done].
  - exists (log_call (User id) args s). split_and!.
    + rewrite (apply_quiet cfg args out n (User id) s Hcalm).
      simpl in Hout. by rewrite Hout.
    + by apply (inv_ext s).
    + by left.
    + change (set_at a (log_call (User id) args s)) with (set_at a s).
      symmetry. apply filter_all. by intros x _ [? _].
    + done.
    + done.
    + done.
    + done.
  - destruct (apply_pending cfg e args out a n h id s Hinv He Hg Hcalm)
      as (s2 & Happ & Hinv2 & Hlink2 & Hset2 & Hc2 & He2 & Ht2 & Hoth2 & _).
    simpl in Hout. rewrite Hout in Happ.
    exists (log_call (User id) args s2). split_and!.
    + done.
    + by apply (inv_ext s2).
    + by apply (linked_ext e a s2).
    + change (set_at a (log_call (User id) args s2)) with (set_at a s2).
      rewrite Hset2, elements_set_delete. apply filter_ext_elem.
      intros x _. simpl. split; [by intros ? [_ ?]|intros Hn ->; by apply Hn].
    + simpl. rewrite Hc2. by rewrite <-app_assoc.
    + done.
    + done.
    + intros e' Hne. rewrite <-(Hoth2 e' Hne). by apply listeners_ext.
Qed.

(** [emit] when the client function behind every listener returns or
    throws without calling the emitter, and the loop is not cut short. *)
Lemma emit_calm (s : state) (fuel : nat) :
  inv s → listeners e s ≠ [] →
  (∀ g, g ∈ listeners e s → calm cfg args out g) →
  (strict cfg = false
   ∨ ∀ g err, g ∈ listeners e s → out (inner g) ≠ Throws err) →
  length (set_at (getListeners e s) s) < fuel →
  ∃ s',
    emit cfg (run cfg (S n)) fuel e args s = Some (s', AUndefined)
    ∧ trace_log s'
      = trace_log s
        ++ [TraceCall tracer (object cfg) "emit" (PEmission (listeners e s) e args)]
    ∧ calls_log s'
      = calls_log s ++ ((λ g, (g, args)) <$> (listeners e s ≫= calls_of))
    ∧ error_log s' = error_log s ++ omap (report_of cfg e out) (listeners e s)
    ∧ listeners e s' = filter (λ g, is_once g = false) (listeners e s)
    ∧ (∀ e', e' ≠ e → listeners e' s' = listeners e' s).
Proof.
  intros Hinv Hne Hcalm Hsafe Hfuel.
  set (a := getListeners e s) in *.
  set (s1 := call_trace cfg tracer "emit" (PEmission (elements (set_at a s)) e args) s).
  set (l := set_at a s) in *.
  assert (listeners e s = elements l) as Hls by reflexivity.
  assert (elements (take (length l) (drop 0 (set_at a s1))) = listeners e s) as Hmid
    by (rewrite drop_0; change (set_at a s1) with l; by rewrite firstn_all).
  destruct (emit_loop_calm cfg e args out a n (length l) 0 s1)
    as (s' & Hloop & Hinv' & Hlink' & Hset & Hcalls & Herr & Htr & Hoth & _);
    [by apply (inv_ext s)
    |apply (linked_ext e a s); [done..|apply linked_getListeners, Hinv]
    |done|by rewrite Hmid|by rewrite Hmid|].
  rewrite Hmid in Hset, Hcalls, Herr.
  change (set_at a s1) with l in Hset.
  exists s'. split_and!; [|by rewrite Htr|done|done| |done].
  - unfold emit. rewrite set_at_call_trace. fold a.
    destruct (size (set_at a s) =? 0) eqn:Hz.
    { apply Nat.eqb_eq, size_zero_elements in Hz. by rewrite Hls in Hne. }
    change (emit_loop cfg (run cfg (S n)) fuel a 0 e args s1 = Some (s', AUndefined)).
    replace fuel with (length l + S (fuel - S (length l))) by (unfold l in *; lia).
    rewrite Hloop, emit_loop_S.
    rewrite (proj2 (lookup_ge_None _ _)); [done|].
    rewrite Hset, length_holes. lia.
  - rewrite (linked_listeners e a s') by (done || apply Hinv').
    rewrite Hset, elements_holes, Hls. apply filter_ext_elem.
    intros g Hg. rewrite list_elem_of_filter. destruct (is_once g); simpl.
    + split; [intros H; by destruct H|done].
    + split; [done|by intros _ [? _]].
Qed.

End Reach.

Lemma omap_report_of_none cfg e out (ls : list fn) :
  (∀ g err, g ∈ ls → out (inner g) ≠ Throws err) →
  omap (report_of cfg e out) ls = [].
Proof.
  induction ls as [|g ls IH]; intros Hno; [done|]. simpl.
  unfold report_of at 1. destruct (out (inner g)) as [v|err] eqn:Hout.
  - apply IH. intros g' err Hg'. apply Hno. by right.
  - exfalso. apply (Hno g err); [left|done].
Qed.

(** C3.  Let the emitter be in a state that satisfies its invariant ([inv],
    which holds of a fresh emitter and is kept by every operation).  Let the
    client function behind every listener of [e] return or throw ([out])
    without calling the emitter, a listener being a function subscribed with
    [on] or the arrow of a [once] registration, and let [e] have at least one
    listener.  With enough fuel for the loop,
    [emit(e, ...args)] calls the trace hook and then the listeners in
    insertion order, each with [args], an arrow calling its client function
    with the same [args].
    - Not strict: every listener is called; the error hook is called once
      for each listener that throws, in order, with the error and
      [{object, event, listener}]; [emit] returns.
    - Strict, no listener throws: every listener is called; [emit] returns.
    - Strict, [g] the first listener that throws: the listeners up to [g]
      are called and no later one, the error hook is called once with the
      error and the context of [g], and [emit] throws that error; the
      listeners after [g] are still subscribed.
    Afterwards the [once] registrations that were called are no longer
    listeners of [e], and the listeners of other events are as before. *)
Theorem emit_in_order (cfg : config) (e : event) (args : list nat)
    (out : fn → outcome) (s : state) (n fuel : nat) :
  inv s →
  listeners e s ≠ [] →
  (∀ g, g ∈ listeners e s → calm cfg args out g) →
  length (set_at (getListeners e s) s) < fuel →
  let ls := listeners e s in
  let traced :=
    TraceCall (or_hook (trace cfg) (g_trace (globalOptions cfg))) (object cfg)
      "emit" (PEmission ls e args) in
  let failure g err :=
    ErrorCall (or_hook (error cfg) (g_error (globalOptions cfg))) err
      (Context (object cfg) e g) in
  let called (l : list fn) := (λ g, (g, args)) <$> (l ≫= calls_of) in
  (strict cfg = false →
     ∃ s', emit cfg (run cfg (S n)) fuel e args s = Some (s', AUndefined)
       ∧ trace_log s' = trace_log s ++ [traced]
       ∧ calls_log s' = calls_log s ++ called ls
       ∧ error_log s' = error_log s ++ omap (report_of cfg e out) ls
       ∧ listeners e s' = filter (λ g, is_once g = false) ls
       ∧ ∀ e', e' ≠ e → listeners e' s' = listeners e' s)
  ∧ (strict cfg = true → (∀ g err, g ∈ ls → out (inner g) ≠ Throws err) →
     ∃ s', emit cfg (run cfg (S n)) fuel e args s = Some (s', AUndefined)
       ∧ trace_log s' = trace_log s ++ [traced]
       ∧ calls_log s' = calls_log s ++ called ls
       ∧ error_log s' = error_log s
       ∧ listeners e s' = filter (λ g, is_once g = false) ls
       ∧ ∀ e', e' ≠ e → listeners e' s' = listeners e' s)
  ∧ (strict cfg = true →
     ∀ l1 g l2 err, ls = l1 ++ g :: l2 →
       (∀ g' err', g' ∈ l1 → out (inner g') ≠ Throws err') →
       out (inner g) = Throws err →
       ∃ s', emit cfg (run cfg (S n)) fuel e args s = Some (s', AThrew err)
         ∧ trace_log s' = trace_log s ++ [traced]
         ∧ calls_log s' = calls_log s ++ called (l1 ++ [g])
         ∧ error_log s' = error_log s ++ [failure g err]
         ∧ listeners e s' = filter (λ g, is_once g = false) (l1 ++ [g]) ++ l2
         ∧ ∀ e', e' ≠ e → listeners e' s' = listeners e' s).
Proof.
  intros Hinv Hne Hcalm Hfuel ls traced failure called.
  split_and!.
  - intros Hs.
    destruct (emit_calm cfg e args out n s fuel Hinv Hne Hcalm ltac:(by left) Hfuel)
      as (s' & H). by exists s'.
  - intros Hs Hno.
    destruct (emit_calm cfg e args out n s fuel Hinv Hne Hcalm ltac:(by right) Hfuel)
      as (s' & Hemit & Ht & Hc & He & Hl & Ho).
    exists s'. split_and!; try done.
    by rewrite He, omap_report_of_none, app_nil_r.
  - intros Hs l1 g l2 err Hls Hl1 Hg.
    assert (NoDup (l1 ++ g :: l2)) as Hnd
      by (rewrite <-Hls; apply listeners_NoDup, Hinv).
    destruct (emit_reach cfg e args out n l1 g l2 s Hinv Hls)
      as (j & Hreach & Hinv0 & He0 & Hj & Hlen & Hel0 & Hdrop & Hc0 & Her0 & Ht0
          & Ho0);
      [intros g' Hg'; apply Hcalm; unfold ls in Hls; rewrite Hls;
       apply elem_of_app; by left
      |by right|].
    set (a := getListeners e s) in *.
    set (s0 := calm_calls cfg e args out l1 _) in *.
    assert (g ∈ elements (set_at a s0)) as Hin0 by by eapply lookup_elements.
    destruct (apply_calm_throws cfg e args out n a g err s0 Hinv0 He0 Hin0)
      as (s1 & Happ & Hinv1 & Hlink1 & Hel1 & Hc1 & Her1 & Ht1 & Ho1);
      [apply Hcalm; unfold ls in Hls; rewrite Hls; apply elem_of_app; right; left
      |done|].
    set (s2 := call_error cfg err (Context (object cfg) e g) s1).
    pose proof (lookup_lt_Some _ _ _ Hj) as Hlt.
    exists s2. split_and!.
    + replace fuel with (j + S (fuel - S j)) by lia.
      rewrite Hreach, emit_loop_S, Hj, Happ. cbv zeta. by rewrite Hs.
    + unfold s2. simpl. rewrite Ht1, Ht0. unfold traced. by rewrite Hls.
    + unfold s2. simpl. rewrite Hc1, Hc0. unfold called.
      rewrite bind_app, fmap_app, <-app_assoc. simpl. by rewrite app_nil_r.
    + unfold s2. simpl. rewrite Her1, Her0.
      rewrite omap_report_of_none by done. by rewrite app_nil_r.
    + rewrite (linked_listeners e a s2);
        [|apply (reg_ok_ext s1); [done..|apply Hinv1]
         |by apply (linked_ext e a s1)].
      change (set_at a s2) with (set_at a s1). rewrite Hel1, Hel0.
      assert (g ∉ filter (λ x, is_once x = false) l1) as Hg1.
      { intros [_ Hin]%list_elem_of_filter.
        apply NoDup_app in Hnd as (_ & Hd & _). apply (Hd g Hin). left. }
      assert (g ∉ l2) as Hg2.
      { apply NoDup_app in Hnd as (_ & _ & Hn). by apply NoDup_cons in Hn as [? _]. }
      rewrite !filter_app, filter_cons. destruct (is_once g) eqn:Ho.
      * rewrite decide_False by (intros Hn; by apply Hn).
        rewrite filter_cons_False by (simpl; congruence).
        rewrite filter_nil, app_nil_r. f_equal.
        -- apply filter_all. intros x Hx [_ ->]. done.
        -- apply filter_all. intros x Hx [_ ->]. done.
      * rewrite decide_True by (by intros [? _]).
        rewrite filter_cons_True by done. rewrite filter_nil, <-app_assoc.
        f_equal.
        -- apply filter_all. by intros x Hx [? _].
        -- simpl. f_equal. apply filter_all. by intros x Hx [? _].
    + intros e' Hne'. rewrite <-(Ho0 e' Hne'), <-(Ho1 e' Hne').
      by apply listeners_ext.
Qed.

(** ** A [once] listener that throws, among other listeners *)

Lemma emit_loop_gone cfg h f k n fuel a i e args s s' r :
  gone h f k s →
  emit_loop cfg (run cfg n) fuel a i e args s = Some (s', r) →
  gone h f k s'.
Proof.
  intros Hg Hloop.
  apply (emit_loop_preserves cfg (gone h f k) (λ g, flat g ∧ g ≠ Adapter h f))
    with (rec := run cfg n) (fuel := fuel) (a := a) (i := i) (e := e)
         (args := args) (s := s) (r := r); try done.
  - intros h' g [Hflat _]. split; [by eapply flat_inner|].
    destruct g; [done|by destruct Hflat].
  - intros s0 b g [H1 H2 _ _] Hin. split; [by eapply H1|].
    intros ->. by eapply H2.
  - intros. by apply (gone_ext h f k s0).
  - intros s0 g args0 [H1 H2 H3 H4] [_ Hne]. split; try done.
    by rewrite fired_log_call_ne.
  - intros. by apply gone_unsubscribe.
  - intros p s0 s0' o. apply run_gone.
Qed.

(** The loop of [emit] over entries that are all holes. *)
Lemma emit_loop_holes cfg rec fuel a i e args s :
  elements (drop i (set_at a s)) = [] →
  length (set_at a s) - i < fuel →
  emit_loop cfg rec fuel a i e args s = Some (s, AUndefined).
Proof.
  revert i. induction fuel as [|fuel IH]; intros i Hnil Hfuel; [lia|].
  rewrite emit_loop_S. destruct (set_at a s !! i) as [[g|]|] eqn:Hi; [| |done].
  - by rewrite (drop_S _ _ _ Hi), elements_cons_Some in Hnil.
  - pose proof (lookup_lt_Some _ _ _ Hi) as Hlt.
    rewrite (drop_S _ _ _ Hi), elements_cons_None in Hnil.
    apply IH; [done|lia].
Qed.

Lemma fired_calls_of (f : fn) (args : list nat) (ls : list fn) :
  f ∉ ls → (∀ g, g ∈ ls → inner g ≠ f) →
  fired f ((λ g, (g, args)) <$> (ls ≫= calls_of)) = 0.
Proof.
  induction ls as [|g ls IH]; intros Hf Hin; [done|].
  rewrite bind_cons, fmap_app, fired_app, IH;
    [|by intros ?; apply Hf; right|intros g' Hg'; apply Hin; by right].
  assert (g ≠ f) as Hne by (intros ->; apply Hf; left).
  assert (inner g ≠ f) as Hne' by (apply Hin; left).
  unfold fired. destruct g as [id|h' f']; simpl in *.
  - by rewrite filter_cons_False, filter_nil by done.
  - rewrite filter_cons_False by done.
    by rewrite filter_cons_False, filter_nil by done.
Qed.

(** C10.  Let the emitter be in a state that satisfies its invariant
    ([inv]), and let the listeners of [e] be [l1], then the pending
    registration [Adapter h (User id)] of a [once(e, f)], then [l2].  Let the client
    functions behind [l1] return or throw without calling the emitter (and
    not throw under [strict], so that the loop reaches the arrow), and let
    [f], which may be any client code, throw [err] when the arrow calls it
    after having called its handle.  Then, with enough fuel for the loop:
    - when [f] starts, the registration is already in no [Set]: the
      listeners of [e] are those of [l1] subscribed with [on], and [l2];
    - the error hook is passed [err] and [{object, event, listener}], the
      listener being the arrow;
    - under [strict], [emit(e, ...args)] throws [err] right after that, so
      that no listener of [l2] is called by it;
    - not under [strict], [emit] goes on with [l2] and returns, when the
      client functions behind [l2] do not call the emitter and [f] left the
      registry as it was (or no listener of [e] was left when [f] started);
    - whenever [emit] ends, the registration is in no [Set], it has fired
      exactly once, and whatever client code runs later it never fires
      again. *)
Theorem once_listener_throws (cfg : config) (e : event) (h id : nat)
    (args : list nat) (err : jserror) (out : fn → outcome) (l1 l2 : list fn)
    (n fuel : nat) (s s2 : state) :
  inv s →
  listeners e s = l1 ++ Adapter h (User id) :: l2 →
  (∀ g, g ∈ l1 → calm cfg args out g) →
  (strict cfg = false ∨ ∀ g err', g ∈ l1 → out (inner g) ≠ Throws err') →
  let arrow := Adapter h (User id) in
  let traced :=
    call_trace cfg (or_hook (trace cfg) (g_trace (globalOptions cfg))) "emit"
      (PEmission (l1 ++ arrow :: l2) e args) s in
  let s0 := calm_calls cfg e args out l1 traced in
  let s1 := (unsubscribe h (log_call arrow args s0)).1 in
  run cfg (S n) (body cfg id (calls_log s1) args) (log_call (User id) args s1)
  = Some (s2, Throws err) →
  length (set_at (getListeners e s) s) < fuel →
  let s3 := call_error cfg err (Context (object cfg) e arrow) s2 in
  let called (l : list fn) := (λ g, (g, args)) <$> (l ≫= calls_of) in
  listeners e s1 = filter (λ g, is_once g = false) l1 ++ l2
  ∧ (∀ a, arrow ∉ elements (set_at a s1))
  ∧ error_log s3
    = error_log s2
      ++ [ErrorCall (or_hook (error cfg) (g_error (globalOptions cfg))) err
            (Context (object cfg) e arrow)]
  ∧ (strict cfg = true →
       emit cfg (run cfg (S n)) fuel e args s = Some (s3, AThrew err))
  ∧ (strict cfg = false →
       (∀ g, g ∈ l2 → calm cfg args out g) →
       (listeners e s1 = [] ∨ (map s2 = map s1 ∧ sets s2 = sets s1)) →
       let s' := calm_calls cfg e args out l2 s3 in
       emit cfg (run cfg (S n)) fuel e args s = Some (s', AUndefined)
       ∧ calls_log s' = calls_log s3 ++ called l2
       ∧ error_log s' = error_log s3 ++ omap (report_of cfg e out) l2)
  ∧ (∀ s' r, emit cfg (run cfg (S n)) fuel e args s = Some (s', r) →
       (∀ a, arrow ∉ elements (set_at a s'))
       ∧ fired arrow (calls_log s') = S (fired arrow (calls_log s))
       ∧ ∀ m p s4 o, run cfg m p s' = Some (s4, o) →
           (∀ a, arrow ∉ elements (set_at a s4))
           ∧ fired arrow (calls_log s4) = S (fired arrow (calls_log s))).
Proof.
  intros Hinv Hls Hcalm Hsafe arrow traced s0 s1 Hrun Hfuel s3 called.
  subst arrow. set (arrow := Adapter h (User id)) in *.
  assert (NoDup (l1 ++ arrow :: l2)) as Hnd
    by (rewrite <-Hls; apply listeners_NoDup, Hinv).
  assert (arrow ∉ l1) as Hal1.
  { apply NoDup_app in Hnd as (_ & Hd & _). intros Hin. apply (Hd arrow Hin). left. }
  assert (arrow ∉ l2) as Hal2.
  { apply NoDup_app in Hnd as (_ & _ & Hn). by apply NoDup_cons in Hn as [? _]. }
  destruct (emit_reach cfg e args out n l1 arrow l2 s Hinv Hls Hcalm Hsafe)
    as (j & Hreach & Hinv0 & He0 & Hj & Hlen & Hel0 & Hdrop & Hc0 & Her0 & Ht0
        & Ho0).
  set (a := getListeners e s) in *.
  fold traced in Hreach, Hinv0, He0, Hj, Hlen, Hel0, Hdrop, Hc0, Her0, Ht0, Ho0.
  fold s0 in Hreach, Hinv0, He0, Hj, Hlen, Hel0, Hdrop, Hc0, Her0, Ht0, Ho0.
  pose proof (lookup_lt_Some _ _ _ Hj) as Hlt.
  set (sl := log_call arrow args s0) in *.
  assert (inv sl) as Hinvl by by apply (inv_ext s0).
  assert (arrow ∈ elements (set_at a sl)) as Hin
    by (change (set_at a sl) with (set_at a s0); by eapply lookup_elements).
  destruct (unsubscribe_arrow e a h (User id) sl Hinvl He0 Hin)
    as (Hinv1 & Hlink1 & Hset1 & Hmap1 & Hc1 & Her1 & Ht1 & Ho1 & Habs1 & Hh1).
  fold s1 in Hinv1, Hlink1, Hset1, Hmap1, Hc1, Her1, Ht1, Ho1, Habs1, Hh1.
  fold arrow in Hset1, Hmap1, Habs1.
  change (set_at a sl) with (set_at a s0) in Hset1, Hmap1.
  assert (elements (set_at a s1) = filter (λ g, is_once g = false) l1 ++ l2)
    as Hel1.
  { rewrite Hset1, elements_set_delete, Hel0, filter_app.
    rewrite filter_cons_False by (by intros ?).
    f_equal; apply filter_ne_absent; [|done].
    by intros [_ ?]%list_elem_of_filter. }
  assert (listeners e s1 = filter (λ g, is_once g = false) l1 ++ l2) as Hls1
    by (rewrite (linked_listeners e a s1) by (done || apply Hinv1); done).
  (* the arrow calls [f] *)
  assert (apply cfg (run cfg (S n)) arrow args s0 = Some (s2, Throws err))
    as Happ.
  { unfold arrow. rewrite apply_adapter. fold arrow. fold sl.
    replace (unsubscribe h sl) with (s1, (unsubscribe h sl).2)
      by (unfold s1; by destruct (unsubscribe h sl)).
    cbv beta iota.
    change (apply cfg (run cfg (S n)) (User id) args s1)
      with (run cfg (S n) (body cfg id (calls_log s1) args)
              (log_call (User id) args s1)).
    by rewrite Hrun. }
  set (sf := log_call (User id) args s1) in *.
  assert (inv s3) as Hinv3.
  { apply (inv_ext s2); [done..|].
    eapply run_inv; [|exact Hrun]. by apply (inv_ext s1). }
  assert (fired arrow (calls_log s0) = fired arrow (calls_log s)) as Hf0.
  { rewrite Hc0, fired_app, fired_calls_of; [lia|done|].
    intros g Hg Heq.
    pose proof (ad_flat s (proj2 Hinv) a g) as Hflat.
    assert (g ∈ elements (set_at a s)) as Hgs.
    { change (g ∈ listeners e s). rewrite Hls. apply elem_of_app. by left. }
    specialize (Hflat Hgs). destruct g as [?|h' [?|]]; done. }
  assert (gone h (User id) (S (fired arrow (calls_log s))) s3) as Hgone3.
  { apply (gone_ext h (User id) _ s2); [done..|].
    eapply run_gone; [|exact Hrun].
    split.
    - intros b g Hg. by apply (ad_flat s1 (proj2 Hinv1) b).
    - done.
    - done.
    - unfold sf. rewrite fired_log_call_ne by done. rewrite Hc1.
      unfold sl. by rewrite fired_log_call_eq, Hf0. }
  (* the loop after the arrow *)
  assert (emit cfg (run cfg (S n)) fuel e args s
          = if strict cfg then Some (s3, AThrew err)
            else emit_loop cfg (run cfg (S n)) (fuel - S j) a (S j) e args s3)
    as Hemit.
  { replace fuel with (j + S (fuel - S j)) at 1 by lia.
    rewrite Hreach, emit_loop_S, Hj, Happ. cbv zeta. by destruct (strict cfg). }
  split_and!.
  - done.
  - done.
  - done.
  - intros Hs. by rewrite Hemit, Hs.
  - intros Hs Hcalm2 Hkeep s'. rewrite Hemit, Hs.
    destruct Hkeep as [Hnone|[Hm Hsets]].
    + (* no listener was left: the [Set] has left the registry *)
      rewrite Hls1 in Hnone. apply app_eq_nil in Hnone as [Hn1 ->].
      rewrite Hn1 in Hel0. simpl in Hel0.
      destruct (unsubscribe_pending h (User id) e a sl Hinvl He0 Hel0)
        as (Hdead & _).
      fold s1 in Hdead.
      assert (dead a (set_delete (Adapter h (User id)) (set_at a sl)) s3)
        as [Hset3 _].
      { apply (dead_ext _ _ s2); [done..|].
        eapply run_dead; [|exact Hrun]. by apply (dead_ext _ _ s1). }
      assert (set_at a s3 = set_at a s1) as Heq3.
      { unfold set_at at 1. rewrite Hset3. simpl. by rewrite Hset1. }
      unfold s'. simpl. rewrite !app_nil_r. split; [|done].
      apply emit_loop_holes.
      * rewrite Heq3. apply elements_drop_nil.
        rewrite Hel1, Hn1. done.
      * rewrite Heq3, Hset1, length_set_delete. lia.
    + (* [f] left the registry as it was *)
      assert (set_at a s3 = set_at a s1) as Heq3
        by (unfold set_at; simpl; by rewrite Hsets).
      set (k := length (set_at a s0) - S j).
      assert (elements (take k (drop (S j) (set_at a s3))) = l2) as Hmid.
      { rewrite Heq3, Hset1, set_delete_drop.
        rewrite take_ge by (rewrite length_set_delete, length_drop; unfold k; lia).
        rewrite elements_set_delete, Hdrop. by apply filter_ne_absent. }
      destruct (emit_loop_calm cfg e args out a n k (S j) s3)
        as (t & Hloop & _ & _ & Hsett & Hct & Hert & _ & _ & _ & _ & _ & Hstate);
        [done
        |apply (linked_ext e a s1); [done..|done]
        |rewrite Heq3, Hset1, length_set_delete; unfold k; lia
        |by rewrite Hmid|by left|].
      rewrite Hmid in Hsett, Hct, Hert, Hstate. fold s' in Hstate. subst t.
      split_and!; [|done|done].
      replace (fuel - S j) with (k + S (fuel - S j - S k))
        by (unfold k; lia).
      rewrite Hloop. apply emit_loop_end.
      rewrite Hsett, length_holes, Heq3, Hset1, length_set_delete.
      unfold k. lia.
  - intros s' r Hres. rewrite Hemit in Hres.
    assert (gone h (User id) (S (fired arrow (calls_log s))) s') as Hgone'.
    { destruct (strict cfg).
      - by injection Hres as <- _.
      - by eapply emit_loop_gone. }
    split_and!.
    + apply (gone_absent _ _ _ _ Hgone').
    + apply (gone_fired _ _ _ _ Hgone').
    + intros m p s4 o Hlater.
      pose proof (run_gone cfg h (User id) _ m p s' s4 o Hgone' Hlater) as Hgone4.
      split; [apply (gone_absent _ _ _ _ Hgone4)|apply (gone_fired _ _ _ _ Hgone4)].
Qed.

(** ** Attaching the closures to the host *)

Lemma name_inj (c1 c2 : Host.capability) : Host.name c1 = Host.name c2 → c1 = c2.
Proof. by destruct c1, c2. Qed.

Lemma defineProperty_Some (c : Host.capability) (o o' : Host.obj) :
  Host.defineProperty c o = Some o' →
  can_define c o
  ∧ o' = {| Host.own := <[Host.name c := Host.descriptor c]> (Host.own o);
            Host.inherited := Host.inherited o;
            Host.extensible := Host.extensible o |}.
Proof.
  unfold Host.defineProperty, can_define.
  destruct (Host.own o !! Host.name c) as [p|].
  - destruct (Host.configurable p); [|done]. by intros [= <-].
  - destruct (Host.extensible o); [|done]. by intros [= <-].
Qed.

Lemma defineProperty_can (c : Host.capability) (o : Host.obj) :
  can_define c o → is_Some (Host.defineProperty c o).
Proof.
  unfold Host.defineProperty, can_define.
  destruct (Host.own o !! Host.name c) as [p|]; by intros ->.
Qed.

Lemma can_define_insert (c c' : Host.capability) (o : Host.obj) :
  c' ≠ c →
  can_define c' {| Host.own := <[Host.name c := Host.descriptor c]> (Host.own o);
                   Host.inherited := Host.inherited o;
                   Host.extensible := Host.extensible o |}
  ↔ can_define c' o.
Proof.
  intros Hne. unfold can_define. simpl.
  rewrite lookup_insert_ne; [done|]. intros Heq. by apply name_inj in Heq.
Qed.

Lemma defineProperties_None (cs : list Host.capability) (o o' : Host.obj) :
  Host.defineProperties cs o = (o', None) →
  (∀ c, c ∈ cs → can_define c o)
  ∧ (∀ c, c ∈ cs → Host.own o' !! Host.name c = Some (Host.descriptor c))
  ∧ (∀ n, (∀ c, c ∈ cs → n ≠ Host.name c) → Host.own o' !! n = Host.own o !! n)
  ∧ Host.inherited o' = Host.inherited o
  ∧ Host.extensible o' = Host.extensible o.
Proof.
  revert o. induction cs as [|c cs IH]; intros o; simpl.
  - intros [= <-]. split_and!; try done; intros c Hc; by apply elem_of_nil in Hc.
  - destruct (Host.defineProperty c o) as [o1|] eqn:Hd; [|done].
    apply defineProperty_Some in Hd as [Hc ->].
    intros (Hcan & Hnew & Hold & Hinh & Hext)%IH. simpl in *.
    split_and!; try done.
    + intros c' [->|Hc']%elem_of_cons; [done|].
      destruct (decide (c' = c)) as [->|Hne]; [done|].
      apply (can_define_insert c c' o Hne). by apply Hcan.
    + intros c' [->|Hc']%elem_of_cons; [|by apply Hnew].
      destruct (decide (c ∈ cs)) as [Hin|Hnin]; [by apply Hnew|].
      rewrite Hold, lookup_insert_eq; [done|].
      intros c' Hc' Heq. apply name_inj in Heq. by subst.
    + intros n Hn. rewrite Hold by (intros c' Hc'; apply Hn; by right).
      rewrite lookup_insert_ne; [done|]. intros Heq. symmetry in Heq.
      revert Heq. apply Hn. left.
Qed.

Lemma defineProperties_can (cs : list Host.capability) (o : Host.obj) :
  (∀ c, c ∈ cs → can_define c o) → ∃ o', Host.defineProperties cs o = (o', None).
Proof.
  revert o. induction cs as [|c cs IH]; intros o Hcan; simpl; [by eexists|].
  destruct (defineProperty_can c o) as [o1 Hd]; [apply Hcan; left|].
  rewrite Hd. apply defineProperty_Some in Hd as [_ ->]. apply IH.
  intros c' Hc'. destruct (decide (c' = c)) as [->|Hne].
  - unfold can_define. simpl. by rewrite lookup_insert_eq.
  - apply can_define_insert; [done|]. apply Hcan. by right.
Qed.

Lemma collision_None (cs : list Host.capability) (o : Host.obj) :
  Host.collision cs o = None
  ↔ ∀ c, c ∈ cs → Host.has_property (Host.name c) o = false.
Proof.
  induction cs as [|c cs IH]; simpl.
  - split; [|done]. intros _ c Hc. by apply elem_of_nil in Hc.
  - destruct (Host.has_property (Host.name c) o) eqn:Hp.
    + split; [done|]. intros H. specialize (H c ltac:(left)). congruence.
    + rewrite IH. split.
      * intros H c' [->|Hc']%elem_of_cons; auto.
      * intros H c' Hc'. apply H. by right.
Qed.

Lemma has_property_own (n : string) (o : Host.obj) :
  Host.has_property n o = false → Host.own o !! n = None.
Proof.
  unfold Host.has_property. intros [H _]%orb_false_iff.
  apply bool_decide_eq_false in H. by apply eq_None_not_Some.
Qed.

Lemma attachable_can (o : Host.obj) :
  attachable o
  ↔ Host.collision Host.checked o = None
    ∧ ∀ c, c ∈ Host.attached → can_define c o.
Proof.
  rewrite collision_None. unfold attachable. split.
  - intros (Hfree & Hext & Hasync). split; [done|].
    intros c Hc. unfold can_define.
    destruct (decide (c = Host.EmitAsync)) as [->|Hne].
    + destruct (Host.own o !! Host.name Host.EmitAsync) as [p|] eqn:Hp; [|done].
      by apply Hasync.
    + rewrite has_property_own; [done|]. apply Hfree.
      unfold Host.checked. destruct c; try done; repeat constructor.
  - intros [Hfree Hcan]. split; [done|].
    pose proof (Hcan Host.On ltac:(left)) as Hon. unfold can_define in Hon.
    rewrite has_property_own in Hon by (apply Hfree; left).
    split; [done|]. intros p Hp.
    pose proof (Hcan Host.EmitAsync ltac:(unfold Host.attached; repeat constructor)) as Ha.
    unfold can_define in Ha. simpl in Ha. by rewrite Hp in Ha.
Qed.

Lemma eventful_object (like : Host.host) (o : Host.obj) :
  Host.eventful (Host.wrap like o)
  = match Host.collision Host.checked o with
    | Some err => Host.Raised err (Host.wrap like o)
    | None =>
        match Host.defineProperties Host.attached o with
        | (o', None) => Host.Returned (Host.wrap like o')
        | (o', Some err) => Host.Raised err (Host.wrap like o')
        end
    end.
Proof. by destruct like. Qed.

(** X22.  Which hosts [eventful] takes.  It throws [TypeError('Expect an object or
    a function.')] exactly for [null] and for primitive values, leaving them
    as they are.  It returns exactly for [undefined] and for the objects and
    functions on which none of [on], [once], [off], [emit], [has] is present
    (own or inherited), which are extensible, and whose own [emitAsync], if
    any, is configurable. *)
Theorem eventful_accepts (h : Host.host) :
  ((∃ h', Host.eventful h
          = Host.Raised (TypeError "Expect an object or a function.") h')
   ↔ h = Host.Null ∨ h = Host.Primitive)
  ∧ (h = Host.Null ∨ h = Host.Primitive →
     Host.eventful h = Host.Raised (TypeError "Expect an object or a function.") h)
  ∧ ((∃ h', Host.eventful h = Host.Returned h')
     ↔ h = Host.Undefined
       ∨ ∃ o, (h = Host.Object o ∨ h = Host.Function o) ∧ attachable o).
Proof.
  assert (∀ like o,
            (∃ h', Host.eventful (Host.wrap like o) = Host.Returned h')
            ↔ attachable o) as Hwrap.
  { intros like o. rewrite eventful_object, attachable_can. split.
    - intros [h' Hr]. destruct (Host.collision Host.checked o); [done|].
      split; [done|].
      destruct (Host.defineProperties Host.attached o) as [o' [err|]] eqn:Hd; [done|].
      by apply defineProperties_None in Hd as [? _].
    - intros [-> Hcan]. destruct (defineProperties_can _ o Hcan) as [o' ->].
      by eexists. }
  assert (∀ like o err h',
            Host.eventful (Host.wrap like o) = Host.Raised err h' →
            err ≠ TypeError "Expect an object or a function.") as Hother.
  { intros like o err h'. rewrite eventful_object.
    destruct (Host.collision Host.checked o) as [err'|] eqn:Hc.
    - intros [= <- <-]. clear Hwrap. revert Hc. unfold Host.checked. simpl.
      repeat (destruct (Host.has_property _ o); [by intros [= <-]|]). done.
    - destruct (Host.defineProperties Host.attached o) as [o' [err'|]] eqn:Hd; [|done].
      intros [= <- <-]. clear Hwrap Hc. revert Hd. unfold Host.attached. simpl.
      repeat (destruct (Host.defineProperty _ _); [|by intros [= _ <-]]). done. }
  split_and!.
  - split.
    + intros [h' Hr]. destruct h as [| | |o|o]; auto.
      * by vm_compute in Hr.
      * by destruct (Hother (Host.Object o) o _ _ Hr).
      * by destruct (Hother (Host.Function o) o _ _ Hr).
    + intros [->| ->]; by eexists.
  - by intros [->| ->].
  - split.
    + intros [h' Hr]. destruct h as [| | |o|o]; try done.
      * by left.
      * right. exists o. split; [by left|].
        apply (Hwrap (Host.Object o)). by exists h'.
      * right. exists o. split; [by right|].
        apply (Hwrap (Host.Function o)). by exists h'.
    + intros [->|(o & [->| ->] & Ha)].
      * by eexists.
      * by apply (Hwrap (Host.Object o)).
      * by apply (Hwrap (Host.Function o)).
Qed.

Lemma eventful_Returned (h h' : Host.host) :
  Host.eventful h = Host.Returned h' →
  ∃ o o',
    (h = Host.Undefined ∧ o = bare ∧ h' = Host.Object o'
     ∨ h = Host.Object o ∧ h' = Host.Object o'
     ∨ h = Host.Function o ∧ h' = Host.Function o')
    ∧ Host.collision Host.checked o = None
    ∧ Host.defineProperties Host.attached o = (o', None).
Proof.
  assert (∀ like o,
            Host.eventful (Host.wrap like o) = Host.Returned h' →
            ∃ o', h' = Host.wrap like o'
                  ∧ Host.collision Host.checked o = None
                  ∧ Host.defineProperties Host.attached o = (o', None)) as Hwrap.
  { intros like o. rewrite eventful_object.
    destruct (Host.collision Host.checked o); [done|].
    destruct (Host.defineProperties Host.attached o) as [o' [err|]]; [done|].
    intros [= <-]. by exists o'. }
  destruct h as [| | |o|o]; try done.
  - intros (o' & -> & Hd)%(Hwrap Host.Undefined bare). exists bare, o'. auto.
  - intros (o' & -> & Hd)%(Hwrap (Host.Object o) o). exists o, o'. auto.
  - intros (o' & -> & Hd)%(Hwrap (Host.Function o) o). exists o, o'.
    split; [|done]. right. by right.
Qed.

(** X23.  What [eventful] does to a host it accepts.  The host returned is the
    one given (for [undefined], a new object without prototype) with the six
    properties [on], [once], [off], [emit], [emitAsync], [has], each holding
    its closure and each non-enumerable, configurable and writable.  Every
    other own property is as it was, as are the inherited names and
    extensibility; so every enumerable own property afterwards is one the
    host had before, and the only property that can be lost is an own
    [emitAsync]. *)
Theorem eventful_attaches (h h' : Host.host) :
  Host.eventful h = Host.Returned h' →
  ∃ o o',
    (h = Host.Undefined ∧ o = bare ∧ h' = Host.Object o'
     ∨ h = Host.Object o ∧ h' = Host.Object o'
     ∨ h = Host.Function o ∧ h' = Host.Function o')
    ∧ (∀ c, Host.own o' !! Host.name c
            = Some (Host.Property (Host.Closure c) false true true))
    ∧ (∀ n, (∀ c, n ≠ Host.name c) → Host.own o' !! n = Host.own o !! n)
    ∧ (∀ n p, Host.own o' !! n = Some p → Host.enumerable p = true →
              Host.own o !! n = Some p)
    ∧ (∀ n p, Host.own o !! n = Some p → n ≠ "emitAsync" →
              Host.own o' !! n = Some p)
    ∧ Host.inherited o' = Host.inherited o
    ∧ Host.extensible o' = Host.extensible o.
Proof.
  intros (o & o' & Hh & Hfree & Hd)%eventful_Returned.
  apply defineProperties_None in Hd as (Hcan & Hnew & Hold & Hinh & Hext).
  assert (∀ c, c ∈ Host.attached) as Hall
    by (intros c; unfold Host.attached; destruct c; repeat constructor).
  assert (∀ n, (∃ c, n = Host.name c) ∨ ∀ c, n ≠ Host.name c) as Hname.
  { intros n.
    destruct (decide (n ∈ Host.name <$> Host.attached)) as [Hin|Hnin].
    - left. apply list_elem_of_fmap in Hin as (c & -> & _). by exists c.
    - right. intros c ->. apply Hnin. apply list_elem_of_fmap. by exists c. }
  exists o, o'. split_and!; try done.
  - intros c. by apply Hnew.
  - intros n Hn. apply Hold. intros c _. apply Hn.
  - intros n p Hp Hen. destruct (Hname n) as [[c ->]|Hn].
    + rewrite Hnew in Hp by done. by simplify_eq.
    + rewrite <-Hp. symmetry. apply Hold. intros c _. apply Hn.
  - intros n p Hp Hne. destruct (Hname n) as [[c ->]|Hn].
    + destruct (decide (c = Host.EmitAsync)) as [->|Hc]; [done|].
      assert (Host.own o !! Host.name c = None) as Hnone; [|congruence].
      apply has_property_own. apply (proj1 (collision_None _ _) Hfree).
      unfold Host.checked. destruct c; try done; repeat constructor.
    + rewrite <-Hp. apply Hold. intros c _. apply Hn.
Qed.

(** X24.  [eventful] cannot be applied twice: on a host that an earlier call
    returned it throws [Error('Method "on" already exists.')] and leaves the
    host as it is. *)
Theorem eventful_twice (h h' : Host.host) :
  Host.eventful h = Host.Returned h' →
  Host.eventful h' = Host.Raised (Host.already_exists "on") h'.
Proof.
  intros (o & o' & Hh & _ & Hd)%eventful_Returned.
  apply defineProperties_None in Hd as (_ & Hnew & _).
  assert (Host.has_property "on" o' = true) as Hon.
  { unfold Host.has_property. apply orb_true_iff. left.
    apply bool_decide_eq_true. exists (Host.descriptor Host.On).
    apply (Hnew Host.On). left. }
  assert (∀ like, Host.eventful (Host.wrap like o')
                  = Host.Raised (Host.already_exists "on") (Host.wrap like o')) as Hw.
  { intros like. rewrite eventful_object. unfold Host.checked.
    cbn [Host.collision]. change (Host.name Host.On) with "on". by rewrite Hon. }
  destruct Hh as [(_ & _ & ->)|[[_ ->]|[_ ->]]].
  - apply (Hw (Host.Object o')).
  - apply (Hw (Host.Object o')).
  - apply (Hw (Host.Function o')).
Qed.

(** ** The properties at concrete emitters *)

Ltac in_list H :=
  apply list_elem_of_In in H; simpl in H;
  repeat (destruct H as [H|H]; [subst|]); try done.

Lemma on_appends_witness :
  reg_ok Scenario5.s0
  ∧ (on Scenario4.cfg Scenario.test (JFn (User 3)) Scenario5.s0).2 = AHandle 2
  ∧ listeners Scenario.test
      (on Scenario4.cfg Scenario.test (JFn (User 3)) Scenario5.s0).1
    = [User 1; User 2; User 3]
  ∧ listeners Scenario.test
      (on Scenario4.cfg Scenario.test (JFn (User 1)) Scenario5.s0).1
    = [User 1; User 2].
Proof.
  assert (reg_ok Scenario5.s0) as Hok
    by apply reg_ok_on, reg_ok_on, reg_ok_initial.
  split; [exact Hok|].
  destruct (on_appends Scenario4.cfg Scenario.test (User 3) Scenario5.s0 Hok)
    as (Ha & _ & Hnew & _).
  destruct (on_appends Scenario4.cfg Scenario.test (User 1) Scenario5.s0 Hok)
    as (_ & _ & _ & Hold & _).
  split; [exact Ha|]. split.
  - rewrite Hnew; [reflexivity|]. intros H. vm_compute in H. in_list H.
  - rewrite Hold; [reflexivity|]. vm_compute. left.
Defined.

Lemma once_registers_anew_witness :
  inv initial
  ∧ listeners Scenario.test
      (once Scenario4.cfg Scenario.test (JFn (User 2))
         (once Scenario4.cfg Scenario.test (JFn (User 2)) initial).1).1
    = [Adapter 0 (User 2); Adapter 1 (User 2)].
Proof.
  split; [apply inv_initial|].
  destruct (once_registers_anew Scenario4.cfg Scenario.test 2 initial inv_initial)
    as (_ & _ & _ & H & _).
  exact H.
Defined.

Lemma off_removes_witness :
  reg_ok Scenario5.s0
  ∧ (off Scenario4.cfg Scenario.test (JFn (User 1)) Scenario5.s0).2 = ABool true
  ∧ listeners Scenario.test
      (off Scenario4.cfg Scenario.test (JFn (User 1)) Scenario5.s0).1
    = [User 2]
  ∧ (off Scenario4.cfg Scenario.test (JFn (User 3)) Scenario5.s0).2 = ABool false.
Proof.
  assert (reg_ok Scenario5.s0) as Hok
    by apply reg_ok_on, reg_ok_on, reg_ok_initial.
  split; [exact Hok|].
  destruct (off_removes Scenario4.cfg Scenario.test (User 1) Scenario5.s0 Hok)
    as (Ha & Hl & _).
  destruct (off_removes Scenario4.cfg Scenario.test (User 3) Scenario5.s0 Hok)
    as (Hb & _).
  split; [exact Ha|]. split; [exact Hl|exact Hb].
Defined.

Lemma on_off_round_trip_witness :
  reg_ok Scenario5.s0
  ∧ (User 3 ∉ listeners Scenario.test Scenario5.s0)
  ∧ (off Scenario4.cfg Scenario.test (JFn (User 3))
       (on Scenario4.cfg Scenario.test (JFn (User 3)) Scenario5.s0).1).2
    = ABool true
  ∧ ∀ e', listeners e'
            (off Scenario4.cfg Scenario.test (JFn (User 3))
               (on Scenario4.cfg Scenario.test (JFn (User 3)) Scenario5.s0).1).1
          = listeners e' Scenario5.s0.
Proof.
  assert (reg_ok Scenario5.s0) as Hok
    by apply reg_ok_on, reg_ok_on, reg_ok_initial.
  assert (User 3 ∉ listeners Scenario.test Scenario5.s0) as Hf
    by (intros H; vm_compute in H; in_list H).
  split; [exact Hok|]. split; [exact Hf|].
  destruct (on_off_round_trip Scenario4.cfg Scenario.test (User 3) Scenario5.s0
              Hok Hf) as [Ha Hall].
  split; [exact Ha|]. intros e'. apply Hall.
Defined.

Lemma off_on_moves_last_witness :
  reg_ok Scenario5.s0
  ∧ User 1 ∈ listeners Scenario.test Scenario5.s0
  ∧ listeners Scenario.test
      (on Scenario4.cfg Scenario.test (JFn (User 1))
         (off Scenario4.cfg Scenario.test (JFn (User 1)) Scenario5.s0).1).1
    = [User 2; User 1].
Proof.
  assert (reg_ok Scenario5.s0) as Hok
    by apply reg_ok_on, reg_ok_on, reg_ok_initial.
  assert (User 1 ∈ listeners Scenario.test Scenario5.s0) as Hf
    by (vm_compute; left).
  split; [exact Hok|]. split; [exact Hf|].
  destruct (off_on_moves_last Scenario4.cfg Scenario.test (User 1) Scenario5.s0
              Hok Hf) as (_ & Hl & _).
  exact Hl.
Defined.

Lemma handle_first_call_witness :
  reg_ok Scenario11.two_handles
  ∧ handles Scenario11.two_handles !! 0
    = Some (Handle Scenario.test (User 1) true)
  ∧ (unsubscribe 0 Scenario11.two_handles).2 = false
  ∧ unsubscribe 0 (unsubscribe 0 Scenario11.two_handles).1
    = ((unsubscribe 0 Scenario11.two_handles).1, false).
Proof.
  assert (reg_ok Scenario11.two_handles) as Hok
    by apply reg_ok_unsubscribe, reg_ok_on, reg_ok_on, reg_ok_initial.
  split; [exact Hok|]. split; [reflexivity|].
  destruct (handle_first_call 0 Scenario.test (User 1) Scenario11.two_handles Hok)
    as (Ha & _ & _ & _ & Hagain & _); [reflexivity|].
  split; [rewrite Ha; reflexivity|exact Hagain].
Defined.

Lemma emit_throws_only_strict_witness :
  ∃ s',
    emit Scenario3.strict_cfg (run Scenario3.strict_cfg 1) 4 Scenario.test [42]
      Scenario3.s3
    = Some (s', AThrew (Thrown 7))
    ∧ strict Scenario3.strict_cfg = true
    ∧ last (error_log s')
      = Some (ErrorCall (GlobalHook 0) (Thrown 7)
                (Context 0 Scenario.test (User 2))).
Proof.
  eexists. split; [vm_compute; reflexivity|].
  edestruct (emit_throws_only_strict Scenario3.strict_cfg
               (run Scenario3.strict_cfg 1) 4 Scenario.test [42] Scenario3.s3)
    as [_ [?|(err & g & _ & Hs & _)]]; [vm_compute; reflexivity|done|].
  split; [exact Hs|reflexivity].
Defined.


Lemma emitAsync_promise_witness :
  (∃ s' cs,
     emitAsync Scenario3.strict_cfg (run Scenario3.strict_cfg 1) Scenario.test [42]
       Scenario3.s3
     = Some (s', APromise cs)
     ∧ calls_log s' = [(User 1, [42]); (User 2, [42]); (User 3, [42])]
     ∧ emitAsync_rejects Scenario3.strict_cfg (APromise cs) = true)
  ∧ (∃ s' cs,
       emitAsync Scenario4.cfg (run Scenario4.cfg 1) Scenario.test [42]
         Scenario3.s3
       = Some (s', APromise cs)
       ∧ emitAsync_rejects Scenario4.cfg (APromise cs) = false).
Proof.
  split.
  - destruct (emitAsync_promise Scenario3.strict_cfg Scenario.test [42]
                Scenario3.out3 0 Scenario3.s3)
      as (s' & cs & Hemit & Hc & _ & Hrej).
    { intros g. by apply quiet3. }
    exists s', cs. split; [exact Hemit|]. split; [exact Hc|].
    apply Hrej; [reflexivity|]. exists (User 2). split; [|done].
    vm_compute. right. left.
  - destruct (emitAsync_promise Scenario4.cfg Scenario.test [42]
                Scenario3.out3 0 Scenario3.s3)
      as (s' & cs & Hemit & _ & Hnot & _).
    { intros g. by apply quiet3. }
    exists s', cs. split; [exact Hemit|]. by apply Hnot.
Defined.

Lemma once_pending_iff_unused_witness :
  ∃ s o,
    run Scenario4.cfg 10 Scenario4.p initial = Some (s, o)
    ∧ handles s !! 1 = Some (Handle Scenario.test (Adapter 1 (User 3)) false)
    ∧ (unsubscribe 1 s).2 = false
    ∧ (Adapter 1 (User 3) ∉ listeners Scenario.test s).
Proof.
  destruct (run Scenario4.cfg 10 Scenario4.p initial) as [[s o]|] eqn:Hrun;
    [|by vm_compute in Hrun].
  assert (handles s !! 1 = Some (Handle Scenario.test (Adapter 1 (User 3)) false))
    as Hh.
  { vm_compute in Hrun. injection Hrun as <- _. reflexivity. }
  destruct (once_pending_iff_unused Scenario4.cfg 10 Scenario4.p s o Hrun
              1 Scenario.test (User 3) false Hh) as (Hiff & Hu & _).
  exists s, o. split; [done|]. split; [done|]. split; [done|].
  intros Hin. by apply Hiff in Hin.
Defined.

Lemma hooks_as_configured_witness :
  ∃ s o,
    run Scenario11.cfg 10 Scenario4.p initial = Some (s, o)
    ∧ length (trace_log s) = 4
    ∧ length (error_log s) = 0
    ∧ ∀ tc, tc ∈ trace_log s → tc_hook tc = OwnHook 4.
Proof.
  destruct (run Scenario11.cfg 10 Scenario4.p initial) as [[s o]|] eqn:Hrun;
    [|by vm_compute in Hrun].
  destruct (hooks_as_configured Scenario11.cfg 10 Scenario4.p s o Hrun)
    as (_ & _ & Ht & _).
  exists s, o. split; [done|].
  split; [vm_compute in Hrun; by injection Hrun as <- _|].
  split; [vm_compute in Hrun; by injection Hrun as <- _|].
  by apply Ht.
Defined.

Lemma eventful_attaches_witness :
  ∃ o',
    Host.eventful (Host.Object Scenario2.host) = Host.Returned (Host.Object o')
    ∧ Host.own o' !! "emitAsync"
      = Some (Host.Property (Host.Closure Host.EmitAsync) false true true)
    ∧ Host.own o' !! "has"
      = Some (Host.Property (Host.Closure Host.Has) false true true)
    ∧ Host.own o' !! "name" = None.
Proof.
  destruct (Host.eventful (Host.Object Scenario2.host)) as [h'|] eqn:Hev;
    [|by vm_compute in Hev].
  destruct (eventful_attaches (Host.Object Scenario2.host) h' Hev)
    as (o & o' & [(? & _)|[[[= <-] ->]|[? _]]] & Hnew & Hold & _); try done.
  exists o'. split; [done|].
  split; [apply (Hnew Host.EmitAsync)|]. split; [apply (Hnew Host.Has)|].
  rewrite Hold; [reflexivity|]. by intros [].
Defined.

Lemma eventful_twice_witness :
  ∃ h',
    Host.eventful Host.Undefined = Host.Returned h'
    ∧ Host.eventful h' = Host.Raised (Host.already_exists "on") h'.
Proof.
  destruct (Host.eventful Host.Undefined) as [h'|] eqn:Hev;
    [|by vm_compute in Hev].
  exists h'. split; [done|]. by apply (eventful_twice Host.Undefined).
Defined.

Lemma calm11 (g : fn) :
  g ∈ [User 1; Adapter 1 (User 3); User 2; User 3; User 8] →
  calm Scenario11.cfg [42] Scenario3.out3 g.
Proof.
  intros H. in_list H; by eexists.
Qed.

Lemma quiet11 (g : fn) :
  g ∈ [User 1; User 2; User 3; User 8] →
  quiet Scenario11.cfg [42] Scenario3.out3 g.
Proof.
  intros H. in_list H; by eexists.
Qed.

Lemma emit_fires_once_registrations_witness :
  ∃ s',
    emit Scenario11.cfg (run Scenario11.cfg 1) 4 Scenario.test [42]
      Scenario11.mixed
    = Some (s', AUndefined)
    ∧ calls_log s'
      = [(User 1, [42]); (Adapter 1 (User 3), [42]); (User 3, [42]);
         (User 2, [42])]
    ∧ error_log s'
      = [ErrorCall (OwnHook 5) (Thrown 7) (Context 0 Scenario.test (User 2))]
    ∧ listeners Scenario.test s' = [User 1; User 2]
    ∧ unsubscribe 1 s' = (s', false).
Proof.
  destruct (emit_fires_once_registrations Scenario11.cfg Scenario.test [42]
              Scenario3.out3 Scenario11.mixed 0 4)
    as (s' & Hemit & Hc & He & Hl & _ & Hu & _).
  - apply inv_on, inv_once, inv_on, inv_initial.
  - vm_compute. discriminate.
  - intros g Hg. apply calm11. vm_compute in Hg. in_list Hg; repeat constructor.
  - by left.
  - vm_compute. lia.
  - exists s'. split; [exact Hemit|]. split; [exact Hc|]. split; [exact He|].
    split; [exact Hl|]. apply (Hu 1 (User 3)). vm_compute. right. left.
Defined.

Lemma emit_resubscribe_diverges_witness :
  listeners Scenario.test Scenario11.looping = [User 1; User 5]
  ∧ ∀ n fuel,
      emit Scenario11.cfg (run Scenario11.cfg n) fuel Scenario.test [42]
        Scenario11.looping
      = None.
Proof.
  split; [reflexivity|].
  apply (emit_resubscribe_diverges Scenario11.cfg Scenario.test 5 1 [42]
           Scenario3.out3).
  - apply inv_on, inv_on, inv_initial.
  - vm_compute. right. left.
  - vm_compute. left.
  - done.
  - done.
  - intros g Hg Hne. apply calm11. vm_compute in Hg. in_list Hg. left.
  - by left.
Defined.

Lemma emit_resubscribe_alone_witness :
  ∃ s',
    emit Scenario11.cfg (run Scenario11.cfg 3) 2 Scenario.test [42]
      Scenario11.alone
    = Some (s', AUndefined)
    ∧ calls_log s' = [(User 5, [42])]
    ∧ listeners Scenario.test s' = [User 5].
Proof.
  apply (emit_resubscribe_alone Scenario11.cfg Scenario.test 5 [42]
           Scenario11.alone 0 2).
  - apply inv_on, inv_initial.
  - reflexivity.
  - done.
  - vm_compute. lia.
Defined.

Lemma emit_reaches_added_listener_witness :
  (∃ s',
     emit Scenario11.cfg (run Scenario11.cfg 2) 6 Scenario.test [42]
       Scenario11.adding
     = Some (s', AUndefined)
     ∧ calls_log s'
       = [(User 1, [42]); (User 6, [42]); (User 3, [42]); (User 8, [42])]
     ∧ listeners Scenario.test s' = [User 1; User 6; User 3; User 8])
  ∧ (∃ s' cs,
       emitAsync Scenario11.cfg (run Scenario11.cfg 2) Scenario.test [42]
         Scenario11.adding
       = Some (s', APromise cs)
       ∧ calls_log s' = [(User 1, [42]); (User 6, [42]); (User 3, [42])]
       ∧ listeners Scenario.test s' = [User 1; User 6; User 3; User 8]).
Proof.
  apply (emit_reaches_added_listener Scenario11.cfg Scenario.test 6 8 [42]
           Scenario3.out3 [User 1] [User 3] Scenario11.adding 0 6).
  - apply inv_on, inv_on, inv_on, inv_initial.
  - reflexivity.
  - intros H. vm_compute in H. in_list H.
  - done.
  - intros g Hg. apply quiet11. in_list Hg; repeat constructor.
  - by left.
  - vm_compute. lia.
Defined.

Lemma emit_skips_removed_listener_witness :
  (∃ s',
     emit Scenario11.cfg (run Scenario11.cfg 2) 6 Scenario.test [42]
       Scenario11.removing
     = Some (s', AUndefined)
     ∧ calls_log s' = [(User 1, [42]); (User 7, [42]); (User 3, [42])]
     ∧ listeners Scenario.test s' = [User 1; User 7; User 3])
  ∧ (∃ s' cs,
       emitAsync Scenario11.cfg (run Scenario11.cfg 2) Scenario.test [42]
         Scenario11.removing
       = Some (s', APromise cs)
       ∧ calls_log s'
         = [(User 1, [42]); (User 7, [42]); (User 8, [42]); (User 3, [42])]
       ∧ listeners Scenario.test s' = [User 1; User 7; User 3]).
Proof.
  apply (emit_skips_removed_listener Scenario11.cfg Scenario.test 7 8 [42]
           Scenario3.out3 [User 1] [User 8; User 3] Scenario11.removing 0 6).
  - apply inv_on, inv_on, inv_on, inv_on, inv_initial.
  - reflexivity.
  - left.
  - done.
  - intros g Hg. apply quiet11. in_list Hg; repeat constructor.
  - by left.
  - vm_compute. lia.
Defined.

Lemma quiet12 (cfg : config) (args : list nat) (g : fn) :
  body cfg = Scenario12.body12 →
  g ∈ [User 1; User 2; User 3; User 4] →
  quiet cfg args Scenario12.out12 g.
Proof.
  intros Hb H. in_list H; eexists; (split; [done|]); intros hist; by rewrite Hb.
Qed.

Lemma emitAsync_fires_once_registrations_witness :
  ∃ s',
    emitAsync Scenario12.cfg (run Scenario12.cfg 1) Scenario.test [42]
      Scenario12.waiting
    = Some (s', APromise [Fulfils; Fulfils])
    ∧ calls_log s'
      = [(User 1, [42]); (Adapter 1 (User 4), [42]); (User 4, [42])]
    ∧ error_log s' = []
    ∧ listeners Scenario.test s' = [User 1]
    ∧ unsubscribe 1 s' = (s', false).
Proof.
  destruct (emitAsync_fires_once_registrations Scenario12.cfg Scenario.test [42]
              Scenario12.out12 Scenario12.waiting 0)
    as (s' & Hemit & Hc & He & Hl & _ & Hu & _).
  - apply inv_once, inv_on, inv_initial.
  - intros g Hg. apply (quiet12 Scenario12.cfg [42]); [done|].
    vm_compute in Hg. in_list Hg; repeat constructor.
  - exists s'. split; [exact Hemit|]. split; [exact Hc|]. split; [exact He|].
    split; [exact Hl|]. apply (Hu 1 (User 4)). vm_compute. right. left.
Defined.

Lemma emit_nested_in_order_witness :
  ∃ s',
    emit Scenario12.loose (run Scenario12.loose 4) 4 Scenario.test [42]
      Scenario12.chained
    = Some (s', AUndefined)
    ∧ calls_log s'
      = [(User 1, [42]); (User 9, [42]); (User 2, [7]); (User 3, [7]);
         (User 3, [42])]
    ∧ error_log s'
      = [ErrorCall (GlobalHook 0) (Thrown 7)
           (Context 0 Scenario12.other (User 2))].
Proof.
  destruct (emit_nested_in_order Scenario12.loose Scenario.test Scenario12.other
              9 [42] [7] Scenario12.out12 [User 1] [User 3] Scenario12.chained
              2 4)
    as (s' & Hemit & Hc & He & _).
  - reflexivity.
  - done.
  - intros g Hg. apply (quiet12 Scenario12.loose [42]); [done|].
    in_list Hg; repeat constructor.
  - intros g Hg. apply (quiet12 Scenario12.loose [7]); [done|].
    vm_compute in Hg. in_list Hg; repeat constructor.
  - by left.
  - vm_compute. lia.
  - vm_compute. lia.
  - exists s'. split; [exact Hemit|]. split; [exact Hc|exact He].
Defined.

Lemma emit_nested_reports_twice_witness :
  ∃ s',
    emit Scenario12.cfg (run Scenario12.cfg 4) 4 Scenario.test [42]
      Scenario12.chained
    = Some (s', AThrew (Thrown 7))
    ∧ calls_log s' = [(User 1, [42]); (User 9, [42]); (User 2, [7])]
    ∧ error_log s'
      = [ErrorCall (GlobalHook 0) (Thrown 7)
           (Context 0 Scenario12.other (User 2));
         ErrorCall (GlobalHook 0) (Thrown 7)
           (Context 0 Scenario.test (User 9))].
Proof.
  destruct (emit_nested_reports_twice Scenario12.cfg Scenario.test
              Scenario12.other 9 [42] [7] Scenario12.out12 [User 1] [User 3]
              [] [User 3] (User 2) (Thrown 7) Scenario12.chained 2 4)
    as (s' & Hemit & Hc & He & _).
  - reflexivity.
  - reflexivity.
  - done.
  - reflexivity.
  - reflexivity.
  - intros g Hg. apply (quiet12 Scenario12.cfg [42]); [done|].
    in_list Hg; repeat constructor.
  - intros g Hg. apply (quiet12 Scenario12.cfg [7]); [done|].
    in_list Hg; repeat constructor.
  - intros g err Hg Hout. in_list Hg.
  - vm_compute. lia.
  - vm_compute. lia.
  - exists s'. split; [exact Hemit|]. split; [exact Hc|exact He].
Defined.

Lemma emit_in_order_witness :
  (∃ s',
     emit Scenario12.loose (run Scenario12.loose 1) 4 Scenario.test [42]
       Scenario12.guarded
     = Some (s', AUndefined)
     ∧ calls_log s'
       = [(User 1, [42]); (Adapter 1 (User 2), [42]); (User 2, [42]);
          (User 3, [42])]
     ∧ error_log s'
       = [ErrorCall (GlobalHook 0) (Thrown 7)
            (Context 0 Scenario.test (Adapter 1 (User 2)))]
     ∧ listeners Scenario.test s' = [User 1; User 3])
  ∧ (∃ s',
       emit Scenario12.cfg (run Scenario12.cfg 1) 4 Scenario.test [42]
         Scenario12.guarded
       = Some (s', AThrew (Thrown 7))
       ∧ calls_log s'
         = [(User 1, [42]); (Adapter 1 (User 2), [42]); (User 2, [42])]
       ∧ error_log s'
         = [ErrorCall (GlobalHook 0) (Thrown 7)
              (Context 0 Scenario.test (Adapter 1 (User 2)))]
       ∧ listeners Scenario.test s' = [User 1; User 3]).
Proof.
  assert (inv Scenario12.guarded) as Hinv
    by apply inv_on, inv_once, inv_on, inv_initial.
  split.
  - destruct (emit_in_order Scenario12.loose Scenario.test [42] Scenario12.out12
                Scenario12.guarded 0 4) as (H & _ & _).
    + exact Hinv.
    + vm_compute. discriminate.
    + intros g Hg. apply (quiet12 Scenario12.loose [42]); [done|].
      vm_compute in Hg. in_list Hg; repeat constructor.
    + vm_compute. lia.
    + destruct (H eq_refl) as (s' & Hemit & _ & Hc & He & Hl & _).
      exists s'. split; [exact Hemit|]. split; [exact Hc|].
      split; [exact He|exact Hl].
  - destruct (emit_in_order Scenario12.cfg Scenario.test [42] Scenario12.out12
                Scenario12.guarded 0 4) as (_ & _ & H).
    + exact Hinv.
    + vm_compute. discriminate.
    + intros g Hg. apply (quiet12 Scenario12.cfg [42]); [done|].
      vm_compute in Hg. in_list Hg; repeat constructor.
    + vm_compute. lia.
    + destruct (H eq_refl [User 1] (Adapter 1 (User 2)) [User 3] (Thrown 7))
        as (s' & Hemit & _ & Hc & He & Hl & _).
      * reflexivity.
      * intros g err Hg Hout. in_list Hg.
      * reflexivity.
      * exists s'. split; [exact Hemit|]. split; [exact Hc|].
        split; [exact He|exact Hl].
Defined.

Lemma once_listener_throws_witness :
  (∃ s3,
     emit Scenario12.cfg (run Scenario12.cfg 1) 4 Scenario.test [42]
       Scenario12.guarded
     = Some (s3, AThrew (Thrown 7))
     ∧ calls_log s3
       = [(User 1, [42]); (Adapter 1 (User 2), [42]); (User 2, [42])]
     ∧ error_log s3
       = [ErrorCall (GlobalHook 0) (Thrown 7)
            (Context 0 Scenario.test (Adapter 1 (User 2)))]
     ∧ listeners Scenario.test s3 = [User 1; User 3]
     ∧ ∀ m p s4 o, run Scenario12.cfg m p s3 = Some (s4, o) →
         fired (Adapter 1 (User 2)) (calls_log s4) = 1)
  ∧ (∃ s',
       emit Scenario12.loose (run Scenario12.loose 1) 4 Scenario.test [42]
         Scenario12.guarded
       = Some (s', AUndefined)
       ∧ calls_log s'
         = [(User 1, [42]); (Adapter 1 (User 2), [42]); (User 2, [42]);
            (User 3, [42])]
       ∧ listeners Scenario.test s' = [User 1; User 3])
  ∧ (∃ s3,
       emit Scenario3.strict_cfg (run Scenario3.strict_cfg 1) 2 Scenario.test
         [42] Scenario10.s0
       = Some (s3, AThrew (Thrown 7))
       ∧ listeners Scenario.test s3 = []).
Proof.
  assert (inv Scenario12.guarded) as Hinv
    by apply inv_on, inv_once, inv_on, inv_initial.
  split_and!.
  - edestruct (once_listener_throws Scenario12.cfg Scenario.test 1 2 [42]
                 (Thrown 7) Scenario12.out12 [User 1] [User 3] 0 4
                 Scenario12.guarded)
      as (_ & _ & _ & Hemit & _ & Hlater).
    + exact Hinv.
    + reflexivity.
    + intros g Hg. apply (quiet12 Scenario12.cfg [42]); [done|].
      in_list Hg; repeat constructor.
    + right. intros g err' Hg Hout. in_list Hg.
    + reflexivity.
    + vm_compute. lia.
    + eexists. split; [exact (Hemit eq_refl)|].
      split; [reflexivity|]. split; [reflexivity|]. split; [reflexivity|].
      intros m p s4 o Hrun.
      destruct (Hlater _ _ (Hemit eq_refl)) as (_ & _ & Hnever).
      destruct (Hnever m p s4 o Hrun) as [_ ->]. reflexivity.
  - edestruct (once_listener_throws Scenario12.loose Scenario.test 1 2 [42]
                 (Thrown 7) Scenario12.out12 [User 1] [User 3] 0 4
                 Scenario12.guarded)
      as (_ & _ & _ & _ & Hemit & _).
    + exact Hinv.
    + reflexivity.
    + intros g Hg. apply (quiet12 Scenario12.loose [42]); [done|].
      in_list Hg; repeat constructor.
    + by left.
    + reflexivity.
    + vm_compute. lia.
    + destruct Hemit as (Hemit & _).
      * reflexivity.
      * intros g Hg. apply (quiet12 Scenario12.loose [42]); [done|].
        in_list Hg; repeat constructor.
      * right. split; reflexivity.
      * eexists. split; [exact Hemit|]. split; reflexivity.
  - edestruct (once_listener_throws Scenario3.strict_cfg Scenario.test 0 2 [42]
                 (Thrown 7) Scenario3.out3 [] [] 0 2 Scenario10.s0)
      as (_ & _ & _ & Hemit & _).
    + apply inv_once, inv_initial.
    + reflexivity.
    + intros g Hg. by apply elem_of_nil in Hg.
    + right. intros g err' Hg. by apply elem_of_nil in Hg.
    + reflexivity.
    + vm_compute. lia.
    + eexists. split; [exact (Hemit eq_refl)|]. reflexivity.
Defined.
